(** * csgo gadgets: the selector (Map / Mux) and the bounded comparator

    A shallow embedding of the Go sources
    - [transpiled/selector/multiplexer.go] (package [selector]),
    - the generated [bounded.csgo] translation (package [cmp]),
    - the generated [binary.csgo] translation (package [convert]),
    together with the properties their documentation promises.

    Big integers ([*big.Int]) are [Z]; Go [int]s that can only be
    non-negative slice positions are [nat]; a Go panic is an explicit
    outcome.  Circuit construction is a state transformer over the shared
    constraint system.  The slices [Map] receives are windows on the
    caller's memory, because [generateSelector] appends to one of them
    before it reads the other; slices that are only read are lists. *)

From Stdlib Require Import ZArith Znumtheory Lia.
From stdpp Require Import base tactics option list strings.

Local Open Scope Z_scope.

(** ** Go results: a value or a panic *)

Inductive go (A : Type) : Type :=
| Ok (a : A)
| Panic (msg : string).
Arguments Ok {A} a.
Arguments Panic {A} msg.

#[global] Instance go_ret : MRet go := fun _ a => Ok a.
#[global] Instance go_bind : MBind go := fun _ _ f m =>
  match m with
  | Ok a => f a
  | Panic msg => Panic msg
  end.

(** Go's [error] interface; [None] is [nil]. *)
Definition error := option string.

(** The runtime's bounds check on [l[i]]. *)
Definition index {A} (l : list A) (i : Z) : go A :=
  if i <? 0 then Panic "index out of range"
  else match l !! Z.to_nat i with
       | Some x => Ok x
       | None => Panic "index out of range"
       end.

(** [l[i].Set(v)] / [l[i].SetUint64(v)]: the slot is overwritten in place. *)
Definition set_at (l : list Z) (i : nat) (v : Z) : go (list Z) :=
  if decide (i < length l)%nat then Ok (<[i:=v]> l)
  else Panic "index out of range".

(** [for i := from; i < from + count; i++ { body }]. *)
Fixpoint for_range {St : Type} (from count : nat) (body : nat -> St -> go St) (s : St) : go St :=
  match count with
  | O => Ok s
  | S count' =>
      match body from s with
      | Ok s' => for_range (S from) count' body s'
      | Panic msg => Panic msg
      end
  end.

(** ** math/big *)

(** [x.Cmp(y)]: -1, 0 or +1. *)
Definition Cmp (x y : Z) : Z :=
  match x ?= y with
  | Lt => -1
  | Eq => 0
  | Gt => 1
  end.

(** [x.BitLen()]: the length of the absolute value of [x] in bits; 0 for 0. *)
Definition BitLen (x : Z) : Z :=
  if x =? 0 then 0 else Z.log2 (Z.abs x) + 1.

(** ** Package cmp: the concrete ordering and the two hints *)

(** [cmpInField] compares a and b in a finite field of the specified order. *)
Definition cmpInField (a b order : Z) : Z :=
  let biggestPositiveNum := Z.shiftr order 1 in
  if Cmp a biggestPositiveNum * Cmp b biggestPositiveNum =? -1
  then - Cmp a b
  else Cmp a b.

(** A hint function: field order, concrete inputs, the output slots as the
    runtime hands them over; it returns the output slots and an error. *)
Definition hint_function := Z -> list Z -> list Z -> go (list Z * error).

Definition minOutputHint : hint_function := fun fieldOrder inputs results =>
  a ← index inputs 0;
  b ← index inputs 1;
  results' ← (if cmpInField a b fieldOrder =? -1
              then set_at results 0 a
              else set_at results 0 b);
  Ok (results', None).

Definition isLessOutputHint : hint_function := fun fieldOrder inputs results =>
  a ← index inputs 0;
  b ← index inputs 1;
  results' ← (if cmpInField a b fieldOrder =? -1
              then set_at results 0 1
              else set_at results 0 0);
  Ok (results', None).

(** ** Package selector: the two hints *)

Definition muxIndicators : hint_function := fun _ inputs results =>
  sel ← index inputs 0;
  results' ← for_range 0 (length results)
                (fun i res =>
                   if Cmp sel (Z.of_nat i) =? 0 then set_at res i 1 else set_at res i 0)
                results;
  Ok (results', None).

Definition mapIndicators : hint_function := fun _ inputs results =>
  key ← index inputs (Z.of_nat (length inputs) - 1);
  results' ← for_range 0 (length results)
                (fun i res =>
                   inputs_i ← index inputs (Z.of_nat i);
                   if Cmp key inputs_i =? 0 then set_at res i 1 else set_at res i 0)
                results;
  Ok (results', None).

(** ** Circuit variables, constraints and the shared constraint system *)

(** [frontend.Variable] (written [csv] in the csgo sources): a symbolic
    field element.  Constants, wires (circuit inputs and hint outputs) and
    the results of the arithmetic of the constraint API. *)
Inductive csv : Type :=
| Const (c : Z)
| Wire (id : nat)
| VAdd (x y : csv)
| VSub (x y : csv)
| VMul (x y : csv)
| VSelect (cond x y : csv).

(** What an assertion leaves in the constraint system. *)
Inductive constraint : Type :=
| CEqual (x y : csv)
| CBoolean (x : csv)
| CBinary (nbDigits : Z) (x : csv).

(** A deferred hint computation: the registered function, its input
    variables and the wires that receive its outputs. *)
Record hint_call : Type := HintCall {
  hc_function : hint_function;
  hc_inputs : list csv;
  hc_outputs : list nat
}.

(** The shared constraint system; [hints] and [constraints] are kept
    newest first. *)
Record constraint_system : Type := ConstraintSystem {
  nb_wires : nat;
  hints : list hint_call;
  constraints : list constraint
}.

(** ** Stateful Go code: a result or a panic, each with the state reached *)

Inductive outcome (St A : Type) : Type :=
| Returned (a : A) (s : St)
| Panicked (msg : string) (s : St).
Arguments Returned {St A} a s.
Arguments Panicked {St A} msg s.

Definition M (St A : Type) : Type := St -> outcome St A.

#[global] Instance M_ret {St} : MRet (M St) := fun _ a s => Returned a s.
#[global] Instance M_bind {St} : MBind (M St) := fun _ _ f m s =>
  match m s with
  | Returned a s' => f a s'
  | Panicked msg s' => Panicked msg s'
  end.

Definition panic {St A} (msg : string) : M St A := fun s => Panicked msg s.

Definition final_state {St A} (o : outcome St A) : St :=
  match o with
  | Returned _ s => s
  | Panicked _ s => s
  end.

(** [l[i]] inside stateful code. *)
Definition at_index {St A} (l : list A) (i : Z) : M St A :=
  match index l i with
  | Ok x => mret x
  | Panic msg => panic msg
  end.

(** [for i := from; i < from + count; i++ { acc = body(i, acc) }]. *)
Fixpoint for_loop {St A : Type} (from count : nat) (body : nat -> A -> M St A) (acc : A)
  : M St A :=
  match count with
  | O => mret acc
  | S count' => acc' ← body from acc; for_loop (S from) count' body acc'
  end.

(** Circuit construction mutates only the constraint system. *)
Definition circuit : Type -> Type := M constraint_system.

(** ** The constraint API consumed by the gadgets *)

(** Modelled from the spec: [api.Add], [api.Sub] and [api.Mul] of package
    [transpiled/gnark/api], which is not part of the sources:
    [Add/Sub/Mul(Variable,Variable) -> Variable] (mod P). *)
Definition Add (x y : csv) : csv := VAdd x y.
Definition Sub (x y : csv) : csv := VSub x y.
Definition Mul (x y : csv) : csv := VMul x y.

Definition emit (c : constraint) : circuit unit := fun s =>
  Returned tt
    {| nb_wires := nb_wires s; hints := hints s; constraints := c :: constraints s |}.

(** Modelled from the spec: [api.AssertIsEqual] of the same package:
    [AssertIsEqual(Variable,Variable)] adds an equality constraint. *)
Definition AssertIsEqual (x y : csv) : circuit unit := emit (CEqual x y).

(** Modelled from the spec: [api.Api.Select] of the same package:
    [Select(cond,a,b) -> Variable] with [cond ∈ {0,1}]: the primitive
    constrains its condition to be boolean and yields [a] when it is 1 and
    [b] when it is 0. *)
Definition Select (cond a b : csv) : circuit csv :=
  _ ← emit (CBoolean cond); mret (VSelect cond a b).

(** Modelled from the spec: [api.Compiler().NewHint] of the same package:
    [NewHint(fn, numOutputs, inputVariables...) -> outputVariables[]]
    allocates fresh unconstrained wires whose values the function supplies
    during witness generation.  Every call site discards the error
    result. *)
Definition NewHint (f : hint_function) (nbOutputs : nat) (inputs : list csv)
  : circuit (list csv) := fun s =>
  let outs := seq (nb_wires s) nbOutputs in
  Returned (Wire <$> outs)
    {| nb_wires := nb_wires s + nbOutputs;
       hints := HintCall f inputs outs :: hints s;
       constraints := constraints s |}.

(** ** Package convert *)

(** [AssertBitLen] ensures that the binary representation of x has less
    than bitLen bits: [bits.ToBinary(api.Api, x, bits.WithNbDigits(bitLen))].
    The decomposition gadget [bits.ToBinary] is not part of the sources; its
    effect is recorded as one [CBinary] constraint. *)
Definition AssertBitLen (bitLen : Z) (x : csv) : circuit unit :=
  emit (CBinary bitLen x).

(** ** Go slices *)

(** A slice of variables as a function receives it: its elements
    [elems], the address [ptr] of the first of them, and its capacity
    [cap].  Element [i] lives at address [ptr + i]; the backing array has
    room for [cap] elements from [ptr] on.  Slices cut from one array
    overlap in their addresses. *)
Record slice : Type := Slice { ptr : nat; elems : list csv; cap : nat }.

(** The [nil] slice. *)
Definition nil_slice : slice := {| ptr := 0; elems := []; cap := 0 |}.

(** The slice of a variadic parameter [inputs ...frontend.Variable]. *)
Definition variadic (inputs : list csv) : slice :=
  {| ptr := 0; elems := inputs; cap := length inputs |}.

(** [append(s, x)]: the elements of the resulting slice and the address
    it writes in the backing array of [s].  With spare capacity [x] is
    stored right behind the last element of [s], in the array [s] shares
    with its caller; without, a new array is allocated and no memory that
    existed before changes. *)
Definition append (s : slice) (x : csv) : list csv * option nat :=
  (elems s ++ [x],
   if decide (length (elems s) < cap s)%nat
   then Some (ptr s + length (elems s))%nat
   else None).

(** The slice [s] as it reads once [x] is stored at the address
    [written]. *)
Definition after_write (written : option nat) (x : csv) (s : slice) : slice :=
  match written with
  | Some a =>
      if decide (ptr s <= a < ptr s + length (elems s))%nat
      then {| ptr := ptr s; elems := <[(a - ptr s)%nat := x]> (elems s); cap := cap s |}
      else s
  | None => s
  end.

(** ** Package selector *)

(** In map mode [append(keys, sel)] builds the inputs of the hint; the
    loop that follows reads [keys] and [values] from memory as the append
    left it. *)
Definition generateSelector (wantMux : bool) (sel : csv) (keys values : slice)
  : circuit (csv * list csv) :=
  let finish (keys values : slice) (indicators : list csv) : circuit (csv * list csv) :=
    '(indicatorsSum, out) ←
      for_loop 0 (length indicators)
        (fun i '(indicatorsSum, out) =>
           indicators_i ← at_index indicators (Z.of_nat i);
           _ ← (if wantMux
                then AssertIsEqual (Mul indicators_i (Sub sel (Const (Z.of_nat i)))) (Const 0)
                else keys_i ← at_index (elems keys) (Z.of_nat i);
                     AssertIsEqual (Mul indicators_i (Sub sel keys_i)) (Const 0));
           let indicatorsSum := Add indicatorsSum indicators_i in
           values_i ← at_index (elems values) (Z.of_nat i);
           let out := Add out (Mul indicators_i values_i) in
           mret (indicatorsSum, out))
        (Const 0, Const 0);
    _ ← AssertIsEqual indicatorsSum (Const 1);
    mret (out, indicators) in
  if wantMux then
    if decide (length (elems values) = 2%nat) then
      values_1 ← at_index (elems values) 1;
      values_0 ← at_index (elems values) 0;
      out ← Select sel values_1 values_0;
      mret (out, [])
    else
      indicators ← NewHint muxIndicators (length (elems values)) [sel];
      finish keys values indicators
  else
    let nbOutputs := length (elems keys) in
    let '(inputs, written) := append keys sel in
    let keys := after_write written sel keys in
    let values := after_write written sel values in
    indicators ← NewHint mapIndicators nbOutputs inputs;
    finish keys values indicators.

(** [Map] is a key value associative array. *)
Definition Map (queryKey : csv) (keys values : slice) : circuit (csv * list csv) :=
  if decide (length (elems keys) ≠ length (elems values))
  then panic "The number of keys and values must be equal"
  else generateSelector false queryKey keys values.

(** [Mux] is an n to 1 multiplexer: out = inputs[sel]. *)
Definition Mux (sel : csv) (inputs : list csv) : circuit (csv * list csv) :=
  generateSelector true sel nil_slice (variadic inputs).

(** ** Package cmp: the bounded comparator *)

Record BoundedComparator : Type := { absDiffUppBitLen : Z }.

(** [P] is [runtime.FieldOrder()]. *)
Definition NewBoundedComparator (P absDiffUpp : Z) (allowNonDeterminism : bool)
  : go BoundedComparator :=
  if negb (Cmp absDiffUpp 0 =? 1) || negb (Cmp absDiffUpp P =? -1) then
    Panic "absDiffUpp must be a positive number smaller than the field order"
  else
    let smallestNeg := P - absDiffUpp in
    let smallestNeg := smallestNeg - 1 in
    let absDiffUppBitLen := BitLen absDiffUpp in
    if BitLen smallestNeg <=? absDiffUppBitLen then
      Panic "cannot construct the comparator, the specified absDiffUpp is too high"
    else
      if negb allowNonDeterminism
         && (let temp := Z.shiftl 1 (absDiffUppBitLen + 1) in
             let temp := temp + 1 in
             Cmp P temp =? -1)
      then Panic "absDiffUpp must be smaller to ensure deterministic behaviour"
      else Ok {| absDiffUppBitLen := absDiffUppBitLen |}.

(** A method body runs on its copy of the receiver and on the shared
    constraint system. *)
Record frame : Type := Frame {
  receiver : BoundedComparator;
  system : constraint_system
}.

Definition method : Type -> Type := M frame.

(** The receiver [bc] as the method body sees it. *)
Definition bc : method BoundedComparator := fun fr => Returned (receiver fr) fr.

(** A call into the constraint API or another package from a method body. *)
Definition on_system {A} (c : circuit A) : method A := fun fr =>
  match c (system fr) with
  | Returned a s => Returned a {| receiver := receiver fr; system := s |}
  | Panicked msg s => Panicked msg {| receiver := receiver fr; system := s |}
  end.

Definition assertIsNonNegative (a : csv) : method unit :=
  self ← bc;
  on_system (AssertBitLen (absDiffUppBitLen self) a).

(** [AssertIsLessEq] defines a set of constraints that can be satisfied
    only if a <= b. *)
Definition AssertIsLessEq (a b : csv) : method unit :=
  assertIsNonNegative (Sub b a).

(** [AssertIsLess] defines a set of constraints that can be satisfied only
    if a < b. *)
Definition AssertIsLess (a b : csv) : method unit :=
  AssertIsLessEq a (Sub b (Const 1)).

(** [IsLess] returns 1 if a < b, and returns 0 if a >= b. *)
Definition IsLess (a b : csv) : method csv :=
  res ← on_system (NewHint isLessOutputHint 1 [a; b]);
  res_0 ← at_index res 0;
  '(temp, _) ← on_system (Mux res_0 [Sub a b; Sub (Sub b a) (Const 1)]);
  _ ← assertIsNonNegative temp;
  res_0' ← at_index res 0;
  mret res_0'.

(** [IsLessEq] returns 1 if a <= b, and returns 0 if a > b. *)
Definition IsLessEq (a b : csv) : method csv :=
  IsLess a (Add b (Const 1)).

(** [Min] returns the minimum of a and b. *)
Definition Min (a b : csv) : method csv :=
  res ← on_system (NewHint minOutputHint 1 [a; b]);
  min ← at_index res 0;
  let aDiff := Sub a min in
  let bDiff := Sub b min in
  _ ← on_system (AssertIsEqual (Mul aDiff bDiff) (Const 0));
  _ ← assertIsNonNegative (Add aDiff bDiff);
  mret min.

(** A method call [bc.m(...)] from the circuit: the comparator is passed
    by value, the constraint system is shared. *)
Definition call {A} (self : BoundedComparator) (m : method A) : circuit A := fun s =>
  match m {| receiver := self; system := s |} with
  | Returned a fr => Returned a (system fr)
  | Panicked msg fr => Panicked msg (system fr)
  end.

(** ** Witnesses: evaluation, satisfaction and the solver *)

(** A concrete assignment to the wires. *)
Definition witness : Type := nat -> Z.

Fixpoint eval (P : Z) (w : witness) (v : csv) : Z :=
  match v with
  | Const c => c mod P
  | Wire id => w id mod P
  | VAdd x y => (eval P w x + eval P w y) mod P
  | VSub x y => (eval P w x - eval P w y) mod P
  | VMul x y => (eval P w x * eval P w y) mod P
  | VSelect cond x y => if eval P w cond =? 1 then eval P w x else eval P w y
  end.

(** Modelled from the spec: the meaning of the assertions of the
    constraint system and of the bit-decomposition gadget, which are not
    part of the sources.  An equality constraint fails satisfiability when
    the witness violates it; a select condition is 0 or 1; a value that
    decomposes into [nbDigits] boolean digits lies in [0, 2^nbDigits). *)
Definition holds (P : Z) (w : witness) (c : constraint) : bool :=
  match c with
  | CEqual x y => eval P w x =? eval P w y
  | CBoolean x => (eval P w x =? 0) || (eval P w x =? 1)
  | CBinary nbDigits x => eval P w x <? 2 ^ nbDigits
  end.

Definition satisfies (P : Z) (w : witness) (cs : list constraint) : Prop :=
  Forall (fun c => holds P w c = true) cs.

(** The constraints a call added to the system. *)
Definition emitted (before after : constraint_system) : list constraint :=
  take (length (constraints after) - length (constraints before)) (constraints after).

Definition set_wire (w : witness) (id : nat) (v : Z) : witness :=
  fun j => if decide (j = id) then v else w j.

Fixpoint assign (w : witness) (outs : list nat) (vals : list Z) : witness :=
  match outs, vals with
  | o :: outs', v :: vals' => assign (set_wire w o v) outs' vals'
  | _, _ => w
  end.

(** Modelled from the spec: the witness-generation runtime, which is not
    part of the sources.  It evaluates each registered function on the
    concrete values of its inputs and the field order, and fills its
    output wires; a hint that fails aborts the solver. *)
Definition run_hint (P : Z) (w : witness) (h : hint_call) : go witness :=
  '(results, err) ← hc_function h P (eval P w <$> hc_inputs h)
                      (replicate (length (hc_outputs h)) 0);
  match err with
  | None => Ok (assign w (hc_outputs h) results)
  | Some msg => Panic msg
  end.

Fixpoint run_hints (P : Z) (w : witness) (hs : list hint_call) : go witness :=
  match hs with
  | [] => Ok w
  | h :: hs' => w' ← run_hint P w h; run_hints P w' hs'
  end.

(** The hints run in the order in which the circuit allocated them. *)
Definition solve (P : Z) (w : witness) (s : constraint_system) : go witness :=
  run_hints P w (reverse (hints s)).

(** The solver's witness is accepted when every constraint holds. *)
Definition proves (P : Z) (w : witness) (s : constraint_system) : bool :=
  match solve P w s with
  | Ok w' => forallb (holds P w') (constraints s)
  | Panic _ => false
  end.

(** ** Specification vocabulary *)

(** The canonical signed representative of a field element. *)
Definition signed (P v : Z) : Z :=
  if v <=? (P - 1) / 2 then v else v - P.

(** The comparison as the documentation words it: the raw comparison,
    inverted when exactly one of the operands exceeds [P >> 1]. *)
Definition cmpInField_documented (a b order : Z) : Z :=
  let half := Z.shiftr order 1 in
  if xorb (half <? a) (half <? b) then - Cmp a b else Cmp a b.

(** An empty system over [n] circuit inputs. *)
Definition fresh_system (n : nat) : constraint_system :=
  {| nb_wires := n; hints := []; constraints := [] |}.

(** Circuit inputs: wire [i] carries the [i]-th value. *)
Definition inputs_witness (vals : list Z) : witness :=
  fun i => default 0 (vals !! i).

(** The bounds the constructor documents as unusable. *)
Definition invalid_bound (P absDiffUpp : Z) (allowNonDeterminism : bool) : Prop :=
  absDiffUpp <= 0 \/
  P <= absDiffUpp \/
  BitLen (P - absDiffUpp - 1) <= BitLen absDiffUpp \/
  (allowNonDeterminism = false /\ P < 2 ^ (BitLen absDiffUpp + 1) + 1).

(** The value a hint stores for a comparison outcome. *)
Definition indicator (b : bool) : Z := if b then 1 else 0.

(** *** What the selector loop builds, in closed form *)

Definition nth_csv (l : list csv) (i : nat) : csv := default (Const 0) (l !! i).

Definition selector_key (wantMux : bool) (keys : list csv) (i : nat) : csv :=
  if wantMux then Const (Z.of_nat i) else nth_csv keys i.

Definition selector_constraint (wantMux : bool) (sel : csv) (indicators keys : list csv)
  (i : nat) : constraint :=
  CEqual (VMul (nth_csv indicators i) (VSub sel (selector_key wantMux keys i))) (Const 0).

Definition selector_sum (indicators : list csv) (sum : csv) (range : list nat) : csv :=
  foldl (fun acc i => VAdd acc (nth_csv indicators i)) sum range.

Definition selector_out (indicators values : list csv) (out : csv) (range : list nat) : csv :=
  foldl (fun acc i => VAdd acc (VMul (nth_csv indicators i) (nth_csv values i))) out range.

Definition add_constraints (cs : list constraint) (s : constraint_system) : constraint_system :=
  {| nb_wires := nb_wires s; hints := hints s; constraints := cs ++ constraints s |}.

(** Sum of [f] over a list of positions. *)
Definition Zsum (f : nat -> Z) (range : list nat) : Z :=
  foldr (fun i acc => f i + acc) 0 range.

(** The operands respect the bound the comparator was built for. *)
Definition within_bound (P absDiffUpp a b : Z) : Prop :=
  Z.abs (signed P a - signed P b) <= absDiffUpp.

(** Every wire of the variable was allocated before wire [n]. *)
Fixpoint scoped (n : nat) (v : csv) : Prop :=
  match v with
  | Const _ => True
  | Wire id => (id < n)%nat
  | VAdd x y | VSub x y | VMul x y => scoped n x /\ scoped n y
  | VSelect cond x y => scoped n cond /\ scoped n x /\ scoped n y
  end.

(** A method body that ends, by return or panic, with the receiver it
    started from. *)
Definition preserves_receiver {A} (m : method A) : Prop :=
  forall fr, receiver (final_state (m fr)) = receiver fr.

(** ** The constructor as the csgo source has it *)

(** [NewBoundedComparator] of [bounded.csgo], which has no
    [allowNonDeterminism] parameter; [P] is [runtime.FieldOrder()]. *)
Definition NewBoundedComparator_csgo (P absDiffUpp : Z) : go BoundedComparator :=
  if negb (Cmp absDiffUpp 0 =? 1) || negb (Cmp absDiffUpp P =? -1) then
    Panic "absDiffUpp must be a positive number smaller than the field order"
  else
    let smallestNeg := P - absDiffUpp in
    let smallestNeg := smallestNeg - 1 in
    if BitLen smallestNeg <=? BitLen absDiffUpp then
      Panic "cannot construct the comparator, the specified absDiffUpp is too high"
    else Ok {| absDiffUppBitLen := BitLen absDiffUpp |}.

(** [s'] is [s] with wires, hints and constraints added and nothing
    removed or changed. *)
Definition extends (s s' : constraint_system) : Prop :=
  (nb_wires s <= nb_wires s')%nat /\
  (exists hs, hints s' = hs ++ hints s) /\
  (exists cs, constraints s' = cs ++ constraints s).

(** Circuit code that, however it ends, has only added to the system. *)
Definition only_appends {A} (c : circuit A) : Prop :=
  forall s, extends s (final_state (c s)).

(** The solutions of the constraints a call emitted. *)
Definition solutions (P : Z) (before after : constraint_system) (w : witness) : Prop :=
  satisfies P w (emitted before after).

(** ** Slices that share memory *)

(** The slice expression [s[lo:hi]], for [lo <= hi <= len(s)]. *)
Definition subslice (s : slice) (lo hi : nat) : slice :=
  {| ptr := ptr s + lo; elems := take (hi - lo) (drop lo (elems s)); cap := cap s - lo |}.

(** The elements of [values] as the loop of [generateSelector] reads them
    in map mode, that is after [append(keys, sel)]. *)
Definition values_read (sel : csv) (keys values : slice) : list csv :=
  elems (after_write (snd (append keys sel)) sel values).

(** [keys] has spare capacity and its first spare slot is element [j] of
    [values]. *)
Definition overwrites (keys values : slice) (j : nat) : Prop :=
  (length (elems keys) < cap keys)%nat /\
  (ptr keys + length (elems keys) = ptr values + j)%nat /\
  (j < length (elems values))%nat.

(** [append(keys, _)] leaves every element of [values] as it is: [keys]
    is full, or its first spare slot lies outside [values]. *)
Definition separate (keys values : slice) : Prop :=
  (cap keys <= length (elems keys))%nat \/
  (ptr keys + length (elems keys) < ptr values)%nat \/
  (ptr values + length (elems values) <= ptr keys + length (elems keys))%nat.

(** * Properties *)

(** ** math/big *)

Lemma Cmp_values (x y : Z) : Cmp x y = -1 \/ Cmp x y = 0 \/ Cmp x y = 1.
Proof. unfold Cmp. destruct (x ?= y); auto. Qed.

Lemma Cmp_lt (x y : Z) : Cmp x y = -1 <-> x < y.
Proof. unfold Cmp. destruct (Z.compare_spec x y); split; intros; lia. Qed.

Lemma Cmp_eq (x y : Z) : Cmp x y = 0 <-> x = y.
Proof. unfold Cmp. destruct (Z.compare_spec x y); split; intros; lia. Qed.

Lemma Cmp_gt (x y : Z) : Cmp x y = 1 <-> y < x.
Proof. unfold Cmp. destruct (Z.compare_spec x y); split; intros; lia. Qed.

Lemma Cmp_antisym (x y : Z) : Cmp x y = - Cmp y x.
Proof.
  unfold Cmp. rewrite (Z.compare_antisym y x).
  destruct (y ?= x); reflexivity.
Qed.

Lemma Cmp_refl (x : Z) : Cmp x x = 0.
Proof. apply Cmp_eq. reflexivity. Qed.

(** Case analysis on a comparison, leaving the ordering fact in context. *)
Ltac cmp_cases x y :=
  let H := fresh "Hcmp" in
  destruct (Z.compare_spec x y) as [H|H|H];
  [ pose proof (proj2 (Cmp_eq x y) H)
  | pose proof (proj2 (Cmp_lt x y) H)
  | pose proof (proj2 (Cmp_gt x y) H) ].

Lemma BitLen_nonneg (x : Z) : 0 <= BitLen x.
Proof.
  unfold BitLen. destruct (Z.eqb_spec x 0); [lia|].
  pose proof (Z.log2_nonneg (Z.abs x)). lia.
Qed.

Lemma BitLen_le_iff (x n : Z) : 0 <= x -> 0 <= n -> BitLen x <= n <-> x < 2 ^ n.
Proof.
  intros Hx Hn. unfold BitLen. destruct (Z.eqb_spec x 0) as [->|Hne].
  - split; intros _; [apply Z.pow_pos_nonneg; lia | lia].
  - rewrite Z.abs_eq by lia.
    rewrite (Z.log2_lt_pow2 x n) by lia. lia.
Qed.

Lemma BitLen_upper (x : Z) : 0 <= x -> x < 2 ^ BitLen x.
Proof.
  intros Hx. apply BitLen_le_iff; [lia | apply BitLen_nonneg | lia].
Qed.

Lemma BitLen_gt_iff (x n : Z) : 0 <= x -> 0 <= n -> n < BitLen x <-> 2 ^ n <= x.
Proof. intros Hx Hn. pose proof (BitLen_le_iff x n Hx Hn). lia. Qed.

(** ** cmpInField *)

Lemma cmpInField_antisym (a b order : Z) :
  cmpInField a b order = - cmpInField b a order.
Proof.
  unfold cmpInField. cbv zeta.
  rewrite (Z.mul_comm (Cmp b _)), (Cmp_antisym b a).
  destruct (_ =? -1); lia.
Qed.

Lemma cmpInField_refl (a order : Z) : cmpInField a a order = 0.
Proof.
  unfold cmpInField. cbv zeta. rewrite Cmp_refl.
  destruct (_ =? -1); reflexivity.
Qed.

(** C10: for every field order P > 0 and all a, b in [0, P),
    cmpInField(a, b, P) = -cmpInField(b, a, P) and
    cmpInField(a, a, P) = 0. *)
Theorem cmpInField_antisymmetric_reflexive (P a b : Z) :
  0 < P -> 0 <= a < P -> 0 <= b < P ->
  cmpInField a b P = - cmpInField b a P /\ cmpInField a a P = 0.
Proof.
  intros _ _ _. split; [apply cmpInField_antisym | apply cmpInField_refl].
Qed.

Lemma cmpInField_antisymmetric_reflexive_witness :
  (0 < 13 /\ 0 <= 5 < 13 /\ 0 <= 7 < 13) /\
  cmpInField 5 7 13 = - cmpInField 7 5 13 /\ cmpInField 5 5 13 = 0.
Proof.
  split; [lia|].
  apply (cmpInField_antisymmetric_reflexive 13 5 7); lia.
Defined.

Lemma cmpInField_values (a b order : Z) :
  cmpInField a b order = -1 \/ cmpInField a b order = 0 \/ cmpInField a b order = 1.
Proof.
  unfold cmpInField. cbv zeta.
  destruct (Cmp_values a b) as [H|[H|H]]; rewrite H; destruct (_ =? -1); auto.
Qed.

Lemma shiftr_1_half (P : Z) : Z.shiftr P 1 = P / 2.
Proof. rewrite Z.shiftr_div_pow2 by lia. reflexivity. Qed.

Lemma odd_half (P : Z) :
  Z.odd P = true -> 2 * (P / 2) + 1 = P /\ (P - 1) / 2 = P / 2.
Proof.
  intros Hodd. pose proof (Zmod_odd P) as Hm. rewrite Hodd in Hm.
  Z.div_mod_to_equations. lia.
Qed.

(** Away from the boundary value [P >> 1] itself the code is the signed
    comparison.  The only pairs it gets wrong are those where one operand
    is exactly [P >> 1] and the other one is negative. *)
Lemma cmpInField_signed (P a b : Z) :
  Z.odd P = true -> 0 <= a < P -> 0 <= b < P ->
  ~ (a = Z.shiftr P 1 /\ Z.shiftr P 1 < b) ->
  ~ (b = Z.shiftr P 1 /\ Z.shiftr P 1 < a) ->
  cmpInField a b P = Cmp (signed P a) (signed P b).
Proof.
  intros Hodd Ha Hb Hna Hnb.
  rewrite shiftr_1_half in Hna, Hnb.
  unfold cmpInField, signed. cbv zeta. rewrite shiftr_1_half.
  destruct (odd_half P Hodd) as [HP Hh]. rewrite Hh.
  cmp_cases a (P / 2); cmp_cases b (P / 2);
    repeat match goal with H : Cmp _ _ = _ |- _ => rewrite H; clear H end;
    match goal with
    | |- context [?x * ?y =? -1] =>
        let v := eval vm_compute in (x * y =? -1) in
        change (x * y =? -1) with v; cbv iota
    end;
    repeat match goal with
           | |- context [?x <=? ?y] => destruct (Z.leb_spec x y); try lia
           end;
    try reflexivity.
  all: unfold Cmp;
    repeat match goal with
           | |- context [?x ?= ?y] => destruct (Z.compare_spec x y)
           end; lia.
Qed.

Lemma cmpInField_signed_witness :
  cmpInField 5 7 13 = Cmp (signed 13 5) (signed 13 7).
Proof. apply cmpInField_signed; first [reflexivity | lia | change (Z.shiftr 13 1) with 6; lia]. Defined.

(** On the same pairs the code and the documented rule agree. *)
Lemma cmpInField_documented_agrees (P a b : Z) :
  a <> Z.shiftr P 1 -> b <> Z.shiftr P 1 ->
  cmpInField a b P = cmpInField_documented a b P.
Proof.
  intros Ha Hb. unfold cmpInField, cmpInField_documented. cbv zeta.
  cmp_cases a (Z.shiftr P 1); cmp_cases b (Z.shiftr P 1); try lia;
    repeat match goal with H : Cmp _ (Z.shiftr _ _) = _ |- _ => rewrite H; clear H end;
    repeat match goal with
           | |- context [?x <? ?y] => destruct (Z.ltb_spec x y); try lia
           end; reflexivity.
Qed.

(** C2: at P = 13 the operands 6 and 7 are raw representatives in [0, P),
    exactly one of them (7) exceeds P >> 1 = 6, the signed representatives
    are 6 and -6, and yet cmpInField answers the raw comparison -1 where
    both the documented rule and the signed comparison give 1. *)
Theorem cmpInField_at_biggest_positive :
  (0 <= 6 < 13 /\ 0 <= 7 < 13) /\
  Z.shiftr 13 1 = 6 /\
  signed 13 6 = 6 /\ signed 13 7 = -6 /\
  cmpInField 6 7 13 = -1 /\
  cmpInField 6 7 13 = Cmp 6 7 /\
  cmpInField_documented 6 7 13 = 1 /\
  Cmp (signed 13 6) (signed 13 7) = 1.
Proof. repeat split; lia || reflexivity. Qed.

(** The same happens in every odd field: the biggest positive number is
    ordered below every negative number. *)
Lemma cmpInField_half_below_negatives (P b : Z) :
  Z.odd P = true -> Z.shiftr P 1 < b < P ->
  cmpInField (Z.shiftr P 1) b P = -1 /\
  Cmp (signed P (Z.shiftr P 1)) (signed P b) = 1.
Proof.
  intros Hodd Hb. rewrite shiftr_1_half in *.
  destruct (odd_half P Hodd) as [HP Hh].
  split.
  - unfold cmpInField. cbv zeta. rewrite shiftr_1_half, Cmp_refl. cbn.
    apply Cmp_lt. lia.
  - unfold signed. rewrite Hh.
    destruct (Z.leb_spec (P / 2) (P / 2)); [|lia].
    destruct (Z.leb_spec b (P / 2)); [lia|].
    apply Cmp_gt. lia.
Qed.

Lemma cmpInField_half_below_negatives_witness :
  cmpInField (Z.shiftr 13 1) 7 13 = -1 /\
  Cmp (signed 13 (Z.shiftr 13 1)) (signed 13 7) = 1.
Proof. apply cmpInField_half_below_negatives; first [reflexivity | lia | change (Z.shiftr 13 1) with 6; lia]. Defined.

(** The order the code computes is not transitive. *)
Lemma cmpInField_cycle :
  cmpInField 6 7 13 = -1 /\ cmpInField 7 0 13 = -1 /\ cmpInField 0 6 13 = -1.
Proof. repeat split. Qed.

(** ** NewBoundedComparator *)

Lemma NewBoundedComparator_unfold (P absDiffUpp : Z) (allowNonDeterminism : bool) :
  NewBoundedComparator P absDiffUpp allowNonDeterminism =
  if decide (absDiffUpp <= 0 \/ P <= absDiffUpp) then
    Panic "absDiffUpp must be a positive number smaller than the field order"
  else if decide (BitLen (P - absDiffUpp - 1) <= BitLen absDiffUpp) then
    Panic "cannot construct the comparator, the specified absDiffUpp is too high"
  else if decide (allowNonDeterminism = false /\ P < 2 ^ (BitLen absDiffUpp + 1) + 1) then
    Panic "absDiffUpp must be smaller to ensure deterministic behaviour"
  else Ok {| absDiffUppBitLen := BitLen absDiffUpp |}.
Proof.
  unfold NewBoundedComparator. cbv zeta.
  pose proof (BitLen_nonneg absDiffUpp) as HL.
  rewrite Z.shiftl_1_l.
  cmp_cases absDiffUpp 0; cmp_cases absDiffUpp P;
    repeat match goal with H : Cmp _ _ = _ |- _ => rewrite H; clear H end;
    cbn [Z.eqb Pos.eqb negb orb];
    destruct (decide (absDiffUpp <= 0 \/ P <= absDiffUpp)); try lia; try reflexivity.
  destruct (Z.leb_spec (BitLen (P - absDiffUpp - 1)) (BitLen absDiffUpp));
    destruct (decide (BitLen (P - absDiffUpp - 1) <= BitLen absDiffUpp)); try lia;
    try reflexivity.
  destruct allowNonDeterminism; cbn [negb andb].
  - destruct (decide _) as [[? _]|_]; [discriminate | reflexivity].
  - cmp_cases P (2 ^ (BitLen absDiffUpp + 1) + 1);
      match goal with H : Cmp _ _ = _ |- _ => rewrite H; clear H end;
      cbn [Z.eqb Pos.eqb];
      destruct (decide _) as [[_ ?]|Hn]; try lia; try reflexivity.
Qed.

(** C4: NewBoundedComparator(absDiffUpp, allowNonDeterminism) panics
    exactly when absDiffUpp <= 0, or absDiffUpp >= P, or
    bitlength(P - absDiffUpp - 1) <= bitlength(absDiffUpp), or, only when
    allowNonDeterminism is false, P < 2^(bitlength(absDiffUpp)+1) + 1; in
    every other case it returns a comparator with
    absDiffUppBitLen = bitlength(absDiffUpp). *)
Theorem NewBoundedComparator_fails_exactly (P absDiffUpp : Z) (allowNonDeterminism : bool) :
  ((exists msg, NewBoundedComparator P absDiffUpp allowNonDeterminism = Panic msg)
   <-> invalid_bound P absDiffUpp allowNonDeterminism) /\
  (NewBoundedComparator P absDiffUpp allowNonDeterminism
     = Ok {| absDiffUppBitLen := BitLen absDiffUpp |}
   <-> ~ invalid_bound P absDiffUpp allowNonDeterminism).
Proof.
  rewrite NewBoundedComparator_unfold. unfold invalid_bound.
  repeat destruct (decide _); split; split;
    try (intros [? ?]); try discriminate; try tauto; try lia; eauto.
Qed.

(** ** The hint functions *)

Lemma for_range_ext {St : Type} (body1 body2 : nat -> St -> go St) (from count : nat) (s : St) :
  (forall i s', (from <= i < from + count)%nat -> body1 i s' = body2 i s') ->
  for_range from count body1 s = for_range from count body2 s.
Proof.
  revert from s. induction count as [|count IH]; intros from s Hext; [reflexivity|].
  cbn. rewrite Hext by lia. destruct (body2 from s); [|reflexivity].
  apply IH. intros i s' Hi. apply Hext. lia.
Qed.

(** A loop that overwrites slot [i] with [f i] for every [i] of a range
    leaves exactly the values of [f] there and nothing else changed. *)
Lemma for_range_set_at (f : nat -> Z) (from count : nat) (res : list Z) :
  (from + count <= length res)%nat ->
  for_range from count (fun i r => set_at r i (f i)) res
  = Ok (take from res ++ (f <$> seq from count) ++ drop (from + count) res).
Proof.
  revert from res. induction count as [|count IH]; intros from res Hlen.
  - cbn. rewrite Nat.add_0_r, take_drop. reflexivity.
  - cbn [for_range]. unfold set_at at 1.
    destruct (decide (from < length res)%nat) as [Hlt|]; [|lia].
    rewrite IH by (rewrite length_insert; lia).
    f_equal.
    rewrite (take_S_r _ from (f from)) by (apply list_lookup_insert_eq; lia).
    rewrite take_insert_ge by lia.
    rewrite drop_insert_lt by lia.
    cbn [seq fmap list_fmap].
    rewrite <- app_assoc. cbn [app].
    replace (S from + count)%nat with (from + S count)%nat by lia.
    reflexivity.
Qed.

Lemma for_range_fill (f : nat -> Z) (res : list Z) :
  for_range 0 (length res) (fun i r => set_at r i (f i)) res
  = Ok (f <$> seq 0 (length res)).
Proof.
  rewrite for_range_set_at by lia.
  rewrite take_0, Nat.add_0_l, drop_all, app_nil_r. reflexivity.
Qed.

Lemma Cmp_eqb_0 (x y : Z) : (Cmp x y =? 0) = (x =? y).
Proof.
  cmp_cases x y; match goal with H : Cmp _ _ = _ |- _ => rewrite H end;
    destruct (Z.eqb_spec x y); try lia; reflexivity.
Qed.

Lemma index_lookup {A} (l : list A) (i : nat) (x : A) :
  l !! i = Some x -> index l (Z.of_nat i) = Ok x.
Proof.
  intros H. unfold index. destruct (Z.ltb_spec (Z.of_nat i) 0); [lia|].
  rewrite Nat2Z.id, H. reflexivity.
Qed.

Lemma index_last {A} (l : list A) (x : A) :
  index (l ++ [x]) (Z.of_nat (length (l ++ [x])) - 1) = Ok x.
Proof.
  rewrite length_app. cbn [length].
  replace (Z.of_nat (length l + 1) - 1) with (Z.of_nat (length l)) by lia.
  apply index_lookup. rewrite lookup_app_r by lia.
  rewrite Nat.sub_diag. reflexivity.
Qed.

(** The closed form of [muxIndicators]: slot [i] receives [sel == i]. *)
Lemma muxIndicators_eq (P sel : Z) (rest results : list Z) :
  muxIndicators P (sel :: rest) results
  = Ok ((fun i => indicator (sel =? Z.of_nat i)) <$> seq 0 (length results), None).
Proof.
  unfold muxIndicators.
  change (index (sel :: rest) 0) with (Ok sel). cbn [mbind go_bind].
  rewrite (for_range_ext _ (fun i r => set_at r i (indicator (sel =? Z.of_nat i)))).
  - rewrite for_range_fill. reflexivity.
  - intros i r _. rewrite Cmp_eqb_0. destruct (sel =? Z.of_nat i); reflexivity.
Qed.

(** The closed form of [mapIndicators]: slot [i] receives
    [inputs[i] == key], the key being the last input. *)
Lemma mapIndicators_eq (P key : Z) (keys results : list Z) :
  (length results <= length (keys ++ [key]))%nat ->
  mapIndicators P (keys ++ [key]) results
  = Ok ((fun i => indicator (key =? default 0 ((keys ++ [key]) !! i)))
          <$> seq 0 (length results), None).
Proof.
  intros Hlen. unfold mapIndicators.
  rewrite index_last. cbn [mbind go_bind].
  rewrite (for_range_ext _
             (fun i r => set_at r i (indicator (key =? default 0 ((keys ++ [key]) !! i))))).
  - rewrite for_range_fill. reflexivity.
  - intros i r Hi.
    destruct (lookup_lt_is_Some_2 (keys ++ [key]) i) as [x Hx]; [lia|].
    rewrite (index_lookup _ _ _ Hx), Hx.
    change (default 0 (Some x)) with x. cbn [mbind go_bind].
    rewrite Cmp_eqb_0. destruct (key =? x); reflexivity.
Qed.

Lemma lookup_fmap_seq_0 (f : nat -> Z) (n i : nat) :
  (i < n)%nat -> (f <$> seq 0 n) !! i = Some (f i).
Proof.
  intros Hi. rewrite list_lookup_fmap, lookup_seq_lt by lia. reflexivity.
Qed.




Lemma minOutputHint_eq (P a b r : Z) (rest : list Z) :
  minOutputHint P (a :: b :: rest) [r]
  = Ok ([if cmpInField a b P =? -1 then a else b], None).
Proof.
  unfold minOutputHint.
  change (index (a :: b :: rest) 0) with (Ok a).
  change (index (a :: b :: rest) 1) with (Ok b).
  cbn [mbind go_bind]. destruct (cmpInField a b P =? -1); reflexivity.
Qed.

Lemma isLessOutputHint_eq (P a b r : Z) (rest : list Z) :
  isLessOutputHint P (a :: b :: rest) [r]
  = Ok ([indicator (cmpInField a b P =? -1)], None).
Proof.
  unfold isLessOutputHint.
  change (index (a :: b :: rest) 0) with (Ok a).
  change (index (a :: b :: rest) 1) with (Ok b).
  cbn [mbind go_bind]. destruct (cmpInField a b P =? -1); reflexivity.
Qed.





(** ** The monad of stateful code *)

Lemma at_index_lookup {St A} (l : list A) (i : nat) (x : A) (s : St) :
  l !! i = Some x -> at_index l (Z.of_nat i) s = Returned x s.
Proof. intros H. unfold at_index. rewrite (index_lookup _ _ _ H). reflexivity. Qed.

Lemma nth_csv_lookup (l : list csv) (i : nat) :
  (i < length l)%nat -> l !! i = Some (nth_csv l i).
Proof.
  intros Hi. unfold nth_csv.
  destruct (lookup_lt_is_Some_2 l i Hi) as [x ->]. reflexivity.
Qed.

Lemma emitted_add_constraints (cs : list constraint) (s : constraint_system) :
  emitted s (add_constraints cs s) = cs.
Proof.
  unfold emitted, add_constraints. cbn [constraints].
  rewrite length_app.
  replace (length cs + length (constraints s) - length (constraints s))%nat
    with (length cs) by lia.
  apply take_app_length.
Qed.

Lemma emitted_app (cs : list constraint) (s s' : constraint_system) :
  constraints s' = cs ++ constraints s -> emitted s s' = cs.
Proof.
  intros H. unfold emitted. rewrite H, length_app.
  replace (length cs + length (constraints s) - length (constraints s))%nat
    with (length cs) by lia.
  apply take_app_length.
Qed.

(** ** generateSelector *)

(** The loop of [generateSelector] over a range in which every slice
    access is in bounds. *)
Lemma selector_loop (wantMux : bool) (sel : csv) (indicators keys values : list csv)
  (body : nat -> csv * csv -> circuit (csv * csv)) (from count : nat) (sum out : csv)
  (s : constraint_system) :
  body = (fun i '(indicatorsSum, out) =>
            indicators_i ← at_index indicators (Z.of_nat i);
            _ ← (if wantMux
                 then AssertIsEqual (Mul indicators_i (Sub sel (Const (Z.of_nat i)))) (Const 0)
                 else keys_i ← at_index keys (Z.of_nat i);
                      AssertIsEqual (Mul indicators_i (Sub sel keys_i)) (Const 0));
            let indicatorsSum := Add indicatorsSum indicators_i in
            values_i ← at_index values (Z.of_nat i);
            let out := Add out (Mul indicators_i values_i) in
            mret (indicatorsSum, out)) ->
  (from + count <= length indicators)%nat ->
  (wantMux = false -> from + count <= length keys)%nat ->
  (from + count <= length values)%nat ->
  for_loop from count body (sum, out) s
  = Returned (selector_sum indicators sum (seq from count),
              selector_out indicators values out (seq from count))
      (add_constraints
         (reverse (selector_constraint wantMux sel indicators keys <$> seq from count)) s).
Proof.
  intros Hbody. revert from sum out s.
  induction count as [|count IH]; intros from sum out s Hi Hk Hv.
  - destruct s. reflexivity.
  - cbn [for_loop]. unfold mbind at 1, M_bind.
    assert (Hstep : body from (sum, out) s
                    = Returned (VAdd sum (nth_csv indicators from),
                                VAdd out (VMul (nth_csv indicators from) (nth_csv values from)))
                        (add_constraints
                           [selector_constraint wantMux sel indicators keys from] s)).
    { assert (Hind := nth_csv_lookup indicators from ltac:(lia)).
      assert (Hval := nth_csv_lookup values from ltac:(lia)).
      rewrite Hbody. unfold mbind, M_bind.
      rewrite (at_index_lookup indicators from _ s Hind).
      destruct wantMux.
      - cbn. rewrite (at_index_lookup values from _ _ Hval). reflexivity.
      - specialize (Hk eq_refl).
        assert (Hkey := nth_csv_lookup keys from ltac:(lia)).
        rewrite (at_index_lookup keys from _ s Hkey).
        cbn. rewrite (at_index_lookup values from _ _ Hval). reflexivity. }
    rewrite Hstep.
    rewrite IH; [| lia | intros Hw; specialize (Hk Hw); lia | lia].
    f_equal. unfold add_constraints. cbn [nb_wires hints constraints seq fmap list_fmap].
    f_equal. rewrite reverse_cons, <- app_assoc. reflexivity.
Qed.

(** *** What the append changes *)

Lemma append_keeps_keys (sel : csv) (keys : slice) :
  elems (after_write (snd (append keys sel)) sel keys) = elems keys.
Proof.
  unfold append, after_write. cbn [snd].
  destruct (decide (length (elems keys) < cap keys)%nat); [|reflexivity].
  destruct (decide _) as [H|_]; [lia | reflexivity].
Qed.

Lemma values_read_length (sel : csv) (keys values : slice) :
  length (values_read sel keys values) = length (elems values).
Proof.
  unfold values_read, append, after_write. cbn [snd].
  destruct (decide (length (elems keys) < cap keys)%nat); [|reflexivity].
  destruct (decide _); [|reflexivity].
  cbn [elems]. apply length_insert.
Qed.

Lemma values_read_separate (sel : csv) (keys values : slice) :
  separate keys values -> values_read sel keys values = elems values.
Proof.
  unfold separate, values_read, append, after_write. cbn [snd]. intros H.
  destruct (decide (length (elems keys) < cap keys)%nat); [|reflexivity].
  destruct (decide _); [lia | reflexivity].
Qed.

Lemma values_read_overwrites (sel : csv) (keys values : slice) (j : nat) :
  overwrites keys values j -> values_read sel keys values = <[j := sel]> (elems values).
Proof.
  unfold overwrites, values_read, append, after_write. cbn [snd]. intros (Hcap & Haddr & Hj).
  destruct (decide (length (elems keys) < cap keys)%nat); [|lia].
  destruct (decide _); [|lia].
  cbn [elems]. f_equal. lia.
Qed.

Lemma separate_or_overwrites (keys values : slice) :
  separate keys values \/ exists j, overwrites keys values j.
Proof.
  unfold separate, overwrites.
  destruct (decide (cap keys <= length (elems keys))%nat); [auto|].
  destruct (decide (ptr keys + length (elems keys) < ptr values)%nat); [auto|].
  destruct (decide (ptr values + length (elems values)
                    <= ptr keys + length (elems keys))%nat); [auto|].
  right. exists (ptr keys + length (elems keys) - ptr values)%nat. lia.
Qed.

(** Every element of [values] but the overwritten one reads as the
    caller stored it. *)
Lemma values_read_lookup (sel : csv) (keys values : slice) (i : nat) :
  ~ overwrites keys values i ->
  values_read sel keys values !! i = elems values !! i.
Proof.
  intros Hnot. destruct (separate_or_overwrites keys values) as [Hsep|[j Hj]].
  - rewrite values_read_separate by exact Hsep. reflexivity.
  - rewrite (values_read_overwrites _ _ _ j Hj).
    apply list_lookup_insert_ne. intros ->. contradiction.
Qed.

Lemma nth_csv_values_read_kept (sel : csv) (keys values : slice) (k : nat) :
  ~ overwrites keys values k ->
  nth_csv (values_read sel keys values) k = nth_csv (elems values) k.
Proof.
  intros Hnot. unfold nth_csv. rewrite values_read_lookup by exact Hnot. reflexivity.
Qed.

Lemma nth_csv_values_read_overwritten (sel : csv) (keys values : slice) (k : nat) :
  overwrites keys values k ->
  nth_csv (values_read sel keys values) k = sel.
Proof.
  intros Hov. unfold nth_csv. rewrite (values_read_overwrites _ _ _ k Hov).
  rewrite list_lookup_insert_eq by (destruct Hov as (_ & _ & Hk); exact Hk).
  reflexivity.
Qed.

(** [generateSelector] outside the two-input multiplexer: one hint, one
    zero-product constraint per indicator, one sum constraint; in map
    mode the output is built from the values read after the append. *)
Lemma generateSelector_eq (wantMux : bool) (sel : csv) (keys values : slice)
  (s : constraint_system) :
  (wantMux = true -> length (elems values) <> 2%nat) ->
  (wantMux = false -> length (elems keys) <= length (elems values))%nat ->
  let n := if wantMux then length (elems values) else length (elems keys) in
  let read := if wantMux then elems values else values_read sel keys values in
  let indicators := Wire <$> seq (nb_wires s) n in
  generateSelector wantMux sel keys values s
  = Returned (selector_out indicators read (Const 0) (seq 0 n), indicators)
      {| nb_wires := nb_wires s + n;
         hints := HintCall (if wantMux then muxIndicators else mapIndicators)
                    (if wantMux then [sel] else elems keys ++ [sel])
                    (seq (nb_wires s) n) :: hints s;
         constraints :=
           CEqual (selector_sum indicators (Const 0) (seq 0 n)) (Const 1)
           :: reverse (selector_constraint wantMux sel indicators (elems keys) <$> seq 0 n)
           ++ constraints s |}.
Proof.
  intros Hmux Hmap n read indicators. unfold generateSelector.
  destruct wantMux.
  - destruct (decide (length (elems values) = 2%nat)) as [H2|_];
      [destruct (Hmux eq_refl H2)|].
    unfold mbind at 1, M_bind. unfold NewHint at 1. fold n. fold indicators.
    unfold mbind at 1, M_bind.
    erewrite (selector_loop true sel indicators (elems keys) (elems values));
      [|reflexivity|..];
      try (subst indicators; rewrite length_fmap, length_seq; subst n; lia);
      try discriminate; try (subst n; lia).
    subst indicators. rewrite length_fmap, length_seq. reflexivity.
  - cbv zeta. unfold append at 1.
    unfold mbind at 1, M_bind. unfold NewHint at 1. fold n. fold indicators.
    unfold mbind at 1, M_bind.
    erewrite (selector_loop false sel indicators
                (elems (after_write (snd (append keys sel)) sel keys))
                (values_read sel keys values));
      [|reflexivity|..];
      try rewrite append_keeps_keys; try rewrite values_read_length;
      try (subst indicators; rewrite length_fmap, length_seq;
           specialize (Hmap eq_refl); subst n; lia).
    subst indicators. rewrite length_fmap, length_seq. reflexivity.
Qed.

(** [Mux] with other than two inputs. *)
Lemma Mux_eq (sel : csv) (inputs : list csv) (s : constraint_system) :
  length inputs <> 2%nat ->
  let n := length inputs in
  let indicators := Wire <$> seq (nb_wires s) n in
  Mux sel inputs s
  = Returned (selector_out indicators inputs (Const 0) (seq 0 n), indicators)
      {| nb_wires := nb_wires s + n;
         hints := HintCall muxIndicators [sel] (seq (nb_wires s) n) :: hints s;
         constraints :=
           CEqual (selector_sum indicators (Const 0) (seq 0 n)) (Const 1)
           :: reverse (selector_constraint true sel indicators [] <$> seq 0 n)
           ++ constraints s |}.
Proof.
  intros H2 n indicators. unfold Mux.
  rewrite generateSelector_eq by (try discriminate; intros _; exact H2).
  reflexivity.
Qed.

(** [Map] with as many keys as values. *)
Lemma Map_eq (queryKey : csv) (keys values : slice) (s : constraint_system) :
  length (elems keys) = length (elems values) ->
  let n := length (elems keys) in
  let indicators := Wire <$> seq (nb_wires s) n in
  Map queryKey keys values s
  = Returned (selector_out indicators (values_read queryKey keys values) (Const 0) (seq 0 n),
              indicators)
      {| nb_wires := nb_wires s + n;
         hints := HintCall mapIndicators (elems keys ++ [queryKey])
                    (seq (nb_wires s) n) :: hints s;
         constraints :=
           CEqual (selector_sum indicators (Const 0) (seq 0 n)) (Const 1)
           :: reverse (selector_constraint false queryKey indicators (elems keys) <$> seq 0 n)
           ++ constraints s |}.
Proof.
  intros Hlen n indicators. unfold Map.
  destruct (decide (length (elems keys) <> length (elems values))); [contradiction|].
  rewrite generateSelector_eq by (try discriminate; intros _; lia).
  reflexivity.
Qed.

(** C5: Map with len(keys) <> len(values) panics at once, with the
    constraint system exactly as it found it (no hint allocated, no
    constraint emitted); with len(keys) = len(values) it returns. *)
Theorem Map_length_mismatch_panics (queryKey : csv) (keys values : slice)
  (s : constraint_system) :
  (length (elems keys) <> length (elems values) ->
   Map queryKey keys values s
   = Panicked "The number of keys and values must be equal" s) /\
  (length (elems keys) = length (elems values) ->
   exists out indicators s',
     Map queryKey keys values s = Returned (out, indicators) s').
Proof.
  unfold Map. split; intros H.
  - destruct (decide (length (elems keys) <> length (elems values)));
      [reflexivity | contradiction].
  - destruct (decide (length (elems keys) <> length (elems values))); [contradiction|].
    rewrite generateSelector_eq by (try discriminate; intros _; lia).
    eauto.
Qed.

Lemma Map_length_mismatch_panics_witness :
  let two := Slice 0 [Wire 1; Wire 2] 2 in
  let one := Slice 2 [Wire 3] 1 in
  let two' := Slice 2 [Wire 3; Wire 4] 2 in
  (length (elems two) <> length (elems one) /\
   Map (Wire 0) two one (fresh_system 4)
   = Panicked "The number of keys and values must be equal" (fresh_system 4)) /\
  (length (elems two) = length (elems two') /\
   exists out indicators s',
     Map (Wire 0) two two' (fresh_system 5) = Returned (out, indicators) s').
Proof.
  intros two one two'. split.
  - split; [cbn; lia|].
    apply (proj1 (Map_length_mismatch_panics (Wire 0) two one (fresh_system 4))).
    cbn. lia.
  - split; [reflexivity|].
    apply (proj2 (Map_length_mismatch_panics (Wire 0) two two' (fresh_system 5))).
    reflexivity.
Defined.

(** ** Evaluation in the field *)

Lemma prime_13 : Z.prime 13.
Proof.
  split; [lia|]. intros n Hn [z Hz].
  assert (Hcases : n = 2 \/ n = 3 \/ n = 4 \/ n = 5 \/ n = 6 \/ n = 7 \/ n = 8 \/
                   n = 9 \/ n = 10 \/ n = 11 \/ n = 12) by lia.
  repeat destruct Hcases as [->|Hcases]; try subst n; lia.
Qed.

Section Field.
Variable P : Z.
Variable w : witness.
Hypothesis P_pos : 0 < P.

Lemma eval_range (v : csv) : 0 <= eval P w v < P.
Proof.
  induction v; cbn [eval]; try (apply Z.mod_pos_bound; lia).
  destruct (_ =? 1); assumption.
Qed.

Lemma eval_mod (v : csv) : eval P w v mod P = eval P w v.
Proof. apply Z.mod_small, eval_range. Qed.

Lemma satisfies_cons (c : constraint) (cs : list constraint) :
  satisfies P w (c :: cs) <-> holds P w c = true /\ satisfies P w cs.
Proof. exact (Forall_cons (fun c => holds P w c = true) c cs). Qed.

Lemma satisfies_app (cs1 cs2 : list constraint) :
  satisfies P w (cs1 ++ cs2) <-> satisfies P w cs1 /\ satisfies P w cs2.
Proof. exact (Forall_app (fun c => holds P w c = true) cs1 cs2). Qed.

Lemma satisfies_nil : satisfies P w [].
Proof. constructor. Qed.

Lemma satisfies_rev_fmap_seq (f : nat -> constraint) (n : nat) :
  satisfies P w (reverse (f <$> seq 0 n))
  <-> forall i, (i < n)%nat -> holds P w (f i) = true.
Proof.
  unfold satisfies. rewrite Forall_reverse, Forall_fmap, Forall_seq. cbn.
  split; intros H i Hi; apply H; lia.
Qed.

Lemma satisfies_forallb (cs : list constraint) :
  satisfies P w cs <-> forallb (holds P w) cs = true.
Proof.
  unfold satisfies. rewrite forallb_forall, Forall_forall.
  split; intros H c Hc; apply H; apply list_elem_of_In; exact Hc.
Qed.

Lemma eval_foldl_VAdd (g : nat -> csv) (acc : csv) (range : list nat) :
  eval P w (foldl (fun acc i => VAdd acc (g i)) acc range)
  = (eval P w acc + Zsum (fun i => eval P w (g i)) range) mod P.
Proof.
  revert acc. induction range as [|i range IH]; intros acc; cbn [foldl].
  - cbn. rewrite Z.add_0_r, eval_mod. reflexivity.
  - rewrite IH. cbn [eval Zsum foldr].
    rewrite Zplus_mod_idemp_l. f_equal. unfold Zsum. lia.
Qed.

Lemma eval_selector_sum (indicators : list csv) (sum : csv) (range : list nat) :
  eval P w (selector_sum indicators sum range)
  = (eval P w sum + Zsum (fun i => eval P w (nth_csv indicators i)) range) mod P.
Proof. apply (eval_foldl_VAdd (fun i => nth_csv indicators i)). Qed.

Lemma eval_selector_out (indicators values : list csv) (out : csv) (range : list nat) :
  eval P w (selector_out indicators values out range)
  = (eval P w out
     + Zsum (fun i => eval P w (VMul (nth_csv indicators i) (nth_csv values i))) range)
      mod P.
Proof.
  apply (eval_foldl_VAdd (fun i => VMul (nth_csv indicators i) (nth_csv values i))).
Qed.

Lemma Zsum_zero (f : nat -> Z) (range : list nat) :
  (forall i, i ∈ range -> f i = 0) -> Zsum f range = 0.
Proof.
  induction range as [|i range IH]; intros H; cbn; [reflexivity|].
  fold (Zsum f range). rewrite H by apply list_elem_of_here.
  rewrite IH; [reflexivity|]. intros j Hj. apply H, list_elem_of_further, Hj.
Qed.

(** A sum with a single non-zero position. *)
Lemma Zsum_one_hot (f : nat -> Z) (from count k : nat) :
  (from <= k < from + count)%nat ->
  (forall i, (from <= i < from + count)%nat -> i <> k -> f i = 0) ->
  Zsum f (seq from count) = f k.
Proof.
  revert from. induction count as [|count IH]; intros from Hk H; [lia|].
  cbn [seq Zsum foldr]. fold (Zsum f (seq (S from) count)).
  destruct (decide (from = k)) as [->|Hne].
  - rewrite Zsum_zero; [lia|].
    intros i Hi. apply elem_of_seq in Hi. apply H; lia.
  - rewrite H by lia. rewrite IH; [lia | lia |].
    intros i Hi. apply H. lia.
Qed.

Hypothesis P_prime : Z.prime P.

(** The field has no zero divisors. *)
Lemma field_zero_product (x d : Z) :
  0 <= x < P -> 0 <= d < P -> (x * d) mod P = 0 -> d <> 0 -> x = 0.
Proof.
  intros Hx Hd Hprod Hne.
  apply Z.mod_divide in Hprod; [|lia].
  apply Z.divide_prime_mul in Hprod; [|exact P_prime].
  destruct Hprod as [Hdiv|Hdiv].
  - destruct (Z.eq_dec x 0) as [|Hx0]; [assumption|].
    apply Z.divide_pos_le in Hdiv; lia.
  - apply Z.divide_pos_le in Hdiv; lia.
Qed.

Lemma field_sub_zero (x y : Z) :
  0 <= x < P -> 0 <= y < P -> (x - y) mod P = 0 <-> x = y.
Proof.
  intros Hx Hy. split; [|intros ->; rewrite Z.sub_diag; apply Z.mod_0_l; lia].
  intros H. apply Z.mod_divide in H; [|lia].
  destruct (Z.eq_dec x y) as [|Hne]; [assumption|].
  destruct H as [z Hz].
  assert (z = 0 \/ z <= -1 \/ 1 <= z) as [->|[Hz'|Hz']] by lia; nia.
Qed.

(** Zero-product constraints on every indicator but [k] and the sum
    constraint pin the indicator vector to the unit vector at [k]. *)
Lemma selector_one_hot (wantMux : bool) (sel : csv) (indicators keys values : list csv)
  (n k : nat) :
  (k < n)%nat ->
  (forall i, (i < n)%nat -> i <> k ->
             eval P w (selector_key wantMux keys i) <> eval P w sel) ->
  satisfies P w
    (CEqual (selector_sum indicators (Const 0) (seq 0 n)) (Const 1)
     :: reverse (selector_constraint wantMux sel indicators keys <$> seq 0 n)) ->
  eval P w (nth_csv indicators k) = 1 /\
  (forall j, (j < n)%nat -> j <> k -> eval P w (nth_csv indicators j) = 0) /\
  eval P w (selector_out indicators values (Const 0) (seq 0 n))
  = eval P w (nth_csv values k).
Proof.
  intros Hk Hdistinct Hsat.
  apply satisfies_cons in Hsat. destruct Hsat as [Hsum Hprod].
  rewrite satisfies_rev_fmap_seq in Hprod.
  assert (HP1 : 1 < P) by (destruct P_prime; lia).
  assert (Hzero : forall j, (j < n)%nat -> j <> k -> eval P w (nth_csv indicators j) = 0).
  { intros j Hj Hjk. specialize (Hprod j Hj).
    unfold selector_constraint in Hprod. cbn [holds eval] in Hprod.
    apply Z.eqb_eq in Hprod. rewrite (Z.mod_0_l P) in Hprod by lia.
    apply field_zero_product in Hprod; [exact Hprod | apply eval_range | |].
    - apply Z.mod_pos_bound. lia.
    - rewrite field_sub_zero by apply eval_range.
      intros Heq. apply (Hdistinct j Hj Hjk). symmetry. exact Heq. }
  assert (Hone : eval P w (nth_csv indicators k) = 1).
  { cbn [holds] in Hsum. apply Z.eqb_eq in Hsum.
    rewrite eval_selector_sum in Hsum. cbn [eval] in Hsum.
    rewrite (Zsum_one_hot _ 0 n k) in Hsum by (try lia; intros i Hi; apply Hzero; lia).
    rewrite (Z.mod_0_l P), Z.add_0_l, eval_mod, (Z.mod_small 1 P) in Hsum by lia.
    exact Hsum. }
  split; [exact Hone|]. split; [exact Hzero|].
  rewrite eval_selector_out. cbn [eval].
  rewrite (Zsum_one_hot _ 0 n k); [| lia |].
  - rewrite Hone, Z.mul_1_l, eval_mod, (Z.mod_0_l P), Z.add_0_l, eval_mod by lia.
    reflexivity.
  - intros i Hi Hik. rewrite (Hzero i) by lia. rewrite Z.mul_0_l. apply Z.mod_0_l. lia.
Qed.

End Field.

(** ** Map and Mux *)

Lemma lookup_nth_csv (l : list csv) (i : nat) (x : csv) :
  l !! i = Some x -> x = nth_csv l i /\ (i < length l)%nat.
Proof.
  intros H. split; [unfold nth_csv; rewrite H; reflexivity|].
  apply lookup_lt_Some in H. exact H.
Qed.

(** C3: with pairwise distinct keys and queryKey = keys[k], every
    assignment satisfying the constraints Map emits has indicator[k] = 1,
    indicator[j] = 0 for all other j, and out = values[k], provided
    values[k] is not the slot that append(keys, queryKey) overwrites; the
    same holds for Mux with at least three inputs and sel = k in [0, n),
    the indices being distinct field elements (n <= P). *)
Theorem selector_pins_one_indicator (P : Z) (w : witness) (sel : csv)
  (keys values : slice) (inputs : list csv) (k : nat) (s : constraint_system) :
  Z.prime P ->
  (forall keys_k,
      length (elems keys) = length (elems values) ->
      elems keys !! k = Some keys_k ->
      eval P w sel = eval P w keys_k ->
      (forall i j keys_i keys_j,
          elems keys !! i = Some keys_i -> elems keys !! j = Some keys_j -> i <> j ->
          eval P w keys_i <> eval P w keys_j) ->
      exists out indicators s',
        Map sel keys values s = Returned (out, indicators) s' /\
        length indicators = length (elems keys) /\
        (satisfies P w (emitted s s') ->
         (forall j ind, indicators !! j = Some ind ->
                        eval P w ind = if decide (j = k) then 1 else 0) /\
         (forall values_k, ~ overwrites keys values k ->
                           elems values !! k = Some values_k ->
                           eval P w out = eval P w values_k))) /\
  ((3 <= length inputs)%nat ->
   Z.of_nat (length inputs) <= P ->
   (k < length inputs)%nat ->
   eval P w sel = Z.of_nat k ->
   exists out indicators s',
     Mux sel inputs s = Returned (out, indicators) s' /\
     length indicators = length inputs /\
     (satisfies P w (emitted s s') ->
      (forall j ind, indicators !! j = Some ind ->
                     eval P w ind = if decide (j = k) then 1 else 0) /\
      (forall inputs_k, inputs !! k = Some inputs_k ->
                        eval P w out = eval P w inputs_k))).
Proof.
  intros HP. assert (P_pos : 0 < P) by (destruct HP; lia).
  split.
  - intros keys_k Hlen Hk Hsel Hdistinct.
    destruct (lookup_nth_csv _ _ _ Hk) as [-> Hkn].
    rewrite Map_eq by exact Hlen.
    do 3 eexists. split; [reflexivity|].
    split; [rewrite length_fmap, length_seq; reflexivity|].
    erewrite emitted_app by (cbn [constraints]; rewrite app_comm_cons; reflexivity).
    intros Hsat.
    apply (selector_one_hot P w P_pos HP false sel _ (elems keys)
             (values_read sel keys values) (length (elems keys)) k Hkn) in Hsat.
    + destruct Hsat as (Hone & Hzero & Hout). split.
      * intros j ind Hj. destruct (lookup_nth_csv _ _ _ Hj) as [-> Hjn].
        rewrite length_fmap, length_seq in Hjn.
        destruct (decide (j = k)) as [->|Hne]; [exact Hone | apply Hzero; assumption].
      * intros values_k Hnot Hv.
        rewrite <- (values_read_lookup sel keys values k Hnot) in Hv.
        destruct (lookup_nth_csv _ _ _ Hv) as [-> _]. exact Hout.
    + intros i Hi Hik. cbn [selector_key]. rewrite Hsel.
      apply (Hdistinct i k); [apply nth_csv_lookup; lia | apply nth_csv_lookup; lia | exact Hik].
  - intros H3 HnP Hkn Hsel.
    rewrite Mux_eq by lia.
    do 3 eexists. split; [reflexivity|].
    split; [rewrite length_fmap, length_seq; reflexivity|].
    erewrite emitted_app by (cbn [constraints]; rewrite app_comm_cons; reflexivity).
    intros Hsat.
    apply (selector_one_hot P w P_pos HP true sel _ [] inputs (length inputs) k Hkn)
      in Hsat.
    + destruct Hsat as (Hone & Hzero & Hout). split.
      * intros j ind Hj. destruct (lookup_nth_csv _ _ _ Hj) as [-> Hjn].
        rewrite length_fmap, length_seq in Hjn.
        destruct (decide (j = k)) as [->|Hne]; [exact Hone | apply Hzero; assumption].
      * intros inputs_k Hv. destruct (lookup_nth_csv _ _ _ Hv) as [-> _]. exact Hout.
    + intros i Hi Hik. cbn [selector_key eval]. rewrite Hsel.
      rewrite Z.mod_small by lia. lia.
Qed.

(** The keys and the values are the two halves of one array, so that the
    append overwrites values[0]; the assignment sets the indicators to
    the unit vector at k = 1 and satisfies the constraints of both
    circuits. *)
Lemma selector_pins_one_indicator_witness :
  let w := inputs_witness [1; 3; 1; 9; 30; 70; 90; 0; 1; 0] in
  let all := Slice 0 [Wire 1; Wire 2; Wire 3; Wire 4; Wire 5; Wire 6] 6 in
  let keys := subslice all 0 3 in
  let values := subslice all 3 6 in
  let inputs := [Wire 4; Wire 5; Wire 6] in
  Z.prime 13 /\
  (exists out indicators s',
      Map (Wire 0) keys values (fresh_system 7) = Returned (out, indicators) s' /\
      length indicators = length (elems keys) /\
      satisfies 13 w (emitted (fresh_system 7) s') /\
      (forall j ind, indicators !! j = Some ind ->
                     eval 13 w ind = if decide (j = 1%nat) then 1 else 0) /\
      ~ overwrites keys values 1 /\
      elems values !! 1%nat = Some (Wire 5) /\
      eval 13 w out = eval 13 w (Wire 5)) /\
  (exists out indicators s',
      Mux (Wire 0) inputs (fresh_system 7) = Returned (out, indicators) s' /\
      length indicators = length inputs /\
      satisfies 13 w (emitted (fresh_system 7) s') /\
      (forall j ind, indicators !! j = Some ind ->
                     eval 13 w ind = if decide (j = 1%nat) then 1 else 0) /\
      inputs !! 1%nat = Some (Wire 5) /\
      eval 13 w out = eval 13 w (Wire 5)).
Proof.
  intros w all keys values inputs. split; [exact prime_13|].
  destruct (selector_pins_one_indicator 13 w (Wire 0) keys values inputs 1 (fresh_system 7)
              prime_13) as [HMap HMux].
  assert (Hnot : ~ overwrites keys values 1).
  { unfold overwrites. cbn. lia. }
  split.
  - destruct (HMap (Wire 2)) as (out & indicators & s' & Hrun & Hlen & Hpinned);
      try reflexivity.
    { intros i j keys_i keys_j Hi Hj Hij.
      destruct i as [|[|[|i]]]; destruct j as [|[|[|j]]];
        cbn in Hi, Hj; try discriminate; try congruence;
        injection Hi as <-; injection Hj as <-; vm_compute; discriminate. }
    assert (Hsat : satisfies 13 w (emitted (fresh_system 7) s')).
    { vm_compute in Hrun. injection Hrun as _ _ <-.
      apply satisfies_forallb. reflexivity. }
    destruct (Hpinned Hsat) as [Hind Hout].
    exists out, indicators, s'.
    split; [exact Hrun|]. split; [exact Hlen|]. split; [exact Hsat|].
    split; [exact Hind|]. split; [exact Hnot|]. split; [reflexivity|].
    apply Hout; [exact Hnot | reflexivity].
  - destruct HMux as (out & indicators & s' & Hrun & Hlen & Hpinned);
      try reflexivity; try (cbn; lia).
    assert (Hsat : satisfies 13 w (emitted (fresh_system 7) s')).
    { vm_compute in Hrun. injection Hrun as _ _ <-.
      apply satisfies_forallb. reflexivity. }
    destruct (Hpinned Hsat) as [Hind Hout].
    exists out, indicators, s'.
    split; [exact Hrun|]. split; [exact Hlen|]. split; [exact Hsat|].
    split; [exact Hind|]. split; [reflexivity|].
    apply Hout. reflexivity.
Defined.

(** With exactly two inputs the multiplexer is one Select primitive and no
    indicators. *)
Lemma Mux_two_inputs (sel input_0 input_1 : csv) (s : constraint_system) :
  Mux sel [input_0; input_1] s
  = Returned (VSelect sel input_1 input_0, []) (add_constraints [CBoolean sel] s).
Proof. reflexivity. Qed.

(** For sel in {0,1} the Select constraint holds and the output is the
    selected input. *)
Lemma Mux_two_inputs_selects (P : Z) (w : witness) (sel input_0 input_1 : csv) :
  1 < P ->
  eval P w sel = 0 \/ eval P w sel = 1 ->
  satisfies P w [CBoolean sel] /\
  eval P w (VSelect sel input_1 input_0)
  = eval P w (if eval P w sel =? 0 then input_0 else input_1).
Proof.
  intros HP [H|H]; (split; [repeat constructor; cbn; rewrite H; reflexivity|]);
    cbn [eval]; rewrite H; reflexivity.
Qed.

Lemma Mux_two_inputs_selects_witness :
  1 < 13 /\
  (eval 13 (inputs_witness [1; 10; 20]) (Wire 0) = 0 \/
   eval 13 (inputs_witness [1; 10; 20]) (Wire 0) = 1) /\
  satisfies 13 (inputs_witness [1; 10; 20]) [CBoolean (Wire 0)] /\
  eval 13 (inputs_witness [1; 10; 20]) (VSelect (Wire 0) (Wire 2) (Wire 1)) = 7.
Proof.
  split; [lia|]. split; [right; reflexivity|].
  apply (Mux_two_inputs_selects 13 (inputs_witness [1; 10; 20]) (Wire 0) (Wire 1) (Wire 2));
    [lia | right; reflexivity].
Defined.

(** Without inputs there is nothing to indicate either. *)
Lemma Mux_no_inputs (sel : csv) (s : constraint_system) :
  exists out s', Mux sel [] s = Returned (out, []) s'.
Proof. do 2 eexists. reflexivity. Qed.

(** A single input takes the general path: one hint output is allocated
    and handed back as the indicator vector. *)
Lemma Mux_one_input (sel input_0 : csv) (s : constraint_system) :
  Mux sel [input_0] s
  = Returned (VAdd (Const 0) (VMul (Wire (nb_wires s)) input_0), [Wire (nb_wires s)])
      {| nb_wires := nb_wires s + 1;
         hints := HintCall muxIndicators [sel] [nb_wires s] :: hints s;
         constraints :=
           [CEqual (VAdd (Const 0) (Wire (nb_wires s))) (Const 1);
            CEqual (VMul (Wire (nb_wires s)) (VSub sel (Const 0))) (Const 0)]
           ++ constraints s |}.
Proof. reflexivity. Qed.

(** C6: Mux with a single input (selector on wire 0, input on wire 1)
    returns a one-element indicator slice, the hint wire 2, not nil. *)
Theorem Mux_one_input_returns_indicator :
  exists out s',
    Mux (Wire 0) [Wire 1] (fresh_system 2) = Returned (out, [Wire 2]) s' /\
    hints s' = [HintCall muxIndicators [Wire 0] [2%nat]] /\
    length (constraints s') = 2%nat.
Proof. do 2 eexists. split; [reflexivity|]. split; reflexivity. Qed.

(** ** The comparator never writes to its receiver *)

Lemma preserves_mret {A} (a : A) : preserves_receiver (mret a).
Proof. intros fr. reflexivity. Qed.

Lemma preserves_bc : preserves_receiver bc.
Proof. intros fr. reflexivity. Qed.

Lemma preserves_at_index {A} (l : list A) (i : Z) : preserves_receiver (at_index l i).
Proof. intros fr. unfold at_index. destruct (index l i); reflexivity. Qed.

Lemma preserves_on_system {A} (c : circuit A) : preserves_receiver (on_system c).
Proof. intros fr. unfold on_system. destruct (c (system fr)); reflexivity. Qed.

Lemma preserves_bind {A B} (m : method A) (f : A -> method B) :
  preserves_receiver m -> (forall a, preserves_receiver (f a)) ->
  preserves_receiver (m ≫= f).
Proof.
  intros Hm Hf fr. unfold mbind, M_bind. specialize (Hm fr).
  destruct (m fr) as [a fr'|msg fr']; cbn [final_state] in *.
  - rewrite (Hf a fr'). exact Hm.
  - exact Hm.
Qed.

Create HintDb receiver.
#[local] Hint Resolve preserves_mret preserves_bc preserves_at_index preserves_on_system
  preserves_bind : receiver.

Ltac preserves :=
  repeat first
    [ apply preserves_bind
    | apply preserves_on_system
    | apply preserves_at_index
    | apply preserves_bc
    | apply preserves_mret
    | match goal with
      | |- forall _ : _ * _, _ => intros [? ?]
      | |- forall _, _ => intro
      end ].

Lemma preserves_assertIsNonNegative (a : csv) : preserves_receiver (assertIsNonNegative a).
Proof. unfold assertIsNonNegative. preserves. Qed.

Lemma preserves_AssertIsLessEq (a b : csv) : preserves_receiver (AssertIsLessEq a b).
Proof. apply preserves_assertIsNonNegative. Qed.

Lemma preserves_AssertIsLess (a b : csv) : preserves_receiver (AssertIsLess a b).
Proof. apply preserves_AssertIsLessEq. Qed.

Lemma preserves_IsLess (a b : csv) : preserves_receiver (IsLess a b).
Proof.
  unfold IsLess. preserves; auto using preserves_assertIsNonNegative with receiver.
Qed.

Lemma preserves_IsLessEq (a b : csv) : preserves_receiver (IsLessEq a b).
Proof. apply preserves_IsLess. Qed.

Lemma preserves_Min (a b : csv) : preserves_receiver (Min a b).
Proof.
  unfold Min. preserves; auto using preserves_assertIsNonNegative with receiver.
Qed.

Lemma NewBoundedComparator_Ok (P absDiffUpp : Z) (allowNonDeterminism : bool)
  (cmp : BoundedComparator) :
  NewBoundedComparator P absDiffUpp allowNonDeterminism = Ok cmp ->
  cmp = {| absDiffUppBitLen := BitLen absDiffUpp |} /\
  0 < absDiffUpp < P /\
  2 ^ BitLen absDiffUpp <= P - absDiffUpp - 1.
Proof.
  rewrite NewBoundedComparator_unfold.
  repeat destruct (decide _); try discriminate.
  intros [= <-]. split; [reflexivity|]. split; [lia|].
  apply BitLen_gt_iff; [lia | apply BitLen_nonneg | lia].
Qed.

(** C9: the comparator's only field is bitlength(absDiffUpp) when the
    constructor returns, and each operation, however it ends, leaves the
    receiver it ran on unchanged; only the constraint system component of
    the state can differ. *)
Theorem BoundedComparator_is_immutable (P absDiffUpp : Z) (allowNonDeterminism : bool)
  (a b : csv) (fr : frame) :
  (forall cmp, NewBoundedComparator P absDiffUpp allowNonDeterminism = Ok cmp ->
               absDiffUppBitLen cmp = BitLen absDiffUpp) /\
  receiver (final_state (assertIsNonNegative a fr)) = receiver fr /\
  receiver (final_state (AssertIsLessEq a b fr)) = receiver fr /\
  receiver (final_state (AssertIsLess a b fr)) = receiver fr /\
  receiver (final_state (IsLess a b fr)) = receiver fr /\
  receiver (final_state (IsLessEq a b fr)) = receiver fr /\
  receiver (final_state (Min a b fr)) = receiver fr.
Proof.
  split.
  - intros cmp Hcmp. apply NewBoundedComparator_Ok in Hcmp.
    destruct Hcmp as [-> _]. reflexivity.
  - split; [apply preserves_assertIsNonNegative|].
    split; [apply preserves_AssertIsLessEq|].
    split; [apply preserves_AssertIsLess|].
    split; [apply preserves_IsLess|].
    split; [apply preserves_IsLessEq | apply preserves_Min].
Qed.

Lemma BoundedComparator_is_immutable_witness :
  NewBoundedComparator 13 2 false = Ok {| absDiffUppBitLen := 2 |} /\
  absDiffUppBitLen {| absDiffUppBitLen := 2 |} = BitLen 2 /\
  receiver (final_state
              (IsLess (Wire 0) (Wire 1)
                 {| receiver := {| absDiffUppBitLen := 2 |}; system := fresh_system 2 |}))
  = {| absDiffUppBitLen := 2 |}.
Proof.
  split; [reflexivity|].
  destruct (BoundedComparator_is_immutable 13 2 false (Wire 0) (Wire 1)
              {| receiver := {| absDiffUppBitLen := 2 |}; system := fresh_system 2 |})
    as (Hnew & _ & _ & _ & Hless & _).
  split; [apply Hnew; reflexivity | exact Hless].
Defined.

(** ** The comparator's constraints *)

Lemma call_AssertIsLessEq (self : BoundedComparator) (a b : csv) (s : constraint_system) :
  call self (AssertIsLessEq a b) s
  = Returned tt (add_constraints [CBinary (absDiffUppBitLen self) (VSub b a)] s).
Proof. reflexivity. Qed.

Lemma call_AssertIsLess (self : BoundedComparator) (a b : csv) (s : constraint_system) :
  call self (AssertIsLess a b) s
  = Returned tt
      (add_constraints [CBinary (absDiffUppBitLen self) (VSub (VSub b (Const 1)) a)] s).
Proof. reflexivity. Qed.

Lemma call_IsLess (self : BoundedComparator) (a b : csv) (s : constraint_system) :
  call self (IsLess a b) s
  = Returned (Wire (nb_wires s))
      {| nb_wires := nb_wires s + 1;
         hints := HintCall isLessOutputHint [a; b] [nb_wires s] :: hints s;
         constraints :=
           [CBinary (absDiffUppBitLen self)
              (VSelect (Wire (nb_wires s)) (VSub (VSub b a) (Const 1)) (VSub a b));
            CBoolean (Wire (nb_wires s))]
           ++ constraints s |}.
Proof. reflexivity. Qed.

Lemma call_IsLessEq (self : BoundedComparator) (a b : csv) (s : constraint_system) :
  call self (IsLessEq a b) s = call self (IsLess a (VAdd b (Const 1))) s.
Proof. reflexivity. Qed.

Lemma call_Min (self : BoundedComparator) (a b : csv) (s : constraint_system) :
  call self (Min a b) s
  = Returned (Wire (nb_wires s))
      {| nb_wires := nb_wires s + 1;
         hints := HintCall minOutputHint [a; b] [nb_wires s] :: hints s;
         constraints :=
           [CBinary (absDiffUppBitLen self)
              (VAdd (VSub a (Wire (nb_wires s))) (VSub b (Wire (nb_wires s))));
            CEqual (VMul (VSub a (Wire (nb_wires s))) (VSub b (Wire (nb_wires s)))) (Const 0)]
           ++ constraints s |}.
Proof. reflexivity. Qed.

Lemma prime_odd (P : Z) : Z.prime P -> 2 < P -> Z.odd P = true.
Proof.
  intros [_ Hdiv] H2. destruct (Z.odd P) eqn:Hodd; [reflexivity|].
  exfalso. apply (Hdiv 2); [lia|].
  apply Z.mod_divide; [lia|]. rewrite Zmod_odd, Hodd. reflexivity.
Qed.

Lemma signed_congruent (P v : Z) : exists k, signed P v = v + k * P.
Proof.
  unfold signed. destruct (v <=? (P - 1) / 2); [exists 0 | exists (-1)]; lia.
Qed.

Lemma signed_mod (P v : Z) : 0 < P -> 0 <= v < P -> signed P v mod P = v.
Proof.
  intros HP Hv. destruct (signed_congruent P v) as [k ->].
  rewrite Z_mod_plus_full. apply Z.mod_small. exact Hv.
Qed.

Lemma eval_congruent (P : Z) (w : witness) (v : csv) :
  0 < P -> eval P w v = signed P (eval P w v) mod P.
Proof. intros HP. symmetry. apply signed_mod; [exact HP | apply eval_range, HP]. Qed.

Section Comparator.
Variables P absDiffUpp : Z.
Variable w : witness.
Hypothesis P_prime : Z.prime P.
Hypothesis absDiffUpp_pos : 0 < absDiffUpp.
Hypothesis separated : 2 ^ BitLen absDiffUpp <= P - absDiffUpp - 1.

Local Abbreviation L := (BitLen absDiffUpp).

Lemma bound_fits : absDiffUpp < 2 ^ L.
Proof. apply BitLen_upper. lia. Qed.

Lemma order_large : 2 * absDiffUpp + 1 < P.
Proof. pose proof bound_fits. lia. Qed.

Lemma order_pos : 0 < P.
Proof. pose proof order_large. lia. Qed.

Lemma order_odd : Z.odd P = true.
Proof. apply prime_odd; [exact P_prime|]. pose proof order_large. lia. Qed.

Lemma bound_below_half : absDiffUpp < Z.shiftr P 1.
Proof.
  rewrite shiftr_1_half. destruct (odd_half P order_odd) as [HP _].
  pose proof order_large. lia.
Qed.

(** The heart of the gadget: a difference within the bound fits in [L]
    bits exactly when it is non-negative. *)
Lemma fits_iff_nonneg (t : Z) :
  - (absDiffUpp + 1) <= t <= absDiffUpp ->
  (t mod P <? 2 ^ L) = true <-> 0 <= t.
Proof.
  intros Ht. pose proof bound_fits. pose proof order_large.
  rewrite Z.ltb_lt. split.
  - intros Hfit. destruct (Z.le_gt_cases 0 t) as [|Hneg]; [assumption|].
    exfalso. rewrite <- (Z_mod_plus_full t 1 P) in Hfit.
    rewrite Z.mod_small in Hfit by lia. lia.
  - intros Hnn. rewrite Z.mod_small by lia. lia.
Qed.

Lemma one_mod : 1 mod P = 1.
Proof. apply Z.mod_small. pose proof order_large. lia. Qed.

(** Differences of variables, computed in the field, in terms of
    arbitrary integer representatives of the operands. *)
Lemma eval_sub_rep (a b : csv) (ta tb : Z) :
  eval P w a = ta mod P -> eval P w b = tb mod P ->
  eval P w (VSub a b) = (ta - tb) mod P.
Proof. intros Ha Hb. cbn [eval]. rewrite Ha, Hb, <- Zminus_mod. reflexivity. Qed.

Lemma eval_sub_one_rep (a : csv) (ta : Z) :
  eval P w a = ta mod P -> eval P w (VSub a (Const 1)) = (ta - 1) mod P.
Proof. intros Ha. cbn [eval]. rewrite Ha, <- Zminus_mod. reflexivity. Qed.

Lemma eval_add_one_rep (a : csv) (ta : Z) :
  eval P w a = ta mod P -> eval P w (VAdd a (Const 1)) = (ta + 1) mod P.
Proof. intros Ha. cbn [eval]. rewrite Ha, <- Zplus_mod. reflexivity. Qed.

Lemma satisfies_one (c : constraint) : satisfies P w [c] <-> holds P w c = true.
Proof.
  rewrite satisfies_cons. pose proof (satisfies_nil P w). tauto.
Qed.

(** AssertIsLessEq on operands with representatives [ta], [tb]. *)
Lemma AssertIsLessEq_rep (a b : csv) (ta tb : Z) :
  eval P w a = ta mod P -> eval P w b = tb mod P ->
  - (absDiffUpp + 1) <= tb - ta <= absDiffUpp ->
  satisfies P w [CBinary L (VSub b a)] <-> ta <= tb.
Proof.
  intros Ha Hb Hbound. rewrite satisfies_one. cbn [holds].
  rewrite (eval_sub_rep b a tb ta Hb Ha), fits_iff_nonneg by lia. lia.
Qed.

(** The two constraints of IsLess on operands with representatives
    [ta], [tb]: the result is a bit, and it is 1 exactly when ta < tb. *)
Lemma IsLess_rep (r a b : csv) (ta tb : Z) :
  eval P w a = ta mod P -> eval P w b = tb mod P ->
  - absDiffUpp <= tb - ta <= absDiffUpp + 1 ->
  satisfies P w
    [CBinary L (VSelect r (VSub (VSub b a) (Const 1)) (VSub a b)); CBoolean r]
  <-> (eval P w r = 1 /\ ta < tb) \/ (eval P w r = 0 /\ tb <= ta).
Proof.
  intros Ha Hb Hbound.
  rewrite satisfies_cons, satisfies_one. cbn [holds].
  change (eval P w (VSelect r (VSub (VSub b a) (Const 1)) (VSub a b)))
    with (if eval P w r =? 1
          then eval P w (VSub (VSub b a) (Const 1))
          else eval P w (VSub a b)).
  rewrite (eval_sub_one_rep (VSub b a) (tb - ta) (eval_sub_rep b a tb ta Hb Ha)).
  rewrite (eval_sub_rep a b ta tb Ha Hb).
  rewrite orb_true_iff, !Z.eqb_eq.
  destruct (Z.eqb_spec (eval P w r) 1) as [H1|H1].
  - rewrite fits_iff_nonneg by lia. lia.
  - rewrite fits_iff_nonneg by lia. lia.
Qed.

(** The two constraints of Min: the result is one of the operands, and
    the other one is not below it. *)
Lemma Min_rep (m a b : csv) :
  within_bound P absDiffUpp (eval P w a) (eval P w b) ->
  satisfies P w
    [CBinary L (VAdd (VSub a m) (VSub b m)); CEqual (VMul (VSub a m) (VSub b m)) (Const 0)]
  <-> (eval P w m = eval P w a /\ signed P (eval P w a) <= signed P (eval P w b)) \/
      (eval P w m = eval P w b /\ signed P (eval P w b) <= signed P (eval P w a)).
Proof.
  unfold within_bound. intros Hbound.
  pose proof order_pos as HP.
  pose proof (eval_range P w HP a) as Hra.
  pose proof (eval_range P w HP b) as Hrb.
  pose proof (eval_range P w HP m) as Hrm.
  rewrite satisfies_cons, satisfies_one. cbn [holds].
  assert (Hsum : forall x y : csv,
             eval P w m = eval P w x ->
             eval P w (VAdd (VSub x m) (VSub y m))
             = (signed P (eval P w y) - signed P (eval P w x)) mod P).
  { intros x y Hmx. cbn [eval].
    rewrite Hmx, Z.sub_diag, (Z.mod_0_l P), Z.add_0_l, Zmod_mod by lia.
    rewrite (eval_congruent P w x HP) at 1. rewrite (eval_congruent P w y HP) at 1.
    rewrite <- Zminus_mod. reflexivity. }
  assert (Hcomm : eval P w (VAdd (VSub a m) (VSub b m))
                  = eval P w (VAdd (VSub b m) (VSub a m))).
  { cbn [eval]. rewrite Z.add_comm. reflexivity. }
  split.
  - intros [Hfit Hprod]. apply Z.eqb_eq in Hprod.
    change (eval P w (VMul (VSub a m) (VSub b m)))
      with ((eval P w (VSub a m) * eval P w (VSub b m)) mod P) in Hprod.
    change (eval P w (Const 0)) with (0 mod P) in Hprod.
    rewrite (Z.mod_0_l P) in Hprod by lia.
    destruct (Z.eq_dec (eval P w (VSub b m)) 0) as [Hb0|Hb0].
    + right. cbn [eval] in Hb0. apply field_sub_zero in Hb0; [|lia|lia|lia].
      symmetry in Hb0. split; [exact Hb0|].
      rewrite Hcomm, (Hsum b a Hb0), fits_iff_nonneg in Hfit by lia. lia.
    + left. apply field_zero_product in Hprod;
        [| exact HP | exact P_prime | apply eval_range, HP | apply eval_range, HP | exact Hb0].
      cbn [eval] in Hprod. apply field_sub_zero in Hprod; [|lia|lia|lia].
      symmetry in Hprod. split; [exact Hprod|].
      rewrite (Hsum a b Hprod), fits_iff_nonneg in Hfit by lia. lia.
  - intros [[Hm Hle]|[Hm Hle]].
    + split.
      * rewrite (Hsum a b Hm), fits_iff_nonneg by lia. lia.
      * apply Z.eqb_eq. cbn [eval].
        rewrite Hm, Z.sub_diag, (Z.mod_0_l P), Z.mul_0_l by lia. reflexivity.
    + split.
      * rewrite Hcomm, (Hsum b a Hm), fits_iff_nonneg by lia. lia.
      * apply Z.eqb_eq. cbn [eval].
        rewrite Hm, Z.sub_diag, (Z.mod_0_l P), Z.mul_0_r by lia. reflexivity.
Qed.

End Comparator.

(** ** What the comparator's constraints admit *)

(** X19: for operands within the bound, the solutions of the constraints
    of each of the five operations are exactly the assignments carrying
    the correct result. *)
Theorem comparator_constraints_characterised (P absDiffUpp : Z) (allowNonDeterminism : bool)
  (cmp : BoundedComparator) (w : witness) (a b : csv) (s : constraint_system) :
  Z.prime P ->
  NewBoundedComparator P absDiffUpp allowNonDeterminism = Ok cmp ->
  within_bound P absDiffUpp (eval P w a) (eval P w b) ->
  let sa := signed P (eval P w a) in
  let sb := signed P (eval P w b) in
  (exists s', call cmp (AssertIsLessEq a b) s = Returned tt s' /\
              (satisfies P w (emitted s s') <-> sa <= sb)) /\
  (exists s', call cmp (AssertIsLess a b) s = Returned tt s' /\
              (satisfies P w (emitted s s') <-> sa < sb)) /\
  (exists r s', call cmp (IsLess a b) s = Returned r s' /\
                (satisfies P w (emitted s s')
                 <-> (eval P w r = 1 /\ sa < sb) \/ (eval P w r = 0 /\ sb <= sa))) /\
  (exists r s', call cmp (IsLessEq a b) s = Returned r s' /\
                (satisfies P w (emitted s s')
                 <-> (eval P w r = 1 /\ sa <= sb) \/ (eval P w r = 0 /\ sb < sa))) /\
  (exists m s', call cmp (Min a b) s = Returned m s' /\
                (satisfies P w (emitted s s')
                 <-> (eval P w m = eval P w a /\ sa <= sb) \/
                     (eval P w m = eval P w b /\ sb <= sa))).
Proof.
  intros HP Hnew Hbound sa sb.
  destruct (NewBoundedComparator_Ok _ _ _ _ Hnew) as (-> & [HD _] & Hsep).
  cbn [absDiffUppBitLen].
  assert (Hpos : 0 < P) by (destruct HP; lia).
  pose proof (eval_congruent P w a Hpos) as Ha.
  pose proof (eval_congruent P w b Hpos) as Hb.
  fold sa in Ha. fold sb in Hb. unfold within_bound in Hbound. fold sa sb in Hbound.
  split; [|split; [|split; [|split]]].
  - eexists. split; [apply call_AssertIsLessEq|].
    rewrite emitted_add_constraints. cbn [absDiffUppBitLen].
    apply (AssertIsLessEq_rep P absDiffUpp w HD Hsep a b sa sb Ha Hb). lia.
  - eexists. split; [apply call_AssertIsLess|].
    rewrite emitted_add_constraints. cbn [absDiffUppBitLen].
    rewrite (AssertIsLessEq_rep P absDiffUpp w HD Hsep a (VSub b (Const 1)) sa (sb - 1) Ha
               (eval_sub_one_rep P w b sb Hb)) by lia.
    lia.
  - do 2 eexists. split; [apply call_IsLess|].
    erewrite emitted_app by reflexivity. cbn [absDiffUppBitLen].
    apply (IsLess_rep P absDiffUpp w HD Hsep _ a b sa sb Ha Hb). lia.
  - do 2 eexists. split; [rewrite call_IsLessEq; apply call_IsLess|].
    erewrite emitted_app by reflexivity. cbn [absDiffUppBitLen].
    rewrite (IsLess_rep P absDiffUpp w HD Hsep _ a (VAdd b (Const 1)) sa (sb + 1) Ha
               (eval_add_one_rep P w b sb Hb)) by lia.
    lia.
  - do 2 eexists. split; [apply call_Min|].
    erewrite emitted_app by reflexivity. cbn [absDiffUppBitLen].
    apply (Min_rep P absDiffUpp w HP HD Hsep _ a b). exact Hbound.
Qed.

Lemma comparator_constraints_characterised_witness :
  let w := inputs_witness [5; 6; 1] in
  Z.prime 13 /\
  NewBoundedComparator 13 2 false = Ok {| absDiffUppBitLen := 2 |} /\
  within_bound 13 2 (eval 13 w (Wire 0)) (eval 13 w (Wire 1)) /\
  exists r s',
    call {| absDiffUppBitLen := 2 |} (IsLessEq (Wire 0) (Wire 1)) (fresh_system 2)
    = Returned r s' /\
    (satisfies 13 w (emitted (fresh_system 2) s')
     <-> (eval 13 w r = 1 /\
          signed 13 (eval 13 w (Wire 0)) <= signed 13 (eval 13 w (Wire 1))) \/
         (eval 13 w r = 0 /\
          signed 13 (eval 13 w (Wire 1)) < signed 13 (eval 13 w (Wire 0)))).
Proof.
  intros w. split; [exact prime_13|]. split; [reflexivity|].
  assert (Hbound : within_bound 13 2 (eval 13 w (Wire 0)) (eval 13 w (Wire 1)))
    by (vm_compute; discriminate).
  split; [exact Hbound|].
  exact (proj1 (proj2 (proj2 (proj2
           (comparator_constraints_characterised 13 2 false {| absDiffUppBitLen := 2 |} w
              (Wire 0) (Wire 1) (fresh_system 2) prime_13 eq_refl Hbound))))).
Defined.

(** ** What the solver computes for the comparator *)

Lemma eval_set_wire_scoped (P : Z) (w : witness) (n : nat) (x : Z) (v : csv) :
  scoped n v -> eval P (set_wire w n x) v = eval P w v.
Proof.
  induction v as [c|id|v1 IH1 v2 IH2|v1 IH1 v2 IH2|v1 IH1 v2 IH2|v1 IH1 v2 IH2 v3 IH3];
    cbn [scoped eval]; intros Hs.
  - reflexivity.
  - unfold set_wire. destruct (decide (id = n)); [lia | reflexivity].
  - destruct Hs. rewrite IH1, IH2 by assumption. reflexivity.
  - destruct Hs. rewrite IH1, IH2 by assumption. reflexivity.
  - destruct Hs. rewrite IH1, IH2 by assumption. reflexivity.
  - destruct Hs as (? & ? & ?). rewrite IH1, IH2, IH3 by assumption. reflexivity.
Qed.

Lemma eval_set_wire_same (P : Z) (w : witness) (n : nat) (x : Z) :
  0 <= x < P -> eval P (set_wire w n x) (Wire n) = x.
Proof.
  intros Hx. cbn [eval]. unfold set_wire.
  destruct (decide (n = n)); [|contradiction]. apply Z.mod_small, Hx.
Qed.

Lemma run_hints_app (P : Z) (w : witness) (hs1 hs2 : list hint_call) :
  run_hints P w (hs1 ++ hs2) = run_hints P w hs1 ≫= fun w1 => run_hints P w1 hs2.
Proof.
  revert w. induction hs1 as [|h hs1 IH]; intros w; [reflexivity|].
  cbn [app run_hints]. destruct (run_hint P w h) as [w1|msg]; [|reflexivity].
  cbn [mbind go_bind]. apply IH.
Qed.

(** The solver on a system with one more hint: the earlier hints first,
    then the new one. *)
Lemma solve_step (P : Z) (w : witness) (s s' : constraint_system) (h : hint_call) :
  hints s' = h :: hints s ->
  solve P w s' = solve P w s ≫= fun w1 => run_hint P w1 h.
Proof.
  intros Hh. unfold solve. rewrite Hh, reverse_cons, run_hints_app.
  destruct (run_hints P w (reverse (hints s))) as [w1|msg]; [|reflexivity].
  cbn [mbind go_bind run_hints]. destruct (run_hint P w1 h); reflexivity.
Qed.

Lemma run_hint_isLessOutputHint (P : Z) (w : witness) (a b : csv) (n : nat) :
  run_hint P w (HintCall isLessOutputHint [a; b] [n])
  = Ok (set_wire w n (indicator (cmpInField (eval P w a) (eval P w b) P =? -1))).
Proof.
  unfold run_hint. cbn [hc_function hc_inputs hc_outputs length replicate fmap list_fmap].
  rewrite isLessOutputHint_eq. reflexivity.
Qed.

Lemma run_hint_minOutputHint (P : Z) (w : witness) (a b : csv) (n : nat) :
  run_hint P w (HintCall minOutputHint [a; b] [n])
  = Ok (set_wire w n (if cmpInField (eval P w a) (eval P w b) P =? -1
                      then eval P w a else eval P w b)).
Proof.
  unfold run_hint. cbn [hc_function hc_inputs hc_outputs length replicate fmap list_fmap].
  rewrite minOutputHint_eq. reflexivity.
Qed.

(** Operands whose signed values are no further apart than [P >> 1] are
    never one of the pairs that cmpInField orders wrongly. *)
Lemma cmpInField_close (P a b : Z) :
  Z.odd P = true -> 0 <= a < P -> 0 <= b < P ->
  Z.abs (signed P a - signed P b) <= Z.shiftr P 1 ->
  cmpInField a b P = Cmp (signed P a) (signed P b).
Proof.
  intros Hodd Ha Hb Hclose. apply cmpInField_signed; try assumption;
    rewrite shiftr_1_half in *; destruct (odd_half P Hodd) as [HP Hh];
    unfold signed in Hclose; rewrite Hh in Hclose;
    intros [-> Hlt];
    repeat match goal with
           | H : context [?x <=? ?y] |- _ => destruct (Z.leb_spec x y); try lia
           end.
Qed.

Lemma signed_succ (P v : Z) :
  Z.odd P = true -> 1 < P -> 0 <= v < P -> v <> Z.shiftr P 1 ->
  signed P ((v + 1) mod P) = signed P v + 1.
Proof.
  intros Hodd HP Hv Hne. rewrite shiftr_1_half in Hne.
  destruct (odd_half P Hodd) as [HP2 Hh]. unfold signed. rewrite Hh.
  destruct (Z.eq_dec v (P - 1)) as [->|Hlast].
  - replace (P - 1 + 1) with P by lia. rewrite Z.mod_same by lia.
    destruct (Z.leb_spec 0 (P / 2)); destruct (Z.leb_spec (P - 1) (P / 2)); lia.
  - rewrite Z.mod_small by lia.
    destruct (Z.leb_spec (v + 1) (P / 2)); destruct (Z.leb_spec v (P / 2)); lia.
Qed.

Lemma signed_range (P v : Z) :
  Z.odd P = true -> 0 <= v < P -> - (P / 2) <= signed P v <= P / 2.
Proof.
  intros Hodd Hv. destruct (odd_half P Hodd) as [HP2 Hh]. unfold signed. rewrite Hh.
  destruct (Z.leb_spec v (P / 2)); lia.
Qed.

Lemma signed_inj (P a b : Z) :
  0 <= a < P -> 0 <= b < P -> signed P a = signed P b -> a = b.
Proof.
  intros Ha Hb H. rewrite <- (signed_mod P a), <- (signed_mod P b), H by lia.
  reflexivity.
Qed.

Lemma indicator_range (P : Z) (c : bool) : 1 < P -> 0 <= indicator c < P.
Proof. destruct c; cbn; lia. Qed.

Lemma Cmp_eqb_lt (x y : Z) : (Cmp x y =? -1) = (x <? y).
Proof.
  cmp_cases x y; match goal with H : Cmp _ _ = _ |- _ => rewrite H end;
    destruct (Z.ltb_spec x y); try lia; reflexivity.
Qed.

(** X20: within the bound the hints of IsLess and Min compute the correct
    result, and the solver's witness satisfies the constraints the two
    operations emit. *)
Theorem comparator_hints_complete (P absDiffUpp : Z) (allowNonDeterminism : bool)
  (cmp : BoundedComparator) (w0 w : witness) (a b : csv) (s : constraint_system) :
  Z.prime P ->
  NewBoundedComparator P absDiffUpp allowNonDeterminism = Ok cmp ->
  solve P w0 s = Ok w ->
  scoped (nb_wires s) a -> scoped (nb_wires s) b ->
  within_bound P absDiffUpp (eval P w a) (eval P w b) ->
  let sa := signed P (eval P w a) in
  let sb := signed P (eval P w b) in
  (exists r s' w',
      call cmp (IsLess a b) s = Returned r s' /\
      solve P w0 s' = Ok w' /\
      eval P w' a = eval P w a /\ eval P w' b = eval P w b /\
      satisfies P w' (emitted s s') /\
      eval P w' r = indicator (sa <? sb)) /\
  (exists m s' w',
      call cmp (Min a b) s = Returned m s' /\
      solve P w0 s' = Ok w' /\
      eval P w' a = eval P w a /\ eval P w' b = eval P w b /\
      satisfies P w' (emitted s s') /\
      eval P w' m = (if sa <? sb then eval P w a else eval P w b) /\
      signed P (eval P w' m) = Z.min sa sb).
Proof.
  intros HP Hnew Hsolve Hsa Hsb Hbound sa sb.
  destruct (NewBoundedComparator_Ok _ _ _ _ Hnew) as (-> & [HD _] & Hsep).
  pose proof (order_odd P absDiffUpp HP HD Hsep) as Hodd.
  pose proof (bound_below_half P absDiffUpp HP HD Hsep) as Hhalf.
  pose proof (order_large P absDiffUpp HD Hsep) as Hlarge.
  assert (Hpos : 0 < P) by lia.
  pose proof (eval_range P w Hpos a) as Hra.
  pose proof (eval_range P w Hpos b) as Hrb.
  assert (Hcmp : cmpInField (eval P w a) (eval P w b) P = Cmp sa sb).
  { apply cmpInField_close; try assumption. unfold within_bound in Hbound. lia. }
  unfold within_bound in Hbound. fold sa sb in Hbound.
  split.
  - set (x := indicator (sa <? sb)).
    exists (Wire (nb_wires s)). eexists. exists (set_wire w (nb_wires s) x).
    split; [apply call_IsLess|].
    assert (Hx : 0 <= x < P) by (apply indicator_range; lia).
    assert (Ha' := eval_set_wire_scoped P w (nb_wires s) x a Hsa).
    assert (Hb' := eval_set_wire_scoped P w (nb_wires s) x b Hsb).
    split; [|split; [exact Ha'|split; [exact Hb'|split]]].
    + erewrite solve_step by reflexivity. rewrite Hsolve. cbn [mbind go_bind].
      rewrite run_hint_isLessOutputHint, Hcmp, Cmp_eqb_lt. reflexivity.
    + erewrite emitted_app by reflexivity. cbn [absDiffUppBitLen].
      apply (IsLess_rep P absDiffUpp _ HD Hsep _ a b sa sb).
      * rewrite Ha'. apply eval_congruent, Hpos.
      * rewrite Hb'. apply eval_congruent, Hpos.
      * lia.
      * rewrite eval_set_wire_same by exact Hx. subst x.
        destruct (Z.ltb_spec sa sb); cbn [indicator]; [left | right]; split; lia.
    + apply eval_set_wire_same, Hx.
  - set (x := if sa <? sb then eval P w a else eval P w b).
    exists (Wire (nb_wires s)). eexists. exists (set_wire w (nb_wires s) x).
    split; [apply call_Min|].
    assert (Hx : 0 <= x < P) by (subst x; destruct (sa <? sb); assumption).
    assert (Ha' := eval_set_wire_scoped P w (nb_wires s) x a Hsa).
    assert (Hb' := eval_set_wire_scoped P w (nb_wires s) x b Hsb).
    assert (Hm' := eval_set_wire_same P w (nb_wires s) x Hx).
    split; [|split; [exact Ha'|split; [exact Hb'|split; [|split]]]].
    + erewrite solve_step by reflexivity. rewrite Hsolve. cbn [mbind go_bind].
      rewrite run_hint_minOutputHint, Hcmp, Cmp_eqb_lt. reflexivity.
    + erewrite emitted_app by reflexivity. cbn [absDiffUppBitLen].
      apply (Min_rep P absDiffUpp _ HP HD Hsep _ a b).
      * unfold within_bound. rewrite Ha', Hb'. exact Hbound.
      * rewrite Hm', Ha', Hb'. fold sa sb. subst x.
        destruct (Z.ltb_spec sa sb); [left | right]; split; (reflexivity || lia).
    + exact Hm'.
    + rewrite Hm'. subst x. destruct (Z.ltb_spec sa sb); fold sa sb; lia.
Qed.

Lemma comparator_hints_complete_witness :
  let w := inputs_witness [5; 6] in
  exists r s' w',
    call {| absDiffUppBitLen := 2 |} (IsLess (Wire 0) (Wire 1)) (fresh_system 2)
    = Returned r s' /\
    solve 13 w s' = Ok w' /\
    eval 13 w' (Wire 0) = eval 13 w (Wire 0) /\
    eval 13 w' (Wire 1) = eval 13 w (Wire 1) /\
    satisfies 13 w' (emitted (fresh_system 2) s') /\
    eval 13 w' r = indicator (signed 13 (eval 13 w (Wire 0)) <? signed 13 (eval 13 w (Wire 1))).
Proof.
  intros w.
  refine (proj1 (comparator_hints_complete 13 2 false {| absDiffUppBitLen := 2 |} w w
                   (Wire 0) (Wire 1) (fresh_system 2) prime_13 eq_refl eq_refl _ _ _)).
  - cbn. lia.
  - cbn. lia.
  - vm_compute. discriminate.
Defined.

(** ** IsLessEq at the biggest positive number *)

(** X21: IsLessEq hands [b + 1] to the hint of IsLess.  Unless [b] is the
    biggest positive number [P >> 1] the hint answers [a <= b] and the
    solver's witness is accepted.  When [b] is [P >> 1] and [a] is below
    it, [b + 1] is the most negative element: the hint answers 0 although
    [a <= b], and the solver's witness is rejected, while the constraints
    themselves still have the solution that carries the correct bit. *)
Theorem IsLessEq_hint (P absDiffUpp : Z) (allowNonDeterminism : bool)
  (cmp : BoundedComparator) (w0 w : witness) (a b : csv) (s : constraint_system) :
  Z.prime P ->
  NewBoundedComparator P absDiffUpp allowNonDeterminism = Ok cmp ->
  solve P w0 s = Ok w ->
  scoped (nb_wires s) a -> scoped (nb_wires s) b ->
  within_bound P absDiffUpp (eval P w a) (eval P w b) ->
  let sa := signed P (eval P w a) in
  let sb := signed P (eval P w b) in
  exists r s' w',
    call cmp (IsLessEq a b) s = Returned r s' /\
    solve P w0 s' = Ok w' /\
    eval P w' a = eval P w a /\ eval P w' b = eval P w b /\
    (eval P w b <> Z.shiftr P 1 ->
     satisfies P w' (emitted s s') /\ eval P w' r = indicator (sa <=? sb)) /\
    (eval P w b = Z.shiftr P 1 -> eval P w a < Z.shiftr P 1 ->
     sa <= sb /\ eval P w' r = 0 /\ ~ satisfies P w' (emitted s s')) /\
    satisfies P (set_wire w (nb_wires s) (indicator (sa <=? sb))) (emitted s s').
Proof.
  intros HP Hnew Hsolve Hsa Hsb Hbound sa sb.
  destruct (NewBoundedComparator_Ok _ _ _ _ Hnew) as (-> & [HD _] & Hsep).
  pose proof (order_odd P absDiffUpp HP HD Hsep) as Hodd.
  pose proof (bound_below_half P absDiffUpp HP HD Hsep) as Hhalf.
  pose proof (order_large P absDiffUpp HD Hsep) as Hlarge.
  assert (Hpos : 0 < P) by lia.
  pose proof (eval_range P w Hpos a) as Hra.
  pose proof (eval_range P w Hpos b) as Hrb.
  pose proof (eval_range P w Hpos (VAdd b (Const 1))) as Hrb1.
  unfold within_bound in Hbound. fold sa sb in Hbound.
  set (n := nb_wires s).
  set (x := indicator (cmpInField (eval P w a) (eval P w (VAdd b (Const 1))) P =? -1)).
  assert (Hx : 0 <= x < P) by (apply indicator_range; lia).
  assert (Hb1 : scoped n (VAdd b (Const 1))) by (cbn; auto).
  assert (Hsat : forall y, 0 <= y < P ->
             satisfies P (set_wire w n y)
               [CBinary (BitLen absDiffUpp)
                  (VSelect (Wire n) (VSub (VSub (VAdd b (Const 1)) a) (Const 1))
                     (VSub a (VAdd b (Const 1))));
                CBoolean (Wire n)]
             <-> (y = 1 /\ sa <= sb) \/ (y = 0 /\ sb < sa)).
  { intros y Hy.
    rewrite (IsLess_rep P absDiffUpp _ HD Hsep _ a (VAdd b (Const 1)) sa (sb + 1)).
    - rewrite eval_set_wire_same by exact Hy. lia.
    - rewrite eval_set_wire_scoped by exact Hsa. apply eval_congruent, Hpos.
    - apply eval_add_one_rep. rewrite eval_set_wire_scoped by exact Hsb.
      apply eval_congruent, Hpos.
    - lia. }
  exists (Wire n). eexists. exists (set_wire w n x).
  split; [rewrite call_IsLessEq; apply call_IsLess|].
  split; [|split; [apply eval_set_wire_scoped, Hsa | split; [apply eval_set_wire_scoped, Hsb|]]].
  { erewrite solve_step by reflexivity. rewrite Hsolve. cbn [mbind go_bind].
    apply run_hint_isLessOutputHint. }
  erewrite emitted_app by reflexivity. cbn [absDiffUppBitLen]. fold n.
  rewrite eval_set_wire_same by exact Hx.
  split; [|split].
  - intros Hne.
    assert (Hsucc : signed P (eval P w (VAdd b (Const 1))) = sb + 1).
    { cbn [eval]. rewrite (one_mod P absDiffUpp HD Hsep).
      apply signed_succ; try assumption; lia. }
    assert (Hxv : x = indicator (sa <=? sb)).
    { subst x. rewrite cmpInField_close, Hsucc, Cmp_eqb_lt; try assumption.
      - fold sa. destruct (Z.ltb_spec sa (sb + 1)); destruct (Z.leb_spec sa sb);
          try lia; reflexivity.
      - rewrite Hsucc. fold sa. lia. }
    split; [|exact Hxv].
    apply Hsat; [exact Hx|]. rewrite Hxv.
    destruct (Z.leb_spec sa sb); cbn [indicator]; [left | right]; split; lia.
  - intros Hbh Hah. rewrite shiftr_1_half in *.
    destruct (odd_half P Hodd) as [HP2 Hh].
    assert (Hsav : sa = eval P w a).
    { subst sa. unfold signed. rewrite Hh.
      destruct (Z.leb_spec (eval P w a) (P / 2)); lia. }
    assert (Hsbv : sb = P / 2).
    { subst sb. unfold signed. rewrite Hh, Hbh.
      destruct (Z.leb_spec (P / 2) (P / 2)); lia. }
    assert (Hxv : x = 0).
    { subst x. cbn [eval]. rewrite (one_mod P absDiffUpp HD Hsep), Hbh.
      rewrite (Z.mod_small (P / 2 + 1) P) by lia.
      unfold cmpInField. cbv zeta. rewrite shiftr_1_half.
      rewrite (proj2 (Cmp_lt (eval P w a) (P / 2))) by lia.
      rewrite (proj2 (Cmp_gt (P / 2 + 1) (P / 2))) by lia.
      change (-1 * 1 =? -1) with true. cbv iota.
      rewrite (proj2 (Cmp_lt (eval P w a) (P / 2 + 1))) by lia.
      reflexivity. }
    split; [lia|]. split; [exact Hxv|].
    rewrite Hsat by exact Hx. rewrite Hxv. lia.
  - apply Hsat; [apply indicator_range; lia|].
    destruct (Z.leb_spec sa sb); cbn [indicator]; [left | right]; split; lia.
Qed.

Lemma IsLessEq_hint_witness :
  let w := inputs_witness [5; 6] in
  exists r s' w',
    call {| absDiffUppBitLen := 2 |} (IsLessEq (Wire 0) (Wire 1)) (fresh_system 2)
    = Returned r s' /\
    solve 13 w s' = Ok w' /\
    eval 13 w' (Wire 0) = eval 13 w (Wire 0) /\ eval 13 w' (Wire 1) = eval 13 w (Wire 1) /\
    (eval 13 w (Wire 1) <> Z.shiftr 13 1 ->
     satisfies 13 w' (emitted (fresh_system 2) s') /\
     eval 13 w' r
     = indicator (signed 13 (eval 13 w (Wire 0)) <=? signed 13 (eval 13 w (Wire 1)))) /\
    (eval 13 w (Wire 1) = Z.shiftr 13 1 -> eval 13 w (Wire 0) < Z.shiftr 13 1 ->
     signed 13 (eval 13 w (Wire 0)) <= signed 13 (eval 13 w (Wire 1)) /\
     eval 13 w' r = 0 /\ ~ satisfies 13 w' (emitted (fresh_system 2) s')) /\
    satisfies 13
      (set_wire w (nb_wires (fresh_system 2))
         (indicator (signed 13 (eval 13 w (Wire 0)) <=? signed 13 (eval 13 w (Wire 1)))))
      (emitted (fresh_system 2) s').
Proof.
  intros w.
  refine (IsLessEq_hint 13 2 false {| absDiffUppBitLen := 2 |} w w
            (Wire 0) (Wire 1) (fresh_system 2) prime_13 eq_refl eq_refl _ _ _).
  - cbn. lia.
  - cbn. lia.
  - vm_compute. discriminate.
Defined.

(** C1: in the field of order 13 with the comparator built for bound 2,
    the operands a = 5 and b = 6 are within the bound and a <= b, yet for
    IsLessEq(a, b) the solver assigns the result 0 and its witness violates
    the emitted constraints, so no proof is produced; the assignment with
    result 1 would have satisfied them. *)
Theorem IsLessEq_rejected_within_bound :
  let cmp := {| absDiffUppBitLen := 2 |} in
  let w := inputs_witness [5; 6] in
  NewBoundedComparator 13 2 false = Ok cmp /\
  within_bound 13 2 5 6 /\
  signed 13 5 <= signed 13 6 /\
  exists r s',
    call cmp (IsLessEq (Wire 0) (Wire 1)) (fresh_system 2) = Returned r s' /\
    (exists w', solve 13 w s' = Ok w' /\
                eval 13 w' (Wire 0) = 5 /\ eval 13 w' (Wire 1) = 6 /\
                eval 13 w' r = 0 /\
                forallb (holds 13 w') (constraints s') = false) /\
    proves 13 w s' = false /\
    forallb (holds 13 (set_wire w 2 1)) (constraints s') = true.
Proof.
  cbv zeta. split; [reflexivity|].
  split; [vm_compute; discriminate|].
  split; [vm_compute; discriminate|].
  do 2 eexists. split; [reflexivity|].
  split; [|split; reflexivity].
  eexists. repeat split; reflexivity.
Qed.

(** ** Indices that wrap around the field order *)

(** C3, as stated, fails for a multiplexer with more inputs than the field
    has elements: in the field of order 3 the indices 0 and 3 of a 4-input
    Mux are the same field element.  With sel = 0 the assignment
    indicators = [0; 0; 0; 1] satisfies every emitted constraint, although
    indicator[0] is 0 and the output is inputs[3], not inputs[0]. *)
Lemma Mux_indices_wrap :
  let w := inputs_witness [0; 1; 1; 1; 2; 0; 0; 0; 1] in
  let inputs := [Wire 1; Wire 2; Wire 3; Wire 4] in
  Z.prime 3 /\
  (3 <= length inputs)%nat /\
  eval 3 w (Wire 0) = Z.of_nat 0 /\
  exists out indicators s',
    Mux (Wire 0) inputs (fresh_system 5) = Returned (out, indicators) s' /\
    satisfies 3 w (emitted (fresh_system 5) s') /\
    (eval 3 w <$> indicators) = [0; 0; 0; 1] /\
    eval 3 w out = 2 /\
    eval 3 w (Wire 1) = 1 /\
    eval 3 w out <> eval 3 w (Wire 1).
Proof.
  cbv zeta. split; [exact Z.prime_3|]. split; [cbn; lia|]. split; [reflexivity|].
  do 3 eexists. split; [reflexivity|].
  split; [apply satisfies_forallb; reflexivity|].
  split; [reflexivity|]. split; [reflexivity|]. split; [reflexivity|].
  vm_compute. discriminate.
Qed.

(** ** Values overwritten by the append *)

(** The keys and the values are the two halves of one array of four
    variables: keys = all[0:2] has spare capacity, and its first spare
    slot is values[0] of values = all[2:4].  Map stores queryKey there
    before it reads the values, so with queryKey = keys[0] the one
    satisfying choice of indicators, [1; 0], yields out = queryKey = 5
    and not values[0] = 9. *)
Lemma Map_reads_overwritten_value :
  let w := inputs_witness [5; 5; 7; 9; 11; 1; 0] in
  let all := Slice 0 [Wire 1; Wire 2; Wire 3; Wire 4] 4 in
  let keys := subslice all 0 2 in
  let values := subslice all 2 4 in
  Z.prime 13 /\
  elems keys = [Wire 1; Wire 2] /\
  elems values = [Wire 3; Wire 4] /\
  eval 13 w (Wire 0) = eval 13 w (Wire 1) /\
  eval 13 w (Wire 1) <> eval 13 w (Wire 2) /\
  exists out indicators s',
    Map (Wire 0) keys values (fresh_system 5) = Returned (out, indicators) s' /\
    satisfies 13 w (emitted (fresh_system 5) s') /\
    (eval 13 w <$> indicators) = [1; 0] /\
    eval 13 w out = 5 /\
    eval 13 w (Wire 3) = 9 /\
    eval 13 w out <> eval 13 w (Wire 3).
Proof.
  cbv zeta. split; [exact prime_13|]. split; [reflexivity|]. split; [reflexivity|].
  split; [reflexivity|]. split; [vm_compute; discriminate|].
  do 3 eexists. split; [vm_compute; reflexivity|].
  split; [apply satisfies_forallb; reflexivity|].
  split; [reflexivity|]. split; [reflexivity|]. split; [reflexivity|].
  vm_compute. discriminate.
Qed.

(** C3, as stated, fails in two ways.  For a multiplexer with more inputs
    than the field has elements the indicators are not pinned: in the
    field of order 3 a 4-input Mux with sel = 0 accepts the indicators
    [0; 0; 0; 1] and outputs inputs[3].  For a map whose keys have their
    first spare slot at values[0], the indicators are pinned but the
    output is queryKey, not values[0]. *)
Lemma selector_counterexamples :
  (let w := inputs_witness [0; 1; 1; 1; 2; 0; 0; 0; 1] in
   let inputs := [Wire 1; Wire 2; Wire 3; Wire 4] in
   Z.prime 3 /\
   (3 <= length inputs)%nat /\
   eval 3 w (Wire 0) = Z.of_nat 0 /\
   exists out indicators s',
     Mux (Wire 0) inputs (fresh_system 5) = Returned (out, indicators) s' /\
     satisfies 3 w (emitted (fresh_system 5) s') /\
     (eval 3 w <$> indicators) = [0; 0; 0; 1] /\
     eval 3 w out = 2 /\
     eval 3 w (Wire 1) = 1 /\
     eval 3 w out <> eval 3 w (Wire 1)) /\
  (let w := inputs_witness [5; 5; 7; 9; 11; 1; 0] in
   let all := Slice 0 [Wire 1; Wire 2; Wire 3; Wire 4] 4 in
   let keys := subslice all 0 2 in
   let values := subslice all 2 4 in
   Z.prime 13 /\
   elems keys = [Wire 1; Wire 2] /\
   elems values = [Wire 3; Wire 4] /\
   eval 13 w (Wire 0) = eval 13 w (Wire 1) /\
   eval 13 w (Wire 1) <> eval 13 w (Wire 2) /\
   exists out indicators s',
     Map (Wire 0) keys values (fresh_system 5) = Returned (out, indicators) s' /\
     satisfies 13 w (emitted (fresh_system 5) s') /\
     (eval 13 w <$> indicators) = [1; 0] /\
     eval 13 w out = 5 /\
     eval 13 w (Wire 3) = 9 /\
     eval 13 w out <> eval 13 w (Wire 3)).
Proof.
  split; [exact Mux_indices_wrap | exact Map_reads_overwritten_value].
Qed.

(** ** The scenarios of the documentation *)

Example scenario_Mux :
  exists out indicators s' w',
    Mux (Wire 0) [Wire 1; Wire 2; Wire 3] (fresh_system 4) = Returned (out, indicators) s' /\
    solve 97 (inputs_witness [1; 10; 20; 30]) s' = Ok w' /\
    forallb (holds 97 w') (constraints s') = true /\
    eval 97 w' out = 20 /\
    (eval 97 w' <$> indicators) = [0; 1; 0].
Proof. do 4 eexists. repeat split; reflexivity. Qed.

Example scenario_Map :
  exists out indicators s' w',
    Map (Wire 0) (Slice 0 [Wire 1; Wire 2; Wire 3] 3) (Slice 3 [Wire 4; Wire 5; Wire 6] 3)
      (fresh_system 7)
    = Returned (out, indicators) s' /\
    solve 97 (inputs_witness [7; 3; 7; 9; 30; 70; 90]) s' = Ok w' /\
    forallb (holds 97 w') (constraints s') = true /\
    eval 97 w' out = 70 /\
    (eval 97 w' <$> indicators) = [0; 1; 0].
Proof.
  do 4 eexists. split; [vm_compute; reflexivity|]. repeat split; reflexivity.
 Qed.

Example scenario_comparator :
  let cmp := {| absDiffUppBitLen := 2 |} in
  let w := inputs_witness [5; 6] in
  NewBoundedComparator 13 2 false = Ok cmp /\
  (exists r s' w',
      call cmp (IsLess (Wire 0) (Wire 1)) (fresh_system 2) = Returned r s' /\
      solve 13 w s' = Ok w' /\
      forallb (holds 13 w') (constraints s') = true /\ eval 13 w' r = 1) /\
  (exists m s' w',
      call cmp (Min (Wire 0) (Wire 1)) (fresh_system 2) = Returned m s' /\
      solve 13 w s' = Ok w' /\
      forallb (holds 13 w') (constraints s') = true /\ eval 13 w' m = 5) /\
  (exists s',
      call cmp (AssertIsLessEq (Wire 0) (Wire 1)) (fresh_system 2) = Returned tt s' /\
      proves 13 w s' = true).
Proof.
  cbv zeta. split; [reflexivity|].
  split; [do 3 eexists; repeat split; reflexivity|].
  split; [do 3 eexists; repeat split; reflexivity|].
  eexists. split; reflexivity.
Qed.

(** The same rejection in the scalar field of BN254, for the biggest
    positive number b = (P - 1) / 2 and a = b - 1. *)
Example IsLessEq_rejected_in_a_large_field :
  let P := 21888242871839275222246405745257275088548364400416034343698204186575808495617 in
  let b := Z.shiftr P 1 in
  let a := b - 1 in
  let cmp := {| absDiffUppBitLen := 2 |} in
  let w := inputs_witness [a; b] in
  NewBoundedComparator P 2 false = Ok cmp /\
  within_bound P 2 a b /\
  signed P a <= signed P b /\
  exists r s',
    call cmp (IsLessEq (Wire 0) (Wire 1)) (fresh_system 2) = Returned r s' /\
    proves P w s' = false /\
    forallb (holds P (set_wire w 2 1)) (constraints s') = true.
Proof.
  cbv zeta. split; [vm_compute; reflexivity|].
  split; [vm_compute; discriminate|].
  split; [vm_compute; discriminate|].
  do 2 eexists. split; [reflexivity|].
  split; vm_compute; reflexivity.
Qed.

(** * Further properties of the code *)

(** ** cmpInField, exactly *)

(** X1: in a field of odd order, on raw representatives in [0, P),
    cmpInField is the comparison of the signed representatives exactly on
    the pairs other than (P >> 1, negative) and (negative, P >> 1). *)
Theorem cmpInField_signed_iff (P a b : Z) :
  Z.odd P = true -> 0 <= a < P -> 0 <= b < P ->
  cmpInField a b P = Cmp (signed P a) (signed P b)
  <-> ~ (a = Z.shiftr P 1 /\ Z.shiftr P 1 < b) /\
      ~ (b = Z.shiftr P 1 /\ Z.shiftr P 1 < a).
Proof.
  intros Hodd Ha Hb. split.
  - intros Heq. split; intros [-> Hlt].
    + destruct (cmpInField_half_below_negatives P b Hodd ltac:(lia)) as [H1 H2].
      rewrite H1, H2 in Heq. discriminate.
    + destruct (cmpInField_half_below_negatives P a Hodd ltac:(lia)) as [H1 H2].
      rewrite cmpInField_antisym, H1 in Heq.
      rewrite (Cmp_antisym (signed P a)), H2 in Heq. discriminate.
  - intros [Hna Hnb]. apply cmpInField_signed; assumption.
Qed.

Lemma cmpInField_signed_iff_witness :
  (Z.odd 13 = true /\ 0 <= 12 < 13 /\ 0 <= 6 < 13) /\
  (cmpInField 12 6 13 = Cmp (signed 13 12) (signed 13 6)
   <-> ~ (12 = Z.shiftr 13 1 /\ Z.shiftr 13 1 < 6) /\
       ~ (6 = Z.shiftr 13 1 /\ Z.shiftr 13 1 < 12)).
Proof.
  split; [repeat split; lia|].
  apply (cmpInField_signed_iff 13 12 6); [reflexivity | lia | lia].
Defined.

(** ** The constructor *)

Lemma NewBoundedComparator_deterministic_Ok (P absDiffUpp : Z) (cmp : BoundedComparator) :
  NewBoundedComparator P absDiffUpp false = Ok cmp ->
  2 ^ (BitLen absDiffUpp + 1) + 1 <= P.
Proof.
  rewrite NewBoundedComparator_unfold.
  repeat destruct (decide _); try discriminate. intros _.
  destruct (Z.le_gt_cases (2 ^ (BitLen absDiffUpp + 1) + 1) P); [assumption|].
  exfalso. tauto.
Qed.

(** X2: a bound the constructor accepts, in either mode, is positive,
    fits in absDiffUppBitLen bits, lies below P >> 1, and leaves
    2^absDiffUppBitLen <= P - absDiffUpp - 1; a bound accepted with
    allowNonDeterminism = false also has 2^(absDiffUppBitLen+1) + 1 <= P
    and is accepted, with the same comparator, when the flag is true. *)
Theorem NewBoundedComparator_accepted_bound (P absDiffUpp : Z) (allowNonDeterminism : bool)
  (cmp : BoundedComparator) :
  NewBoundedComparator P absDiffUpp allowNonDeterminism = Ok cmp ->
  0 < absDiffUpp < 2 ^ absDiffUppBitLen cmp /\
  2 ^ absDiffUppBitLen cmp <= P - absDiffUpp - 1 /\
  absDiffUpp < Z.shiftr P 1 /\
  (allowNonDeterminism = false -> 2 ^ (absDiffUppBitLen cmp + 1) + 1 <= P) /\
  NewBoundedComparator P absDiffUpp true = Ok cmp.
Proof.
  intros Hnew.
  destruct (NewBoundedComparator_Ok _ _ _ _ Hnew) as (-> & HD & Hsep).
  cbn [absDiffUppBitLen].
  pose proof (BitLen_upper absDiffUpp ltac:(lia)) as Hfit.
  split; [lia|]. split; [exact Hsep|]. split; [|split].
  - rewrite shiftr_1_half. Z.div_mod_to_equations. lia.
  - intros ->. apply (NewBoundedComparator_deterministic_Ok _ _ _ Hnew).
  - rewrite NewBoundedComparator_unfold in *.
    repeat destruct (decide _); try discriminate; try reflexivity;
      exfalso; intuition discriminate.
Qed.

Lemma NewBoundedComparator_accepted_bound_witness :
  NewBoundedComparator 13 2 false = Ok {| absDiffUppBitLen := 2 |} /\
  0 < 2 < 2 ^ 2 /\
  2 ^ 2 <= 13 - 2 - 1 /\
  2 < Z.shiftr 13 1 /\
  (false = false -> 2 ^ (2 + 1) + 1 <= 13) /\
  NewBoundedComparator 13 2 true = Ok {| absDiffUppBitLen := 2 |}.
Proof.
  split; [reflexivity|].
  exact (NewBoundedComparator_accepted_bound 13 2 false {| absDiffUppBitLen := 2 |} eq_refl).
Defined.

(** X3: the constructor of bounded.csgo behaves, for every field order
    and bound, as the transpiled constructor called with
    allowNonDeterminism = true. *)
Theorem NewBoundedComparator_csgo_allows_nondeterminism (P absDiffUpp : Z) :
  NewBoundedComparator_csgo P absDiffUpp = NewBoundedComparator P absDiffUpp true.
Proof.
  unfold NewBoundedComparator_csgo, NewBoundedComparator. cbv zeta.
  destruct (negb (Cmp absDiffUpp 0 =? 1) || negb (Cmp absDiffUpp P =? -1)); [reflexivity|].
  destruct (BitLen (P - absDiffUpp - 1) <=? BitLen absDiffUpp); reflexivity.
Qed.

(** With allowNonDeterminism = true the constructor accepts bounds under
    which a comparison has two solutions: P = 13 and absDiffUpp = 4. *)
Example nondeterminism_allowed :
  NewBoundedComparator 13 4 true = Ok {| absDiffUppBitLen := 3 |} /\
  (exists msg, NewBoundedComparator 13 4 false = Panic msg) /\
  exists r s',
    call {| absDiffUppBitLen := 3 |} (IsLess (Wire 0) (Wire 1)) (fresh_system 2)
    = Returned r s' /\
    forallb (holds 13 (set_wire (inputs_witness [5; 0]) 2 0)) (constraints s') = true /\
    forallb (holds 13 (set_wire (inputs_witness [5; 0]) 2 1)) (constraints s') = true.
Proof.
  split; [reflexivity|]. split; [eexists; reflexivity|].
  do 2 eexists. repeat split; reflexivity.
Qed.

(** ** When the hint functions panic *)

Lemma index_out_of_range {A} (l : list A) (i : nat) :
  (length l <= i)%nat -> index l (Z.of_nat i) = Panic "index out of range".
Proof.
  intros Hi. unfold index. destruct (Z.ltb_spec (Z.of_nat i) 0); [reflexivity|].
  rewrite Nat2Z.id, (lookup_ge_None_2 l i Hi). reflexivity.
Qed.

Lemma mapIndicators_loop_panics (key : Z) (inputs : list Z) (from count : nat)
  (res : list Z) :
  (from <= length inputs < from + count)%nat ->
  (from + count <= length res)%nat ->
  for_range from count
    (fun i res =>
       inputs_i ← index inputs (Z.of_nat i);
       if Cmp key inputs_i =? 0 then set_at res i 1 else set_at res i 0)
    res
  = Panic "index out of range".
Proof.
  revert from res. induction count as [|count IH]; intros from res Hin Hres; [lia|].
  cbn [for_range].
  destruct (decide (from = length inputs)) as [->|Hne].
  - rewrite index_out_of_range by lia. reflexivity.
  - destruct (lookup_lt_is_Some_2 inputs from ltac:(lia)) as [x Hx].
    rewrite (index_lookup _ _ _ Hx). cbn [mbind go_bind].
    assert (Hset : forall v, set_at res from v = Ok (<[from:=v]> res)).
    { intros v. unfold set_at. destruct (decide (from < length res)%nat); [reflexivity | lia]. }
    destruct (Cmp key x =? 0); rewrite Hset; apply IH; rewrite ?length_insert; lia.
Qed.

Lemma nonempty_snoc {A} (l : list A) : l <> [] -> exists l' x, l = l' ++ [x].
Proof.
  intros Hne. destruct (exists_last Hne) as (l' & x & ->). eauto.
Qed.

(** X4: the hint functions panic exactly when their slices are too short:
    muxIndicators when it has no input; mapIndicators when it has no input
    or more output slots than inputs; minOutputHint and isLessOutputHint
    when they have fewer than two inputs or no output slot.  In every other
    case they return a nil error. *)
Theorem hints_panic_exactly (P : Z) (inputs results : list Z) :
  ((exists msg, muxIndicators P inputs results = Panic msg) <-> inputs = []) /\
  ((exists msg, mapIndicators P inputs results = Panic msg)
   <-> inputs = [] \/ (length inputs < length results)%nat) /\
  ((exists msg, minOutputHint P inputs results = Panic msg)
   <-> (length inputs < 2)%nat \/ results = []) /\
  ((exists msg, isLessOutputHint P inputs results = Panic msg)
   <-> (length inputs < 2)%nat \/ results = []) /\
  (forall (hint : hint_function) out err,
      hint = muxIndicators \/ hint = mapIndicators \/
      hint = minOutputHint \/ hint = isLessOutputHint ->
      hint P inputs results = Ok (out, err) -> err = None /\ length out = length results).
Proof.
  split; [|split; [|split; [|split]]].
  - split.
    + intros [msg Hp]. destruct inputs as [|sel rest]; [reflexivity|].
      rewrite muxIndicators_eq in Hp. discriminate.
    + intros ->. eexists. reflexivity.
  - split.
    + intros [msg Hp]. destruct inputs as [|x rest]; [left; reflexivity|]. right.
      destruct (le_lt_dec (length results) (length (x :: rest))) as [Hle|Hlt]; [|exact Hlt].
      destruct (nonempty_snoc (x :: rest) ltac:(discriminate)) as (keys & key & Heq).
      rewrite Heq in Hp, Hle. rewrite mapIndicators_eq in Hp by exact Hle. discriminate.
    + intros [->|Hlt]; [eexists; reflexivity|].
      destruct inputs as [|x rest]; [eexists; reflexivity|].
      destruct (nonempty_snoc (x :: rest) ltac:(discriminate)) as (keys & key & Heq).
      rewrite Heq in *. unfold mapIndicators. rewrite index_last. cbn [mbind go_bind].
      rewrite mapIndicators_loop_panics by lia. eexists. reflexivity.
  - split.
    + intros [msg Hp]. destruct inputs as [|a [|b rest]]; try (left; cbn; lia).
      destruct results as [|r results]; [right; reflexivity|].
      exfalso. unfold minOutputHint in Hp.
      change (index (a :: b :: rest) 0) with (Ok a) in Hp.
      change (index (a :: b :: rest) 1) with (Ok b) in Hp.
      cbn [mbind go_bind] in Hp. destruct (cmpInField a b P =? -1); discriminate.
    + intros [Hlt| ->].
      * destruct inputs as [|a [|b rest]]; [| |cbn in Hlt; lia]; eexists; reflexivity.
      * destruct inputs as [|a [|b rest]]; try (eexists; reflexivity).
        unfold minOutputHint.
        change (index (a :: b :: rest) 0) with (Ok a).
        change (index (a :: b :: rest) 1) with (Ok b).
        cbn [mbind go_bind]. destruct (cmpInField a b P =? -1); eexists; reflexivity.
  - split.
    + intros [msg Hp]. destruct inputs as [|a [|b rest]]; try (left; cbn; lia).
      destruct results as [|r results]; [right; reflexivity|].
      exfalso. unfold isLessOutputHint in Hp.
      change (index (a :: b :: rest) 0) with (Ok a) in Hp.
      change (index (a :: b :: rest) 1) with (Ok b) in Hp.
      cbn [mbind go_bind] in Hp. destruct (cmpInField a b P =? -1); discriminate.
    + intros [Hlt| ->].
      * destruct inputs as [|a [|b rest]]; [| |cbn in Hlt; lia]; eexists; reflexivity.
      * destruct inputs as [|a [|b rest]]; try (eexists; reflexivity).
        unfold isLessOutputHint.
        change (index (a :: b :: rest) 0) with (Ok a).
        change (index (a :: b :: rest) 1) with (Ok b).
        cbn [mbind go_bind]. destruct (cmpInField a b P =? -1); eexists; reflexivity.
  - intros hint out err Hhint Hret.
    destruct Hhint as [->|[->|[->| ->]]].
    + destruct inputs as [|sel rest]; [discriminate|].
      rewrite muxIndicators_eq in Hret. injection Hret as <- <-.
      rewrite length_fmap, length_seq. auto.
    + destruct inputs as [|x rest]; [discriminate|].
      destruct (nonempty_snoc (x :: rest) ltac:(discriminate)) as (keys & key & Heq).
      rewrite Heq in *.
      destruct (le_lt_dec (length results) (length (keys ++ [key]))) as [Hle|Hlt].
      * rewrite mapIndicators_eq in Hret by exact Hle. injection Hret as <- <-.
        rewrite length_fmap, length_seq. auto.
      * unfold mapIndicators in Hret. rewrite index_last in Hret.
        cbn [mbind go_bind] in Hret.
        rewrite mapIndicators_loop_panics in Hret by lia. discriminate.
    + destruct inputs as [|a [|b rest]]; try discriminate.
      destruct results as [|r results].
      * unfold minOutputHint in Hret.
        change (index (a :: b :: rest) 0) with (Ok a) in Hret.
        change (index (a :: b :: rest) 1) with (Ok b) in Hret.
        cbn [mbind go_bind] in Hret. destruct (cmpInField a b P =? -1); discriminate.
      * unfold minOutputHint in Hret.
        change (index (a :: b :: rest) 0) with (Ok a) in Hret.
        change (index (a :: b :: rest) 1) with (Ok b) in Hret.
        cbn [mbind go_bind] in Hret.
        destruct (cmpInField a b P =? -1); injection Hret as <- <-; auto.
    + destruct inputs as [|a [|b rest]]; try discriminate.
      destruct results as [|r results].
      * unfold isLessOutputHint in Hret.
        change (index (a :: b :: rest) 0) with (Ok a) in Hret.
        change (index (a :: b :: rest) 1) with (Ok b) in Hret.
        cbn [mbind go_bind] in Hret. destruct (cmpInField a b P =? -1); discriminate.
      * unfold isLessOutputHint in Hret.
        change (index (a :: b :: rest) 0) with (Ok a) in Hret.
        change (index (a :: b :: rest) 1) with (Ok b) in Hret.
        cbn [mbind go_bind] in Hret.
        destruct (cmpInField a b P =? -1); injection Hret as <- <-; auto.
Qed.

Lemma hints_panic_exactly_witness :
  (exists msg, mapIndicators 13 [3; 7] [0; 0; 0] = Panic msg) /\
  mapIndicators 13 [3; 7] [0; 0] = Ok ([0; 1], None).
Proof.
  destruct (hints_panic_exactly 13 [3; 7] [0; 0; 0]) as (_ & Hmap & _).
  split; [apply Hmap; right; cbn; lia | reflexivity].
Defined.

(** ** The constraint system only grows *)

Lemma extends_refl (s : constraint_system) : extends s s.
Proof. split; [lia|]. split; exists []; reflexivity. Qed.

Lemma extends_trans (s1 s2 s3 : constraint_system) :
  extends s1 s2 -> extends s2 s3 -> extends s1 s3.
Proof.
  intros (Hn12 & [hs12 Hh12] & [cs12 Hc12]) (Hn23 & [hs23 Hh23] & [cs23 Hc23]).
  split; [lia|]. split.
  - exists (hs23 ++ hs12). rewrite Hh23, Hh12, app_assoc. reflexivity.
  - exists (cs23 ++ cs12). rewrite Hc23, Hc12, app_assoc. reflexivity.
Qed.

Lemma only_appends_mret {A} (a : A) : only_appends (mret a).
Proof. intros s. apply extends_refl. Qed.

Lemma only_appends_panic {A} (msg : string) : only_appends (@panic constraint_system A msg).
Proof. intros s. apply extends_refl. Qed.

Lemma only_appends_at_index {A} (l : list A) (i : Z) :
  only_appends (@at_index constraint_system A l i).
Proof. intros s. unfold at_index. destruct (index l i); apply extends_refl. Qed.

Lemma only_appends_emit (c : constraint) : only_appends (emit c).
Proof.
  intros s. split; [cbn; lia|]. split; [exists []; reflexivity | exists [c]; reflexivity].
Qed.

Lemma only_appends_NewHint (f : hint_function) (n : nat) (inputs : list csv) :
  only_appends (NewHint f n inputs).
Proof.
  intros s. split; [cbn; lia|]. split; [eexists [_]; reflexivity | exists []; reflexivity].
Qed.

Lemma only_appends_bind {A B} (c : circuit A) (f : A -> circuit B) :
  only_appends c -> (forall a, only_appends (f a)) -> only_appends (c ≫= f).
Proof.
  intros Hc Hf s. unfold mbind, M_bind. specialize (Hc s).
  destruct (c s) as [a s1|msg s1]; cbn [final_state] in *.
  - apply (extends_trans s s1); [exact Hc | apply Hf].
  - exact Hc.
Qed.

Lemma only_appends_for_loop {A} (body : nat -> A -> circuit A) (from count : nat) (acc : A) :
  (forall i acc', only_appends (body i acc')) ->
  only_appends (for_loop from count body acc).
Proof.
  intros Hbody. revert from acc.
  induction count as [|count IH]; intros from acc; cbn [for_loop].
  - apply only_appends_mret.
  - apply only_appends_bind; [apply Hbody | intros acc'; apply IH].
Qed.

Ltac appends :=
  repeat first
    [ apply only_appends_bind
    | apply only_appends_for_loop
    | apply only_appends_NewHint
    | apply only_appends_emit
    | apply only_appends_at_index
    | apply only_appends_panic
    | apply only_appends_mret
    | match goal with
      | |- forall _ : _ * _, _ => intros [? ?]
      | |- forall _, _ => intro
      | |- only_appends (if ?b then _ else _) => destruct b
      end ].

Lemma only_appends_generateSelector (wantMux : bool) (sel : csv) (keys values : slice) :
  only_appends (generateSelector wantMux sel keys values).
Proof.
  unfold generateSelector, Select, AssertIsEqual, append. cbv beta iota zeta. appends.
Qed.

(** X5: Map, Mux and the five comparator operations, whether they return
    or panic, leave every wire, hint and constraint that was in the
    constraint system before the call in place and only add new ones. *)
Theorem operations_only_append (self : BoundedComparator) (sel a b : csv)
  (keys values : slice) (inputs : list csv) :
  only_appends (Map sel keys values) /\
  only_appends (Mux sel inputs) /\
  only_appends (call self (AssertIsLessEq a b)) /\
  only_appends (call self (AssertIsLess a b)) /\
  only_appends (call self (IsLess a b)) /\
  only_appends (call self (IsLessEq a b)) /\
  only_appends (call self (Min a b)).
Proof.
  split; [|split; [|split; [|split; [|split; [|split]]]]].
  - unfold Map. destruct (decide _);
      [apply only_appends_panic | apply only_appends_generateSelector].
  - apply only_appends_generateSelector.
  - intros s. rewrite call_AssertIsLessEq. cbn [final_state].
    split; [cbn; lia|]. split; [exists [] | eexists]; reflexivity.
  - intros s. rewrite call_AssertIsLess. cbn [final_state].
    split; [cbn; lia|]. split; [exists [] | eexists]; reflexivity.
  - intros s. rewrite call_IsLess. cbn [final_state].
    split; [cbn; lia|]. split; [eexists [_] | eexists]; reflexivity.
  - intros s. rewrite call_IsLessEq, call_IsLess. cbn [final_state].
    split; [cbn; lia|]. split; [eexists [_] | eexists]; reflexivity.
  - intros s. rewrite call_Min. cbn [final_state].
    split; [cbn; lia|]. split; [eexists [_] | eexists]; reflexivity.
Qed.

(** ** generateSelector with keys and values of different lengths *)

Lemma for_loop_app {St A : Type} (body : nat -> A -> M St A) (from c1 c2 : nat) (acc : A)
  (s : St) :
  for_loop from (c1 + c2) body acc s
  = (for_loop from c1 body acc ≫= for_loop (from + c1) c2 body) s.
Proof.
  revert from acc s. induction c1 as [|c1 IH]; intros from acc s.
  - cbn. rewrite Nat.add_0_r. reflexivity.
  - cbn [Nat.add for_loop]. unfold mbind, M_bind.
    destruct (body from acc s) as [acc' s'|msg s']; [|reflexivity].
    rewrite IH. unfold mbind, M_bind.
    replace (S from + c1)%nat with (from + S c1)%nat by lia. reflexivity.
Qed.

(** With more keys than values the loop panics when it reads
    values[len(values)], after the zero-product constraint of that
    round. *)
Lemma selector_loop_short_values {B : Type} (sel : csv) (indicators keys values : list csv)
  (body : nat -> csv * csv -> circuit (csv * csv)) (rest : csv * csv -> circuit B)
  (s : constraint_system) :
  body = (fun i '(indicatorsSum, out) =>
            indicators_i ← at_index indicators (Z.of_nat i);
            _ ← (if false
                 then AssertIsEqual (Mul indicators_i (Sub sel (Const (Z.of_nat i)))) (Const 0)
                 else keys_i ← at_index keys (Z.of_nat i);
                      AssertIsEqual (Mul indicators_i (Sub sel keys_i)) (Const 0));
            let indicatorsSum := Add indicatorsSum indicators_i in
            values_i ← at_index values (Z.of_nat i);
            let out := Add out (Mul indicators_i values_i) in
            mret (indicatorsSum, out)) ->
  (length values < length keys)%nat ->
  length indicators = length keys ->
  exists s',
    (for_loop 0 (length indicators) body (Const 0, Const 0) ≫= rest) s
    = Panicked "index out of range" s' /\
    nb_wires s' = nb_wires s /\
    hints s' = hints s /\
    length (constraints s') = (length (constraints s) + length values + 1)%nat.
Proof.
  intros Hbody Hlt Hind_len.
  assert (Hlen : length indicators
                 = (length values + S (length keys - S (length values)))%nat) by lia.
  unfold mbind at 1, M_bind.
  rewrite Hlen, for_loop_app.
  unfold mbind at 1, M_bind.
  erewrite (selector_loop false sel indicators keys values); [|exact Hbody|..];
    try (intros _); try lia.
  cbn [for_loop]. unfold mbind at 1, M_bind.
  assert (Hind := nth_csv_lookup indicators (length values) ltac:(lia)).
  assert (Hkey := nth_csv_lookup keys (length values) ltac:(lia)).
  rewrite Nat.add_0_l. rewrite Hbody.
  unfold mbind at 1, M_bind.
  rewrite (at_index_lookup indicators _ _ _ Hind).
  unfold mbind at 1, M_bind. unfold mbind at 1, M_bind.
  rewrite (at_index_lookup keys _ _ _ Hkey).
  unfold AssertIsEqual at 1, emit at 1.
  unfold at_index at 1. rewrite index_out_of_range by lia. unfold panic.
  eexists. split; [reflexivity|]. split; [reflexivity|]. split; [reflexivity|].
  cbn [constraints add_constraints length].
  rewrite length_app, length_reverse, length_fmap, length_seq. lia.
Qed.

(** X6: in map mode generateSelector returns whenever there are no more
    keys than values, as its comment says; with more keys than values it
    panics on values[len(values)], after it has allocated the hint and
    emitted len(values) + 1 zero-product constraints. *)
Theorem generateSelector_map_lengths (sel : csv) (keys values : slice)
  (s : constraint_system) :
  ((length (elems keys) <= length (elems values))%nat ->
   exists out indicators s',
     generateSelector false sel keys values s = Returned (out, indicators) s' /\
     length indicators = length (elems keys)) /\
  ((length (elems values) < length (elems keys))%nat ->
   exists s',
     generateSelector false sel keys values s = Panicked "index out of range" s' /\
     hints s' = HintCall mapIndicators (elems keys ++ [sel])
                  (seq (nb_wires s) (length (elems keys)))
                :: hints s /\
     length (constraints s') = (length (constraints s) + length (elems values) + 1)%nat).
Proof.
  split.
  - intros Hle. rewrite generateSelector_eq by (try discriminate; intros _; exact Hle).
    do 3 eexists. split; [reflexivity|]. rewrite length_fmap, length_seq. reflexivity.
  - intros Hlt. unfold generateSelector. cbv zeta. unfold append at 1.
    unfold mbind at 1, M_bind. unfold NewHint at 1.
    edestruct (selector_loop_short_values (B := csv * list csv) sel
                 (Wire <$> seq (nb_wires s) (length (elems keys)))
                 (elems (after_write (snd (append keys sel)) sel keys))
                 (values_read sel keys values))
      as (s' & Hrun & _ & Hhints & Hcs); [reflexivity | | |].
    + rewrite append_keeps_keys, values_read_length. exact Hlt.
    + rewrite append_keeps_keys, length_fmap, length_seq. reflexivity.
    + exists s'. split; [exact Hrun|]. split; [exact Hhints|].
      rewrite Hcs, values_read_length. reflexivity.
Qed.

Lemma generateSelector_map_lengths_witness :
  let one := Slice 0 [Wire 1] 1 in
  let two := Slice 1 [Wire 2; Wire 3] 2 in
  ((length (elems one) <= length (elems two))%nat /\
   exists out indicators s',
     generateSelector false (Wire 0) one two (fresh_system 4)
     = Returned (out, indicators) s' /\
     length indicators = length (elems one)) /\
  ((length (elems one) < length (elems two))%nat /\
   exists s',
     generateSelector false (Wire 0) two one (fresh_system 4)
     = Panicked "index out of range" s' /\
     hints s' = HintCall mapIndicators (elems two ++ [Wire 0])
                  (seq (nb_wires (fresh_system 4)) (length (elems two)))
                :: hints (fresh_system 4) /\
     length (constraints s')
     = (length (constraints (fresh_system 4)) + length (elems one) + 1)%nat).
Proof.
  intros one two. split.
  - split; [cbn; lia|].
    apply (proj1 (generateSelector_map_lengths (Wire 0) one two (fresh_system 4))).
    cbn. lia.
  - split; [cbn; lia|].
    apply (proj2 (generateSelector_map_lengths (Wire 0) two one (fresh_system 4))).
    cbn. lia.
Defined.

(** ** Selectors that cannot be proved *)

Section Unsatisfiable.
Variable P : Z.
Variable w : witness.
Hypothesis P_prime : Z.prime P.

Lemma prime_gt_1 : 1 < P.
Proof. destruct P_prime. assumption. Qed.

(** A zero-product constraint forces the indicator of a candidate that
    differs from the selector to 0. *)
Lemma selector_indicator_zero (wantMux : bool) (sel : csv) (indicators keys : list csv)
  (i : nat) :
  holds P w (selector_constraint wantMux sel indicators keys i) = true ->
  eval P w (selector_key wantMux keys i) <> eval P w sel ->
  eval P w (nth_csv indicators i) = 0.
Proof.
  intros Hprod Hne. pose proof prime_gt_1 as HP1.
  unfold selector_constraint in Hprod. cbn [holds eval] in Hprod.
  apply Z.eqb_eq in Hprod. rewrite (Z.mod_0_l P) in Hprod by lia.
  apply field_zero_product in Hprod;
    [exact Hprod | lia | exact P_prime | apply eval_range; lia | |].
  - apply Z.mod_pos_bound. lia.
  - rewrite field_sub_zero by (try apply eval_range; lia).
    intros Heq. apply Hne. symmetry. exact Heq.
Qed.

Lemma selector_without_match_unsatisfiable (wantMux : bool) (sel : csv)
  (indicators keys : list csv) (n : nat) :
  (forall i, (i < n)%nat -> eval P w (selector_key wantMux keys i) <> eval P w sel) ->
  ~ satisfies P w
      (CEqual (selector_sum indicators (Const 0) (seq 0 n)) (Const 1)
       :: reverse (selector_constraint wantMux sel indicators keys <$> seq 0 n)).
Proof.
  intros Hne Hsat. pose proof prime_gt_1 as HP1.
  apply satisfies_cons in Hsat. destruct Hsat as [Hsum Hprod].
  rewrite satisfies_rev_fmap_seq in Hprod.
  cbn [holds] in Hsum. apply Z.eqb_eq in Hsum.
  rewrite eval_selector_sum in Hsum by lia. cbn [eval] in Hsum.
  rewrite Zsum_zero in Hsum.
  - rewrite (Z.mod_0_l P), Z.add_0_l, (Z.mod_0_l P), (Z.mod_small 1 P) in Hsum by lia.
    discriminate.
  - intros i Hi. apply elem_of_seq in Hi.
    apply (selector_indicator_zero wantMux sel indicators keys i);
      [apply Hprod; lia | apply Hne; lia].
Qed.

End Unsatisfiable.

(** X7: when no key equals queryKey, no assignment satisfies the
    constraints Map emits (this includes the empty map), so no proof can
    be generated. *)
Theorem Map_missing_key_unsatisfiable (P : Z) (w : witness) (queryKey : csv)
  (keys values : slice) (s : constraint_system) :
  Z.prime P ->
  length (elems keys) = length (elems values) ->
  (forall i key, elems keys !! i = Some key -> eval P w key <> eval P w queryKey) ->
  exists out indicators s',
    Map queryKey keys values s = Returned (out, indicators) s' /\
    ~ solutions P s s' w.
Proof.
  intros HP Hlen Hmiss. unfold solutions.
  rewrite Map_eq by exact Hlen.
  do 3 eexists. split; [reflexivity|].
  erewrite emitted_app by (cbn [constraints]; rewrite app_comm_cons; reflexivity).
  apply selector_without_match_unsatisfiable; [exact HP|].
  intros i Hi. cbn [selector_key]. apply (Hmiss i). apply nth_csv_lookup. exact Hi.
Qed.

Lemma Map_missing_key_unsatisfiable_witness :
  let w := inputs_witness [8; 3; 7; 9; 30; 70; 90; 0; 0; 0] in
  exists out indicators s',
    Map (Wire 0) (Slice 0 [Wire 1; Wire 2; Wire 3] 3) (Slice 3 [Wire 4; Wire 5; Wire 6] 3)
      (fresh_system 7)
    = Returned (out, indicators) s' /\
    ~ solutions 13 (fresh_system 7) s' w.
Proof.
  intros w.
  apply (Map_missing_key_unsatisfiable 13 w (Wire 0) (Slice 0 [Wire 1; Wire 2; Wire 3] 3)
           (Slice 3 [Wire 4; Wire 5; Wire 6] 3) (fresh_system 7) prime_13 eq_refl).
  intros i key Hi.
  destruct i as [|[|[|i]]]; cbn in Hi; try discriminate;
    injection Hi as <-; vm_compute; discriminate.
Defined.

(** X8: when the value of sel is not below the number of inputs, no
    assignment satisfies the constraints Mux emits, for any number of
    inputs (with two inputs because the Select condition is not a bit). *)
Theorem Mux_selector_out_of_range (P : Z) (w : witness) (sel : csv) (inputs : list csv)
  (s : constraint_system) :
  Z.prime P ->
  Z.of_nat (length inputs) <= eval P w sel ->
  exists out indicators s',
    Mux sel inputs s = Returned (out, indicators) s' /\
    ~ solutions P s s' w.
Proof.
  intros HP Hout. unfold solutions.
  assert (HP1 : 1 < P) by (destruct HP; assumption).
  pose proof (eval_range P w ltac:(lia) sel) as Hsel.
  destruct (decide (length inputs = 2%nat)) as [H2|H2].
  - destruct inputs as [|x0 [|x1 [|x2 rest]]]; try discriminate.
    rewrite Mux_two_inputs. do 3 eexists. split; [reflexivity|].
    rewrite emitted_add_constraints. intros Hsat.
    apply satisfies_cons in Hsat. destruct Hsat as [Hbool _].
    cbn [holds length] in *. apply orb_true_iff in Hbool.
    rewrite !Z.eqb_eq in Hbool. lia.
  - rewrite Mux_eq by exact H2.
    do 3 eexists. split; [reflexivity|].
    erewrite emitted_app by (cbn [constraints]; rewrite app_comm_cons; reflexivity).
    apply selector_without_match_unsatisfiable; [exact HP|].
    intros i Hi. cbn [selector_key eval]. rewrite Z.mod_small by lia. lia.
Qed.

Lemma Mux_selector_out_of_range_witness :
  let w := inputs_witness [3; 10; 20; 30; 0; 0; 1] in
  exists out indicators s',
    Mux (Wire 0) [Wire 1; Wire 2; Wire 3] (fresh_system 4) = Returned (out, indicators) s' /\
    ~ solutions 13 (fresh_system 4) s' w.
Proof.
  intros w.
  apply (Mux_selector_out_of_range 13 w (Wire 0) [Wire 1; Wire 2; Wire 3] (fresh_system 4)
           prime_13).
  vm_compute. discriminate.
Defined.

(** ** What the solver computes for the selectors *)

Lemma assign_seq (w : witness) (nb : nat) (vals : list Z) (j : nat) :
  assign w (seq nb (length vals)) vals j
  = if decide (nb <= j < nb + length vals)%nat then default 0 (vals !! (j - nb)%nat) else w j.
Proof.
  revert w nb. induction vals as [|v vals IH]; intros w nb; cbn [length seq assign].
  - destruct (decide _); [lia | reflexivity].
  - rewrite IH. unfold set_wire.
    destruct (decide (S nb <= j < S nb + length vals)%nat) as [Hin|Hout].
    + destruct (decide (nb <= j < nb + S (length vals))%nat); [|lia].
      replace (j - nb)%nat with (S (j - S nb)) by lia. reflexivity.
    + destruct (decide (j = nb)) as [->|Hne].
      * destruct (decide (nb <= nb < nb + S (length vals))%nat); [|lia].
        rewrite Nat.sub_diag. reflexivity.
      * destruct (decide (nb <= j < nb + S (length vals))%nat); [lia | reflexivity].
Qed.

Lemma eval_ext_scoped (P : Z) (w1 w2 : witness) (n : nat) (v : csv) :
  (forall id, (id < n)%nat -> w1 id = w2 id) -> scoped n v -> eval P w1 v = eval P w2 v.
Proof.
  intros Hagree.
  induction v as [c|id|v1 IH1 v2 IH2|v1 IH1 v2 IH2|v1 IH1 v2 IH2|v1 IH1 v2 IH2 v3 IH3];
    cbn [scoped eval]; intros Hs.
  - reflexivity.
  - rewrite Hagree by exact Hs. reflexivity.
  - destruct Hs. rewrite IH1, IH2 by assumption. reflexivity.
  - destruct Hs. rewrite IH1, IH2 by assumption. reflexivity.
  - destruct Hs. rewrite IH1, IH2 by assumption. reflexivity.
  - destruct Hs as (? & ? & ?). rewrite IH1, IH2, IH3 by assumption. reflexivity.
Qed.

(** Filling [n] fresh wires from [nb] on with the values [f 0 .. f (n-1)]. *)
Lemma assign_fresh (P : Z) (w : witness) (nb n : nat) (f : nat -> Z) :
  let w' := assign w (seq nb n) (f <$> seq 0 n) in
  (forall i, (i < n)%nat -> w' (nb + i)%nat = f i) /\
  (forall v, scoped nb v -> eval P w' v = eval P w v).
Proof.
  intros w'.
  assert (Hw' : forall j, w' j = if decide (nb <= j < nb + n)%nat
                                 then f (j - nb)%nat else w j).
  { intros j. subst w'.
    replace (seq nb n) with (seq nb (length (f <$> seq 0 n)))
      by (rewrite length_fmap, length_seq; reflexivity).
    rewrite assign_seq, length_fmap, length_seq.
    destruct (decide _) as [Hin|]; [|reflexivity].
    rewrite lookup_fmap_seq_0 by lia. reflexivity. }
  split.
  - intros i Hi. rewrite Hw'. destruct (decide _); [|lia]. f_equal. lia.
  - intros v Hv. apply (eval_ext_scoped P w' w nb); [|exact Hv].
    intros id Hid. rewrite Hw'. destruct (decide _); [lia | reflexivity].
Qed.

Lemma run_hint_muxIndicators (P : Z) (w : witness) (sel : csv) (nb n : nat) :
  run_hint P w (HintCall muxIndicators [sel] (seq nb n))
  = Ok (assign w (seq nb n)
          ((fun i => indicator (eval P w sel =? Z.of_nat i)) <$> seq 0 n)).
Proof.
  unfold run_hint. cbn [hc_function hc_inputs hc_outputs fmap list_fmap].
  rewrite muxIndicators_eq, length_replicate, length_seq. reflexivity.
Qed.

Lemma run_hint_mapIndicators (P : Z) (w : witness) (sel : csv) (keys : list csv) (nb : nat) :
  run_hint P w (HintCall mapIndicators (keys ++ [sel]) (seq nb (length keys)))
  = Ok (assign w (seq nb (length keys))
          ((fun i => indicator (eval P w sel =? eval P w (nth_csv keys i)))
             <$> seq 0 (length keys))).
Proof.
  unfold run_hint. cbn [hc_function hc_inputs hc_outputs].
  rewrite fmap_app. cbn [fmap list_fmap].
  change (list_fmap csv Z (eval P w) keys) with (eval P w <$> keys).
  rewrite mapIndicators_eq
    by (rewrite length_replicate, length_seq, length_app, length_fmap; lia).
  rewrite length_replicate, length_seq. cbn [mbind go_bind].
  f_equal. f_equal. apply list_eq. intros i.
  rewrite !list_lookup_fmap.
  destruct (seq 0 (length keys) !! i) as [j|] eqn:Hj; [|reflexivity].
  apply lookup_seq in Hj. destruct Hj as [-> Hlt]. cbn [fmap option_fmap option_map].
  rewrite lookup_app_l by (rewrite length_fmap; lia).
  change (0 + i)%nat with i.
  rewrite list_lookup_fmap, (nth_csv_lookup keys i Hlt). reflexivity.
Qed.

(** The unit vector at [k] on the indicators satisfies the selector's
    constraints when candidate [k] matches, and makes the output the
    value of candidate [k]. *)
Lemma unit_vector_satisfies (P : Z) (w : witness) (wantMux : bool) (sel : csv)
  (indicators keys values : list csv) (n k : nat) :
  1 < P -> (k < n)%nat ->
  (forall i, (i < n)%nat ->
             eval P w (nth_csv indicators i) = if decide (i = k) then 1 else 0) ->
  eval P w (selector_key wantMux keys k) = eval P w sel ->
  satisfies P w
    (CEqual (selector_sum indicators (Const 0) (seq 0 n)) (Const 1)
     :: reverse (selector_constraint wantMux sel indicators keys <$> seq 0 n)) /\
  eval P w (selector_out indicators values (Const 0) (seq 0 n))
  = eval P w (nth_csv values k).
Proof.
  intros HP Hk Hind Hmatch.
  assert (Hpos : 0 < P) by lia.
  split.
  - apply satisfies_cons. split.
    + cbn [holds]. apply Z.eqb_eq. rewrite eval_selector_sum by exact Hpos.
      rewrite (Zsum_one_hot _ 0 n k); [| lia |].
      * rewrite Hind by exact Hk. destruct (decide (k = k)); [|contradiction].
        cbn [eval]. rewrite (Z.mod_0_l P) by lia. reflexivity.
      * intros i Hi Hik. rewrite Hind by lia. destruct (decide (i = k)); [contradiction|].
        reflexivity.
    + apply satisfies_rev_fmap_seq. intros i Hi.
      unfold selector_constraint. cbn [holds eval]. apply Z.eqb_eq.
      rewrite Hind by exact Hi. destruct (decide (i = k)) as [->|Hne].
      * rewrite Hmatch, Z.sub_diag, (Z.mod_0_l P) by lia. reflexivity.
      * rewrite Z.mul_0_l. reflexivity.
  - rewrite eval_selector_out by exact Hpos.
    rewrite (Zsum_one_hot _ 0 n k); [| lia |].
    + cbn [eval]. rewrite Hind by exact Hk. destruct (decide (k = k)); [|contradiction].
      rewrite Z.mul_1_l, (Z.mod_0_l P), Z.add_0_l, !eval_mod by lia. reflexivity.
    + intros i Hi Hik. cbn [eval]. rewrite Hind by lia.
      destruct (decide (i = k)); [contradiction|].
      rewrite Z.mul_0_l. apply Z.mod_0_l. lia.
Qed.

Lemma nth_csv_wires (nb n i : nat) :
  (i < n)%nat -> nth_csv (Wire <$> seq nb n) i = Wire (nb + i).
Proof.
  intros Hi. unfold nth_csv. rewrite list_lookup_fmap, lookup_seq_lt by exact Hi.
  reflexivity.
Qed.

(** X9: for any number of inputs, when the value of sel is an index
    k < n, the witness the solver computes (muxIndicators) satisfies the
    constraints Mux emitted, the indicators are the unit vector at k, the
    output is inputs[k], and no variable of the earlier circuit changes
    its value. *)
Theorem Mux_solver_accepts (P : Z) (w0 w : witness) (sel : csv) (inputs : list csv)
  (k : nat) (s : constraint_system) :
  1 < P ->
  solve P w0 s = Ok w ->
  scoped (nb_wires s) sel ->
  (k < length inputs)%nat ->
  eval P w sel = Z.of_nat k ->
  exists out indicators s' w',
    Mux sel inputs s = Returned (out, indicators) s' /\
    solve P w0 s' = Ok w' /\
    (forall v, scoped (nb_wires s) v -> eval P w' v = eval P w v) /\
    solutions P s s' w' /\
    (forall j ind, indicators !! j = Some ind ->
                   eval P w' ind = if decide (j = k) then 1 else 0) /\
    (forall inputs_k, inputs !! k = Some inputs_k -> eval P w' out = eval P w' inputs_k).
Proof.
  intros HP Hsolve Hsel Hk Hval. unfold solutions.
  pose proof (eval_range P w ltac:(lia) sel) as Hrange.
  destruct (decide (length inputs = 2%nat)) as [H2|H2].
  - destruct inputs as [|x0 [|x1 [|x2 rest]]]; try discriminate.
    rewrite Mux_two_inputs. do 3 eexists. exists w.
    split; [reflexivity|]. split; [exact Hsolve|]. split; [reflexivity|].
    rewrite emitted_add_constraints.
    destruct (Mux_two_inputs_selects P w sel x0 x1 HP) as [Hsat Hout].
    { cbn [length] in Hk. lia. }
    split; [exact Hsat|]. split; [intros j ind Hj; discriminate|].
    intros x Hx. rewrite Hout, Hval.
    destruct k as [|[|k]]; cbn in Hx, Hk; try lia; injection Hx as <-; reflexivity.
  - rewrite Mux_eq by exact H2.
    set (n := length inputs). set (nb := nb_wires s).
    set (f := fun i => indicator (eval P w sel =? Z.of_nat i)).
    destruct (assign_fresh P w nb n f) as [Hnew Hold].
    set (w' := assign w (seq nb n) (f <$> seq 0 n)) in *.
    assert (Hind : forall i, (i < n)%nat ->
               eval P w' (nth_csv (Wire <$> seq nb n) i) = if decide (i = k) then 1 else 0).
    { intros i Hi. rewrite nth_csv_wires by exact Hi. cbn [eval].
      rewrite Hnew by exact Hi. subst f. cbn beta. rewrite Hval.
      destruct (Z.eqb_spec (Z.of_nat k) (Z.of_nat i)); destruct (decide (i = k));
        try lia; cbn [indicator]; apply Z.mod_small; lia. }
    destruct (unit_vector_satisfies P w' true sel (Wire <$> seq nb n) [] inputs n k
                HP Hk Hind) as [Hsat Hout].
    { cbn [selector_key eval]. rewrite (Hold sel Hsel), Hval.
      apply Z.mod_small. lia. }
    do 3 eexists. exists w'.
    split; [reflexivity|].
    split; [|split; [exact Hold|split; [|split]]].
    + erewrite solve_step by reflexivity. rewrite Hsolve. cbn [mbind go_bind].
      apply run_hint_muxIndicators.
    + erewrite emitted_app by (cbn [constraints]; rewrite app_comm_cons; reflexivity).
      exact Hsat.
    + intros j ind Hj. destruct (lookup_nth_csv _ _ _ Hj) as [-> Hjn].
      rewrite length_fmap, length_seq in Hjn. apply Hind. exact Hjn.
    + intros x Hx. destruct (lookup_nth_csv _ _ _ Hx) as [-> _]. exact Hout.
Qed.

Lemma Mux_solver_accepts_witness :
  let w := inputs_witness [1; 10; 20; 30] in
  exists out indicators s' w',
    Mux (Wire 0) [Wire 1; Wire 2; Wire 3] (fresh_system 4) = Returned (out, indicators) s' /\
    solve 97 w s' = Ok w' /\
    (forall v, scoped (nb_wires (fresh_system 4)) v -> eval 97 w' v = eval 97 w v) /\
    solutions 97 (fresh_system 4) s' w' /\
    (forall j ind, indicators !! j = Some ind ->
                   eval 97 w' ind = if decide (j = 1%nat) then 1 else 0) /\
    (forall inputs_k, [Wire 1; Wire 2; Wire 3] !! 1%nat = Some inputs_k ->
                      eval 97 w' out = eval 97 w' inputs_k).
Proof.
  intros w.
  apply (Mux_solver_accepts 97 w w (Wire 0) [Wire 1; Wire 2; Wire 3] 1 (fresh_system 4));
    [lia | reflexivity | cbn; lia | cbn; lia | reflexivity].
Defined.

(** X10: when exactly one key equals queryKey, at index k, the witness
    the solver computes (mapIndicators) satisfies the constraints Map
    emitted, the indicators are the unit vector at k, no variable of the
    earlier circuit changes its value, and the output is the entry Map
    reads at index k after append(keys, queryKey): values[k], or queryKey
    when values[k] is the slot the append overwrote. *)
Theorem Map_solver_accepts (P : Z) (w0 w : witness) (queryKey : csv)
  (keys values : slice) (k : nat) (s : constraint_system) :
  1 < P ->
  solve P w0 s = Ok w ->
  scoped (nb_wires s) queryKey ->
  Forall (scoped (nb_wires s)) (elems keys) ->
  length (elems keys) = length (elems values) ->
  (forall i key, elems keys !! i = Some key ->
                 eval P w key = eval P w queryKey <-> i = k) ->
  (k < length (elems keys))%nat ->
  exists out indicators s' w',
    Map queryKey keys values s = Returned (out, indicators) s' /\
    solve P w0 s' = Ok w' /\
    (forall v, scoped (nb_wires s) v -> eval P w' v = eval P w v) /\
    solutions P s s' w' /\
    (forall j ind, indicators !! j = Some ind ->
                   eval P w' ind = if decide (j = k) then 1 else 0) /\
    (forall values_k, ~ overwrites keys values k ->
                      elems values !! k = Some values_k ->
                      eval P w' out = eval P w' values_k) /\
    (overwrites keys values k -> eval P w' out = eval P w' queryKey).
Proof.
  intros HP Hsolve Hsel Hkeys Hlen Hmatch Hk. unfold solutions.
  rewrite Map_eq by exact Hlen.
  set (n := length (elems keys)). set (nb := nb_wires s).
  set (f := fun i => indicator (eval P w queryKey =? eval P w (nth_csv (elems keys) i))).
  destruct (assign_fresh P w nb n f) as [Hnew Hold].
  set (w' := assign w (seq nb n) (f <$> seq 0 n)) in *.
  assert (Hind : forall i, (i < n)%nat ->
             eval P w' (nth_csv (Wire <$> seq nb n) i) = if decide (i = k) then 1 else 0).
  { intros i Hi. rewrite nth_csv_wires by exact Hi. cbn [eval].
    rewrite Hnew by exact Hi. subst f. cbn beta.
    pose proof (Hmatch i _ (nth_csv_lookup (elems keys) i Hi)) as Hiff.
    destruct (Z.eqb_spec (eval P w queryKey) (eval P w (nth_csv (elems keys) i)));
      destruct (decide (i = k)); cbn [indicator];
      try (apply Z.mod_small; lia); exfalso;
      match goal with
      | Hne : i <> k, Heq : _ = _ |- _ => exact (Hne (proj1 Hiff (eq_sym Heq)))
      | Hne : _ <> _, Heq : i = k |- _ => exact (Hne (eq_sym (proj2 Hiff Heq)))
      end. }
  destruct (unit_vector_satisfies P w' false queryKey (Wire <$> seq nb n) (elems keys)
              (values_read queryKey keys values) n k HP Hk Hind) as [Hsat Hout].
  { cbn [selector_key]. rewrite (Hold queryKey Hsel).
    rewrite Hold.
    - apply (Hmatch k). + apply nth_csv_lookup. exact Hk. + reflexivity.
    - rewrite Forall_lookup in Hkeys. apply (Hkeys k). apply nth_csv_lookup. exact Hk. }
  do 3 eexists. exists w'.
  split; [reflexivity|].
  split; [|split; [exact Hold|split; [|split; [|split]]]].
  - erewrite solve_step by reflexivity. rewrite Hsolve. cbn [mbind go_bind].
    apply run_hint_mapIndicators.
  - erewrite emitted_app by (cbn [constraints]; rewrite app_comm_cons; reflexivity).
    exact Hsat.
  - intros j ind Hj. destruct (lookup_nth_csv _ _ _ Hj) as [-> Hjn].
    rewrite length_fmap, length_seq in Hjn. apply Hind. exact Hjn.
  - intros x Hnot Hx. destruct (lookup_nth_csv _ _ _ Hx) as [-> _].
    rewrite Hout, nth_csv_values_read_kept by exact Hnot. reflexivity.
  - intros Hov. rewrite Hout, nth_csv_values_read_overwritten by exact Hov. reflexivity.
Qed.

(** The keys and the values are the two halves of one array and the
    append overwrites values[0]: with queryKey = keys[1] the output is
    values[1], with queryKey = keys[0] it is queryKey. *)
Lemma Map_solver_accepts_witness :
  let all := Slice 0 [Wire 1; Wire 2; Wire 3; Wire 4; Wire 5; Wire 6] 6 in
  let keys := subslice all 0 3 in
  let values := subslice all 3 6 in
  (let w := inputs_witness [7; 3; 7; 9; 30; 70; 90] in
   exists out indicators s' w',
     Map (Wire 0) keys values (fresh_system 7) = Returned (out, indicators) s' /\
     solve 97 w s' = Ok w' /\
     (forall v, scoped (nb_wires (fresh_system 7)) v -> eval 97 w' v = eval 97 w v) /\
     solutions 97 (fresh_system 7) s' w' /\
     (forall j ind, indicators !! j = Some ind ->
                    eval 97 w' ind = if decide (j = 1%nat) then 1 else 0) /\
     ~ overwrites keys values 1 /\
     elems values !! 1%nat = Some (Wire 5) /\
     eval 97 w' out = eval 97 w' (Wire 5)) /\
  (let w := inputs_witness [3; 3; 7; 9; 30; 70; 90] in
   exists out indicators s' w',
     Map (Wire 0) keys values (fresh_system 7) = Returned (out, indicators) s' /\
     solve 97 w s' = Ok w' /\
     (forall v, scoped (nb_wires (fresh_system 7)) v -> eval 97 w' v = eval 97 w v) /\
     solutions 97 (fresh_system 7) s' w' /\
     (forall j ind, indicators !! j = Some ind ->
                    eval 97 w' ind = if decide (j = 0%nat) then 1 else 0) /\
     overwrites keys values 0 /\
     eval 97 w' out = eval 97 w' (Wire 0)).
Proof.
  intros all keys values.
  assert (Hkeys : Forall (scoped (nb_wires (fresh_system 7))) (elems keys))
    by (repeat constructor; cbn; lia).
  assert (Hov : overwrites keys values 0) by (unfold overwrites; cbn; lia).
  assert (Hnot : ~ overwrites keys values 1) by (unfold overwrites; cbn; lia).
  split; intros w.
  - destruct (Map_solver_accepts 97 w w (Wire 0) keys values 1 (fresh_system 7))
      as (out & indicators & s' & w' & Hrun & Hsolve & Hold & Hsat & Hind & Hkept & _);
      [lia | reflexivity | cbn; lia | exact Hkeys | reflexivity | | cbn; lia |].
    + intros i key Hi.
      destruct i as [|[|[|i]]]; cbn in Hi; try discriminate; injection Hi as <-;
        split; intros H; try reflexivity; try discriminate; try lia;
        vm_compute in H; discriminate.
    + exists out, indicators, s', w'.
      split; [exact Hrun|]. split; [exact Hsolve|]. split; [exact Hold|].
      split; [exact Hsat|]. split; [exact Hind|]. split; [exact Hnot|].
      split; [reflexivity|]. apply Hkept; [exact Hnot | reflexivity].
  - destruct (Map_solver_accepts 97 w w (Wire 0) keys values 0 (fresh_system 7))
      as (out & indicators & s' & w' & Hrun & Hsolve & Hold & Hsat & Hind & _ & Hover);
      [lia | reflexivity | cbn; lia | exact Hkeys | reflexivity | | cbn; lia |].
    + intros i key Hi.
      destruct i as [|[|[|i]]]; cbn in Hi; try discriminate; injection Hi as <-;
        split; intros H; try reflexivity; try discriminate; try lia;
        vm_compute in H; discriminate.
    + exists out, indicators, s', w'.
      split; [exact Hrun|]. split; [exact Hsolve|]. split; [exact Hold|].
      split; [exact Hsat|]. split; [exact Hind|]. split; [exact Hov|].
      apply Hover. exact Hov.
Defined.

(** ** Map with a key that occurs twice *)





Lemma Zsum_two_hot (f : nat -> Z) (from count k1 k2 : nat) :
  (from <= k1 < from + count)%nat -> (from <= k2 < from + count)%nat -> k1 <> k2 ->
  (forall i, (from <= i < from + count)%nat -> i <> k1 -> i <> k2 -> f i = 0) ->
  Zsum f (seq from count) = f k1 + f k2.
Proof.
  intros Hk1 Hk2 Hne.
  revert from Hk1 Hk2. induction count as [|count IH]; intros from Hk1 Hk2 Hzero; [lia|].
  cbn [seq Zsum foldr]. fold (Zsum f (seq (S from) count)).
  destruct (decide (from = k1)) as [->|Hne1].
  - rewrite (Zsum_one_hot f (S k1) count k2); [lia | lia |].
    intros i Hi Hik. apply Hzero; lia.
  - destruct (decide (from = k2)) as [->|Hne2].
    + rewrite (Zsum_one_hot f (S k2) count k1); [lia | lia |].
      intros i Hi Hik. apply Hzero; lia.
    + rewrite Hzero by lia. rewrite IH; [lia | lia | lia |].
      intros i Hi. apply Hzero. lia.
Qed.



(** X12: when two different keys equal queryKey, the constraints Map
    emits do not determine the output: for every t the indicators can be
    chosen (t at one match, 1 - t at the other, 0 elsewhere) so that all
    constraints hold and the output is t * value1 + (1 - t) * value2,
    where value1 and value2 are the entries Map reads at k1 and k2 after
    append(keys, queryKey): values[k1] and values[k2], with queryKey in
    place of the one the append overwrote, if any. *)
Theorem Map_duplicate_key_output_undefined (P : Z) (w : witness) (queryKey : csv)
  (keys values : slice) (k1 k2 : nat) (key1 key2 value1 value2 : csv) (t : Z)
  (s : constraint_system) :
  1 < P ->
  scoped (nb_wires s) queryKey ->
  Forall (scoped (nb_wires s)) (elems keys) ->
  length (elems keys) = length (elems values) ->
  k1 <> k2 ->
  elems keys !! k1 = Some key1 -> elems keys !! k2 = Some key2 ->
  values_read queryKey keys values !! k1 = Some value1 ->
  values_read queryKey keys values !! k2 = Some value2 ->
  eval P w key1 = eval P w queryKey -> eval P w key2 = eval P w queryKey ->
  exists out indicators s' w',
    Map queryKey keys values s = Returned (out, indicators) s' /\
    (forall v, scoped (nb_wires s) v -> eval P w' v = eval P w v) /\
    solutions P s s' w' /\
    eval P w' out = (t * eval P w' value1 + (1 - t) * eval P w' value2) mod P.
Proof.
  intros HP Hsel Hkeys Hlen Hne Hk1 Hk2 Hv1 Hv2 Hm1 Hm2. unfold solutions.
  rewrite Map_eq by exact Hlen.
  destruct (lookup_nth_csv _ _ _ Hk1) as [-> Hk1n].
  destruct (lookup_nth_csv _ _ _ Hk2) as [-> Hk2n].
  destruct (lookup_nth_csv _ _ _ Hv1) as [-> _].
  destruct (lookup_nth_csv _ _ _ Hv2) as [-> _].
  set (n := length (elems keys)) in *. set (nb := nb_wires s).
  set (g := fun i => if decide (i = k1) then t else if decide (i = k2) then 1 - t else 0).
  destruct (assign_fresh P w nb n g) as [Hnew Hold].
  set (w' := assign w (seq nb n) (g <$> seq 0 n)) in *.
  assert (Hpos : 0 < P) by lia.
  assert (Hind : forall i, (i < n)%nat ->
             eval P w' (nth_csv (Wire <$> seq nb n) i) = g i mod P).
  { intros i Hi. rewrite nth_csv_wires by exact Hi. cbn [eval].
    rewrite Hnew by exact Hi. reflexivity. }
  assert (Hg1 : g k1 = t) by (subst g; cbn beta; destruct (decide (k1 = k1)); congruence).
  assert (Hg2 : g k2 = 1 - t).
  { subst g. cbn beta. destruct (decide (k2 = k1)); [congruence|].
    destruct (decide (k2 = k2)); congruence. }
  assert (Hg0 : forall i, i <> k1 -> i <> k2 -> g i = 0).
  { intros i H1 H2. subst g. cbn beta.
    destruct (decide (i = k1)); [contradiction|].
    destruct (decide (i = k2)); [contradiction | reflexivity]. }
  assert (Hkey : forall k, (k < n)%nat ->
                           eval P w (nth_csv (elems keys) k) = eval P w queryKey ->
                           eval P w' (VSub queryKey (nth_csv (elems keys) k)) = 0).
  { intros k Hk Hm. cbn [eval]. rewrite (Hold queryKey Hsel).
    rewrite Hold.
    - rewrite Hm, Z.sub_diag. apply Z.mod_0_l. lia.
    - rewrite Forall_lookup in Hkeys. apply (Hkeys k). apply nth_csv_lookup. exact Hk. }
  do 3 eexists. exists w'.
  split; [reflexivity|]. split; [exact Hold|].
  erewrite emitted_app by (cbn [constraints]; rewrite app_comm_cons; reflexivity).
  split.
  - apply satisfies_cons. split.
    + cbn [holds]. apply Z.eqb_eq. rewrite eval_selector_sum by exact Hpos.
      rewrite (Zsum_two_hot _ 0 n k1 k2); try lia.
      * rewrite !Hind by assumption. rewrite Hg1, Hg2. cbn [eval].
        rewrite (Z.mod_0_l P), Z.add_0_l, <- Zplus_mod by lia. f_equal. lia.
      * intros i Hi H1 H2. rewrite Hind by lia. rewrite Hg0 by assumption.
        apply Z.mod_0_l. lia.
    + apply satisfies_rev_fmap_seq. intros i Hi.
      unfold selector_constraint, selector_key.
      cbn [holds]. apply Z.eqb_eq.
      change (eval P w' (VMul (nth_csv (Wire <$> seq nb n) i)
                           (VSub queryKey (nth_csv (elems keys) i))))
        with ((eval P w' (nth_csv (Wire <$> seq nb n) i)
               * eval P w' (VSub queryKey (nth_csv (elems keys) i))) mod P).
      change (eval P w' (Const 0)) with (0 mod P).
      destruct (decide (i = k1)) as [->|H1]; [rewrite Hkey, Z.mul_0_r by assumption; reflexivity|].
      destruct (decide (i = k2)) as [->|H2]; [rewrite Hkey, Z.mul_0_r by assumption; reflexivity|].
      rewrite Hind, Hg0, (Z.mod_0_l P), Z.mul_0_l by (assumption || lia). reflexivity.
  - rewrite eval_selector_out by exact Hpos.
    rewrite (Zsum_two_hot _ 0 n k1 k2); try lia.
    + cbn [eval]. rewrite !Hind by assumption. rewrite Hg1, Hg2.
      rewrite (Z.mod_0_l P), Z.add_0_l by lia.
      rewrite !Zmult_mod_idemp_l, <- Zplus_mod. reflexivity.
    + intros i Hi H1 H2. cbn [eval]. rewrite Hind by lia. rewrite Hg0 by assumption.
      rewrite (Z.mod_0_l P), Z.mul_0_l by lia. apply Z.mod_0_l. lia.
Qed.

(** The keys and the values are the two halves of one array; the keys at
    0 and 2 equal queryKey, and the entry read at 0 is queryKey itself,
    stored there by the append. *)
Lemma Map_duplicate_key_output_undefined_witness :
  let w := inputs_witness [7; 7; 3; 7; 10; 20; 30] in
  let all := Slice 0 [Wire 1; Wire 2; Wire 3; Wire 4; Wire 5; Wire 6] 6 in
  let keys := subslice all 0 3 in
  let values := subslice all 3 6 in
  values_read (Wire 0) keys values = [Wire 0; Wire 5; Wire 6] /\
  exists out indicators s' w',
    Map (Wire 0) keys values (fresh_system 7) = Returned (out, indicators) s' /\
    (forall v, scoped (nb_wires (fresh_system 7)) v -> eval 97 w' v = eval 97 w v) /\
    solutions 97 (fresh_system 7) s' w' /\
    eval 97 w' out = (5 * eval 97 w' (Wire 0) + (1 - 5) * eval 97 w' (Wire 6)) mod 97.
Proof.
  intros w all keys values. split; [reflexivity|].
  apply (Map_duplicate_key_output_undefined 97 w (Wire 0) keys values
           0 2 (Wire 1) (Wire 3) (Wire 0) (Wire 6) 5 (fresh_system 7));
    first [reflexivity | cbn; lia | discriminate | repeat constructor; cbn; lia].
Defined.

(** ** The comparator outside its bound *)

Section Beyond.
Variable P : Z.
Variable L : Z.
Hypothesis P_prime : Z.prime P.

Lemma beyond_order_gt_1 : 1 < P.
Proof. destruct P_prime. assumption. Qed.

(** A negative difference that is not too negative does not fit. *)
Lemma fits_nonneg_beyond (t : Z) :
  - (P - 2 ^ L) <= t -> (t mod P <? 2 ^ L) = true -> 0 <= t.
Proof.
  intros Ht Hfit. pose proof beyond_order_gt_1 as HP.
  assert (0 <= 2 ^ L) by (apply Z.pow_nonneg; lia).
  destruct (Z.le_gt_cases 0 t) as [|Hneg]; [assumption|]. exfalso.
  apply Z.ltb_lt in Hfit.
  rewrite <- (Z_mod_plus_full t 1 P), Z.mod_small in Hfit by lia. lia.
Qed.

(** With 2^(L+1) + 1 <= P a difference and the complementary difference
    never fit at the same time. *)
Lemma complementary_differences (x : Z) :
  0 <= L -> 2 ^ (L + 1) + 1 <= P ->
  (x mod P <? 2 ^ L) = true -> ((- x - 1) mod P <? 2 ^ L) = true -> False.
Proof.
  intros HL Hdet H1 H2. pose proof beyond_order_gt_1 as HP.
  rewrite Z.pow_add_r, Z.pow_1_r in Hdet by lia.
  apply Z.ltb_lt in H1, H2.
  pose proof (Z.mod_pos_bound x P ltac:(lia)) as Hu.
  assert (Hc : (- x - 1) mod P = P - 1 - x mod P).
  { rewrite (Z.div_mod x P) at 1 by lia.
    replace (- (P * (x / P) + x mod P) - 1)
      with (P - 1 - x mod P + (- (x / P) - 1) * P) by ring.
    rewrite Z_mod_plus_full. apply Z.mod_small. lia. }
  lia.
Qed.

Lemma opposite_differences (x : Z) :
  0 <= L -> 2 ^ (L + 1) + 1 <= P ->
  (x mod P <? 2 ^ L) = true -> ((- x) mod P <? 2 ^ L) = true -> x mod P = 0.
Proof.
  intros HL Hdet H1 H2. pose proof beyond_order_gt_1 as HP.
  rewrite Z.pow_add_r, Z.pow_1_r in Hdet by lia.
  apply Z.ltb_lt in H1, H2.
  pose proof (Z.mod_pos_bound x P ltac:(lia)) as Hu.
  destruct (Z.eq_dec (x mod P) 0) as [|Hne]; [assumption|]. exfalso.
  assert (Hc : (- x) mod P = P - x mod P).
  { rewrite (Z.div_mod x P) at 1 by lia.
    replace (- (P * (x / P) + x mod P)) with (P - x mod P + (- (x / P) - 1) * P) by ring.
    rewrite Z_mod_plus_full. apply Z.mod_small. lia. }
  lia.
Qed.

Variable w : witness.

(** The product constraint of Min: the result is one of the operands. *)
Lemma Min_operand (m a b : csv) :
  holds P w (CEqual (VMul (VSub a m) (VSub b m)) (Const 0)) = true ->
  eval P w m = eval P w a \/ eval P w m = eval P w b.
Proof.
  intros Hprod. pose proof beyond_order_gt_1 as HP.
  assert (Hpos : 0 < P) by lia.
  cbn [holds] in Hprod. apply Z.eqb_eq in Hprod.
  change (eval P w (VMul (VSub a m) (VSub b m)))
    with ((eval P w (VSub a m) * eval P w (VSub b m)) mod P) in Hprod.
  change (eval P w (Const 0)) with (0 mod P) in Hprod.
  rewrite (Z.mod_0_l P) in Hprod by lia.
  destruct (Z.eq_dec (eval P w (VSub b m)) 0) as [Hb0|Hb0].
  - right. cbn [eval] in Hb0.
    apply field_sub_zero in Hb0; try (apply eval_range; exact Hpos); [|exact Hpos].
    symmetry. exact Hb0.
  - left. apply field_zero_product in Hprod;
      [| exact Hpos | exact P_prime | apply eval_range, Hpos | apply eval_range, Hpos
       | exact Hb0].
    cbn [eval] in Hprod.
    apply field_sub_zero in Hprod; try (apply eval_range; exact Hpos); [|exact Hpos].
    symmetry. exact Hprod.
Qed.

(** The sum Min decomposes, once the result is known to be [x]. *)
Lemma Min_excess (m x y : csv) (tx ty : Z) :
  eval P w m = eval P w x ->
  eval P w x = tx mod P -> eval P w y = ty mod P ->
  eval P w (VAdd (VSub x m) (VSub y m)) = (ty - tx) mod P /\
  eval P w (VAdd (VSub y m) (VSub x m)) = (ty - tx) mod P.
Proof.
  intros Hm Hx Hy. pose proof beyond_order_gt_1 as HP.
  cbn [eval]. rewrite Hm, Z.sub_diag, (Z.mod_0_l P), Z.add_0_l, Z.add_0_r, Zmod_mod by lia.
  rewrite Hx, Hy, <- Zminus_mod. split; reflexivity.
Qed.

End Beyond.

(** What the constraints of IsLess say, for arbitrary operands with
    integer representatives [ta] and [tb]. *)
Lemma IsLess_raw (P L : Z) (w : witness) (r a b : csv) (ta tb : Z) :
  eval P w a = ta mod P -> eval P w b = tb mod P ->
  satisfies P w
    [CBinary L (VSelect r (VSub (VSub b a) (Const 1)) (VSub a b)); CBoolean r]
  <-> (eval P w r = 1 /\ ((tb - ta - 1) mod P <? 2 ^ L) = true) \/
      (eval P w r = 0 /\ ((ta - tb) mod P <? 2 ^ L) = true).
Proof.
  intros Ha Hb. rewrite satisfies_cons, satisfies_one. cbn [holds].
  change (eval P w (VSelect r (VSub (VSub b a) (Const 1)) (VSub a b)))
    with (if eval P w r =? 1
          then eval P w (VSub (VSub b a) (Const 1))
          else eval P w (VSub a b)).
  rewrite (eval_sub_one_rep P w (VSub b a) (tb - ta) (eval_sub_rep P w b a tb ta Hb Ha)).
  rewrite (eval_sub_rep P w a b ta tb Ha Hb).
  rewrite orb_true_iff, !Z.eqb_eq.
  destruct (Z.eqb_spec (eval P w r) 1) as [H1|H1]; intuition lia.
Qed.

(** What the constraints of Min say, for arbitrary operands. *)
Lemma Min_raw (P L : Z) (w : witness) (m a b : csv) (ta tb : Z) :
  Z.prime P ->
  eval P w a = ta mod P -> eval P w b = tb mod P ->
  satisfies P w
    [CBinary L (VAdd (VSub a m) (VSub b m)); CEqual (VMul (VSub a m) (VSub b m)) (Const 0)] ->
  (eval P w m = eval P w a /\ ((tb - ta) mod P <? 2 ^ L) = true) \/
  (eval P w m = eval P w b /\ ((ta - tb) mod P <? 2 ^ L) = true).
Proof.
  intros HP Ha Hb Hsat.
  apply satisfies_cons in Hsat. destruct Hsat as [Hfit Hprod].
  apply satisfies_one in Hprod. cbn [holds] in Hfit.
  destruct (Min_operand P HP w m a b Hprod) as [Hm|Hm].
  - left. split; [exact Hm|].
    rewrite (proj1 (Min_excess P HP w m a b ta tb Hm Ha Hb)) in Hfit. exact Hfit.
  - right. split; [exact Hm|].
    rewrite (proj2 (Min_excess P HP w m b a tb ta Hm Hb Ha)) in Hfit. exact Hfit.
Qed.

(** X13: the comparator stays sound beyond its bound: for operands whose
    signed difference is below P - 2^absDiffUppBitLen in absolute value,
    every assignment that satisfies the constraints of an operation
    carries the correct result (so either no proof exists or the result is
    right). *)
Theorem comparator_sound_beyond_bound (P : Z) (cmp : BoundedComparator) (w : witness)
  (a b : csv) (s : constraint_system) :
  Z.prime P ->
  let sa := signed P (eval P w a) in
  let sb := signed P (eval P w b) in
  Z.abs (sa - sb) < P - 2 ^ absDiffUppBitLen cmp ->
  (exists s', call cmp (AssertIsLessEq a b) s = Returned tt s' /\
              (solutions P s s' w -> sa <= sb)) /\
  (exists s', call cmp (AssertIsLess a b) s = Returned tt s' /\
              (solutions P s s' w -> sa < sb)) /\
  (exists r s', call cmp (IsLess a b) s = Returned r s' /\
                (solutions P s s' w ->
                 (eval P w r = 1 /\ sa < sb) \/ (eval P w r = 0 /\ sb <= sa))) /\
  (exists r s', call cmp (IsLessEq a b) s = Returned r s' /\
                (solutions P s s' w ->
                 (eval P w r = 1 /\ sa <= sb) \/ (eval P w r = 0 /\ sb < sa))) /\
  (exists m s', call cmp (Min a b) s = Returned m s' /\
                (solutions P s s' w ->
                 (eval P w m = eval P w a /\ sa <= sb) \/
                 (eval P w m = eval P w b /\ sb <= sa))).
Proof.
  intros HP sa sb Hrange. unfold solutions.
  assert (Hpos : 0 < P) by (destruct HP; lia).
  pose proof (eval_congruent P w a Hpos) as Ha.
  pose proof (eval_congruent P w b Hpos) as Hb.
  fold sa in Ha. fold sb in Hb.
  set (L := absDiffUppBitLen cmp) in *.
  pose proof (fits_nonneg_beyond P L HP) as Hfits.
  split; [|split; [|split; [|split]]].
  - eexists. split; [apply call_AssertIsLessEq|].
    rewrite emitted_add_constraints, satisfies_one. cbn [holds]. fold L.
    rewrite (eval_sub_rep P w b a sb sa Hb Ha). intros Hfit.
    apply Hfits in Hfit; lia.
  - eexists. split; [apply call_AssertIsLess|].
    rewrite emitted_add_constraints, satisfies_one. cbn [holds]. fold L.
    rewrite (eval_sub_rep P w _ a (sb - 1) sa (eval_sub_one_rep P w b sb Hb) Ha).
    intros Hfit. apply Hfits in Hfit; lia.
  - do 2 eexists. split; [apply call_IsLess|].
    erewrite emitted_app by reflexivity. fold L.
    rewrite (IsLess_raw P L w _ a b sa sb Ha Hb).
    intros [[Hr Hfit]|[Hr Hfit]]; (apply Hfits in Hfit; [|lia]); [left | right]; split; lia.
  - do 2 eexists. split; [rewrite call_IsLessEq; apply call_IsLess|].
    erewrite emitted_app by reflexivity. fold L.
    rewrite (IsLess_raw P L w _ a (VAdd b (Const 1)) sa (sb + 1) Ha
               (eval_add_one_rep P w b sb Hb)).
    intros [[Hr Hfit]|[Hr Hfit]]; (apply Hfits in Hfit; [|lia]); [left | right]; split; lia.
  - do 2 eexists. split; [apply call_Min|].
    erewrite emitted_app by reflexivity. fold L.
    intros Hsat. apply (Min_raw P L w _ a b sa sb HP Ha Hb) in Hsat.
    destruct Hsat as [[Hm Hfit]|[Hm Hfit]]; (apply Hfits in Hfit; [|lia]);
      [left | right]; split; (assumption || lia).
Qed.

(** IsLess(3, 0) and Min(3, 0) in the field of order 13, for the bound 2
    (bit length 2): the difference 3 exceeds the bound, and the
    assignment with the hint output 0 is a solution of both circuits. *)
Lemma comparator_sound_beyond_bound_witness :
  let w := inputs_witness [3; 0; 0] in
  let cmp := {| absDiffUppBitLen := 2 |} in
  let sa := signed 13 (eval 13 w (Wire 0)) in
  let sb := signed 13 (eval 13 w (Wire 1)) in
  Z.prime 13 /\
  NewBoundedComparator 13 2 false = Ok cmp /\
  2 < Z.abs (sa - sb) < 13 - 2 ^ absDiffUppBitLen cmp /\
  (exists r s', call cmp (IsLess (Wire 0) (Wire 1)) (fresh_system 2) = Returned r s' /\
                solutions 13 (fresh_system 2) s' w /\
                ((eval 13 w r = 1 /\ sa < sb) \/ (eval 13 w r = 0 /\ sb <= sa))) /\
  (exists m s', call cmp (Min (Wire 0) (Wire 1)) (fresh_system 2) = Returned m s' /\
                solutions 13 (fresh_system 2) s' w /\
                ((eval 13 w m = eval 13 w (Wire 0) /\ sa <= sb) \/
                 (eval 13 w m = eval 13 w (Wire 1) /\ sb <= sa))).
Proof.
  intros w cmp sa sb. split; [exact prime_13|]. split; [reflexivity|].
  assert (Hrange : Z.abs (sa - sb) < 13 - 2 ^ absDiffUppBitLen cmp)
    by (vm_compute; reflexivity).
  split; [split; [vm_compute; reflexivity | exact Hrange]|].
  destruct (comparator_sound_beyond_bound 13 cmp w (Wire 0) (Wire 1) (fresh_system 2)
              prime_13 Hrange) as (_ & _ & HIsLess & _ & HMin).
  split.
  - destruct HIsLess as (r & s' & Hrun & Hsound).
    assert (Hsat : solutions 13 (fresh_system 2) s' w).
    { rewrite call_IsLess in Hrun. injection Hrun as _ <-.
      apply satisfies_forallb. reflexivity. }
    exists r, s'. split; [exact Hrun|]. split; [exact Hsat | exact (Hsound Hsat)].
  - destruct HMin as (m & s' & Hrun & Hsound).
    assert (Hsat : solutions 13 (fresh_system 2) s' w).
    { rewrite call_Min in Hrun. injection Hrun as _ <-.
      apply satisfies_forallb. reflexivity. }
    exists m, s'. split; [exact Hrun|]. split; [exact Hsat | exact (Hsound Hsat)].
Defined.

(** X14: whatever the operands are, and for any comparator, a satisfying
    assignment gives IsLess and IsLessEq a result that is 0 or 1 and gives
    Min a result equal to one of its two operands. *)
Theorem comparator_results_wellformed (P : Z) (cmp : BoundedComparator) (w : witness)
  (a b : csv) (s : constraint_system) :
  Z.prime P ->
  (exists r s', call cmp (IsLess a b) s = Returned r s' /\
                (solutions P s s' w -> eval P w r = 0 \/ eval P w r = 1)) /\
  (exists r s', call cmp (IsLessEq a b) s = Returned r s' /\
                (solutions P s s' w -> eval P w r = 0 \/ eval P w r = 1)) /\
  (exists m s', call cmp (Min a b) s = Returned m s' /\
                (solutions P s s' w ->
                 eval P w m = eval P w a \/ eval P w m = eval P w b)).
Proof.
  intros HP. unfold solutions.
  assert (Hpos : 0 < P) by (destruct HP; lia).
  split; [|split].
  - do 2 eexists. split; [apply call_IsLess|].
    erewrite emitted_app by reflexivity.
    rewrite (IsLess_raw P _ w _ a b _ _ (eq_sym (eval_mod P w Hpos a))
               (eq_sym (eval_mod P w Hpos b))).
    tauto.
  - do 2 eexists. split; [rewrite call_IsLessEq; apply call_IsLess|].
    erewrite emitted_app by reflexivity.
    rewrite (IsLess_raw P _ w _ a (VAdd b (Const 1)) _ _ (eq_sym (eval_mod P w Hpos a))
               (eq_sym (eval_mod P w Hpos (VAdd b (Const 1))))).
    tauto.
  - do 2 eexists. split; [apply call_Min|].
    erewrite emitted_app by reflexivity.
    intros Hsat. apply satisfies_cons in Hsat. destruct Hsat as [_ Hprod].
    apply satisfies_one in Hprod. apply (Min_operand P HP w _ a b Hprod).
Qed.

Lemma comparator_results_wellformed_witness :
  Z.prime 13 /\
  exists m s',
    call {| absDiffUppBitLen := 2 |} (Min (Wire 0) (Wire 1)) (fresh_system 2)
    = Returned m s' /\
    (solutions 13 (fresh_system 2) s' (inputs_witness [5; 6; 5]) ->
     eval 13 (inputs_witness [5; 6; 5]) m = eval 13 (inputs_witness [5; 6; 5]) (Wire 0) \/
     eval 13 (inputs_witness [5; 6; 5]) m = eval 13 (inputs_witness [5; 6; 5]) (Wire 1)).
Proof.
  split; [exact prime_13|].
  exact (proj2 (proj2
           (comparator_results_wellformed 13 {| absDiffUppBitLen := 2 |}
              (inputs_witness [5; 6; 5]) (Wire 0) (Wire 1) (fresh_system 2) prime_13))).
Defined.

(** X15: a comparator constructed with allowNonDeterminism = false is
    deterministic for all operands, within the bound or not: two
    satisfying assignments that agree on the operands agree on the result
    of IsLess, of IsLessEq and of Min. *)
Theorem deterministic_comparator_unique_result (P absDiffUpp : Z) (cmp : BoundedComparator)
  (w1 w2 : witness) (a b : csv) (s : constraint_system) :
  Z.prime P ->
  NewBoundedComparator P absDiffUpp false = Ok cmp ->
  eval P w1 a = eval P w2 a ->
  eval P w1 b = eval P w2 b ->
  (exists r s', call cmp (IsLess a b) s = Returned r s' /\
                (solutions P s s' w1 -> solutions P s s' w2 ->
                 eval P w1 r = eval P w2 r)) /\
  (exists r s', call cmp (IsLessEq a b) s = Returned r s' /\
                (solutions P s s' w1 -> solutions P s s' w2 ->
                 eval P w1 r = eval P w2 r)) /\
  (exists m s', call cmp (Min a b) s = Returned m s' /\
                (solutions P s s' w1 -> solutions P s s' w2 ->
                 eval P w1 m = eval P w2 m)).
Proof.
  intros HP Hnew Hab Hbb. unfold solutions.
  pose proof (NewBoundedComparator_deterministic_Ok _ _ _ Hnew) as Hdet.
  destruct (NewBoundedComparator_Ok _ _ _ _ Hnew) as (-> & _ & _).
  cbn [absDiffUppBitLen].
  pose proof (BitLen_nonneg absDiffUpp) as HL.
  assert (Hpos : 0 < P) by (destruct HP; lia).
  assert (Hless : forall b' : csv,
             eval P w1 b' = eval P w2 b' ->
             satisfies P w1
               [CBinary (BitLen absDiffUpp)
                  (VSelect (Wire (nb_wires s)) (VSub (VSub b' a) (Const 1)) (VSub a b'));
                CBoolean (Wire (nb_wires s))] ->
             satisfies P w2
               [CBinary (BitLen absDiffUpp)
                  (VSelect (Wire (nb_wires s)) (VSub (VSub b' a) (Const 1)) (VSub a b'));
                CBoolean (Wire (nb_wires s))] ->
             eval P w1 (Wire (nb_wires s)) = eval P w2 (Wire (nb_wires s))).
  { intros b' Hb' H1 H2.
    set (ta := eval P w1 a) in *. set (tb := eval P w1 b') in *.
    rewrite (IsLess_raw P _ w1 _ a b' ta tb) in H1
      by (symmetry; apply eval_mod; exact Hpos).
    rewrite (IsLess_raw P _ w2 _ a b' ta tb) in H2
      by (rewrite <- ?Hab, <- ?Hb'; symmetry; apply eval_mod; exact Hpos).
    destruct H1 as [[Hr1 Hf1]|[Hr1 Hf1]]; destruct H2 as [[Hr2 Hf2]|[Hr2 Hf2]];
      try congruence; exfalso.
    - apply (complementary_differences P (BitLen absDiffUpp) HP (ta - tb) HL Hdet Hf2).
      replace (- (ta - tb) - 1) with (tb - ta - 1) by ring. exact Hf1.
    - apply (complementary_differences P (BitLen absDiffUpp) HP (ta - tb) HL Hdet Hf1).
      replace (- (ta - tb) - 1) with (tb - ta - 1) by ring. exact Hf2. }
  split; [|split].
  - do 2 eexists. split; [apply call_IsLess|].
    erewrite emitted_app by reflexivity. cbn [absDiffUppBitLen].
    apply (Hless b Hbb).
  - do 2 eexists. split; [rewrite call_IsLessEq; apply call_IsLess|].
    erewrite emitted_app by reflexivity. cbn [absDiffUppBitLen].
    apply (Hless (VAdd b (Const 1))). cbn [eval]. rewrite Hbb. reflexivity.
  - do 2 eexists. split; [apply call_Min|].
    erewrite emitted_app by reflexivity. cbn [absDiffUppBitLen].
    intros H1 H2.
    set (ta := eval P w1 a) in *. set (tb := eval P w1 b) in *.
    apply (Min_raw P _ w1 _ a b ta tb HP) in H1;
      try (symmetry; apply eval_mod; exact Hpos).
    apply (Min_raw P _ w2 _ a b ta tb HP) in H2;
      try (rewrite <- ?Hab, <- ?Hbb; symmetry; apply eval_mod; exact Hpos).
    assert (Hsame : forall x, (x mod P <? 2 ^ BitLen absDiffUpp) = true ->
                              ((- x) mod P <? 2 ^ BitLen absDiffUpp) = true ->
                              x mod P = 0)
      by (intros x; apply (opposite_differences P (BitLen absDiffUpp) HP x HL Hdet)).
    assert (Heq : forall x y : Z, 0 <= x < P -> 0 <= y < P -> (x - y) mod P = 0 -> x = y)
      by (intros x y Hx Hy; apply (field_sub_zero P Hpos x y Hx Hy)).
    pose proof (eval_range P w1 Hpos a) as Hra. fold ta in Hra.
    pose proof (eval_range P w1 Hpos b) as Hrb. fold tb in Hrb.
    destruct H1 as [[Hm1 Hf1]|[Hm1 Hf1]]; destruct H2 as [[Hm2 Hf2]|[Hm2 Hf2]];
      rewrite Hm1, Hm2; try (symmetry; assumption); try assumption.
    + fold ta. rewrite <- Hbb. fold tb.
      apply Heq; try assumption. apply (Hsame (ta - tb) Hf2).
      replace (- (ta - tb)) with (tb - ta) by ring. exact Hf1.
    + fold tb. rewrite <- Hab. fold ta. symmetry.
      apply Heq; try assumption. apply (Hsame (ta - tb) Hf1).
      replace (- (ta - tb)) with (tb - ta) by ring. exact Hf2.
Qed.

(** IsLess(5, 6) in the field of order 13, for the bound 2: two solutions
    that agree on the operands and differ on a wire outside the circuit. *)
Lemma deterministic_comparator_unique_result_witness :
  let w1 := inputs_witness [5; 6; 1; 0] in
  let w2 := inputs_witness [5; 6; 1; 7] in
  Z.prime 13 /\
  NewBoundedComparator 13 2 false = Ok {| absDiffUppBitLen := 2 |} /\
  w1 3%nat <> w2 3%nat /\
  exists r s',
    call {| absDiffUppBitLen := 2 |} (IsLess (Wire 0) (Wire 1)) (fresh_system 2)
    = Returned r s' /\
    solutions 13 (fresh_system 2) s' w1 /\
    solutions 13 (fresh_system 2) s' w2 /\
    eval 13 w1 r = eval 13 w2 r.
Proof.
  intros w1 w2. split; [exact prime_13|]. split; [reflexivity|].
  split; [vm_compute; discriminate|].
  destruct (proj1 (deterministic_comparator_unique_result 13 2 {| absDiffUppBitLen := 2 |}
                     w1 w2 (Wire 0) (Wire 1) (fresh_system 2) prime_13
                     eq_refl eq_refl eq_refl))
    as (r & s' & Hrun & Hsame).
  assert (Hsat : solutions 13 (fresh_system 2) s' w1 /\ solutions 13 (fresh_system 2) s' w2).
  { rewrite call_IsLess in Hrun. injection Hrun as _ <-.
    split; apply satisfies_forallb; reflexivity. }
  destruct Hsat as [Hsat1 Hsat2].
  exists r, s'. split; [exact Hrun|]. split; [exact Hsat1|]. split; [exact Hsat2|].
  exact (Hsame Hsat1 Hsat2).
Defined.

(** ** Soundness of the selectors without assuming a match *)

(** X16: Mux with exactly two inputs allocates no wire and no hint and
    returns no indicators; its constraints are satisfied exactly by the
    assignments in which sel is 0 or 1, and then the output is inputs[sel]. *)
Theorem Mux_two_inputs_exact (P : Z) (w : witness) (sel input_0 input_1 : csv)
  (s : constraint_system) :
  1 < P ->
  exists out s',
    Mux sel [input_0; input_1] s = Returned (out, []) s' /\
    nb_wires s' = nb_wires s /\ hints s' = hints s /\
    (solutions P s s' w <-> eval P w sel = 0 \/ eval P w sel = 1) /\
    (solutions P s s' w ->
     eval P w out = eval P w (if eval P w sel =? 0 then input_0 else input_1)).
Proof.
  intros HP. unfold solutions. rewrite Mux_two_inputs. do 2 eexists.
  split; [reflexivity|]. split; [reflexivity|]. split; [reflexivity|].
  rewrite emitted_add_constraints.
  assert (Hiff : satisfies P w [CBoolean sel] <-> eval P w sel = 0 \/ eval P w sel = 1).
  { rewrite satisfies_cons. cbn [holds]. rewrite orb_true_iff, !Z.eqb_eq.
    pose proof (satisfies_nil P w). tauto. }
  split; [exact Hiff|].
  intros Hsat. apply Hiff in Hsat. cbn [eval].
  destruct Hsat as [H|H]; rewrite H; reflexivity.
Qed.

Lemma Mux_two_inputs_exact_witness :
  1 < 13 /\
  exists out s',
    Mux (Wire 0) [Wire 1; Wire 2] (fresh_system 3) = Returned (out, []) s' /\
    nb_wires s' = nb_wires (fresh_system 3) /\ hints s' = hints (fresh_system 3) /\
    (solutions 13 (fresh_system 3) s' (inputs_witness [1; 10; 20])
     <-> eval 13 (inputs_witness [1; 10; 20]) (Wire 0) = 0 \/
         eval 13 (inputs_witness [1; 10; 20]) (Wire 0) = 1) /\
    (solutions 13 (fresh_system 3) s' (inputs_witness [1; 10; 20]) ->
     eval 13 (inputs_witness [1; 10; 20]) out
     = eval 13 (inputs_witness [1; 10; 20])
         (if eval 13 (inputs_witness [1; 10; 20]) (Wire 0) =? 0 then Wire 1 else Wire 2)).
Proof.
  split; [lia|].
  apply (Mux_two_inputs_exact 13 (inputs_witness [1; 10; 20]) (Wire 0) (Wire 1) (Wire 2)
           (fresh_system 3)).
  lia.
Defined.

(** X17: Mux is sound for every number of inputs not exceeding the field
    order: an assignment that satisfies its constraints has sel equal to
    an index k of the inputs, the output equal to inputs[k], and the
    returned indicators (none for two inputs) equal to the unit vector at
    k. *)
Theorem Mux_sound (P : Z) (w : witness) (sel : csv) (inputs : list csv)
  (s : constraint_system) :
  Z.prime P ->
  Z.of_nat (length inputs) <= P ->
  exists out indicators s',
    Mux sel inputs s = Returned (out, indicators) s' /\
    (solutions P s s' w ->
     exists k inputs_k,
       eval P w sel = Z.of_nat k /\
       inputs !! k = Some inputs_k /\
       eval P w out = eval P w inputs_k /\
       forall j ind, indicators !! j = Some ind ->
                     eval P w ind = if decide (j = k) then 1 else 0).
Proof.
  intros HP HnP. unfold solutions.
  assert (HP1 : 1 < P) by (destruct HP; assumption).
  pose proof (eval_range P w ltac:(lia) sel) as Hsel.
  destruct (decide (length inputs = 2%nat)) as [H2|H2].
  - destruct inputs as [|x0 [|x1 [|x2 rest]]]; try discriminate.
    rewrite Mux_two_inputs. do 3 eexists. split; [reflexivity|].
    rewrite emitted_add_constraints. intros Hsat.
    apply satisfies_cons in Hsat. destruct Hsat as [Hbool _].
    cbn [holds] in Hbool. apply orb_true_iff in Hbool. rewrite !Z.eqb_eq in Hbool.
    destruct Hbool as [H|H].
    + exists 0%nat, x0. cbn [eval]. rewrite H. repeat split. intros j ind Hj. discriminate.
    + exists 1%nat, x1. cbn [eval]. rewrite H. repeat split. intros j ind Hj. discriminate.
  - rewrite Mux_eq by exact H2.
    do 3 eexists. split; [reflexivity|].
    erewrite emitted_app by (cbn [constraints]; rewrite app_comm_cons; reflexivity).
    intros Hsat.
    destruct (Z.le_gt_cases (Z.of_nat (length inputs)) (eval P w sel)) as [Hout|Hin].
    + exfalso. revert Hsat. apply selector_without_match_unsatisfiable; [exact HP|].
      intros i Hi. cbn [selector_key eval]. rewrite Z.mod_small by lia. lia.
    + set (k := Z.to_nat (eval P w sel)).
      assert (Hk : (k < length inputs)%nat) by (subst k; lia).
      assert (Hval : eval P w sel = Z.of_nat k) by (subst k; lia).
      apply (selector_one_hot P w ltac:(lia) HP true sel _ [] inputs (length inputs) k Hk)
        in Hsat.
      * destruct Hsat as (Hone & Hzero & Hvalue).
        exists k, (nth_csv inputs k).
        split; [exact Hval|]. split; [apply nth_csv_lookup, Hk|]. split; [exact Hvalue|].
        intros j ind Hj. destruct (lookup_nth_csv _ _ _ Hj) as [-> Hjn].
        rewrite length_fmap, length_seq in Hjn.
        destruct (decide (j = k)) as [->|Hne]; [exact Hone | apply Hzero; assumption].
      * intros i Hi Hik. cbn [selector_key eval]. rewrite Hval, Z.mod_small by lia. lia.
Qed.

Lemma Mux_sound_witness :
  Z.prime 13 /\
  Z.of_nat (length [Wire 1]) <= 13 /\
  exists out indicators s',
    Mux (Wire 0) [Wire 1] (fresh_system 2) = Returned (out, indicators) s' /\
    (solutions 13 (fresh_system 2) s' (inputs_witness [0; 9; 1]) ->
     exists k inputs_k,
       eval 13 (inputs_witness [0; 9; 1]) (Wire 0) = Z.of_nat k /\
       [Wire 1] !! k = Some inputs_k /\
       eval 13 (inputs_witness [0; 9; 1]) out = eval 13 (inputs_witness [0; 9; 1]) inputs_k /\
       forall j ind, indicators !! j = Some ind ->
                     eval 13 (inputs_witness [0; 9; 1]) ind
                     = if decide (j = k) then 1 else 0).
Proof.
  split; [exact prime_13|]. split; [cbn; lia|].
  apply (Mux_sound 13 (inputs_witness [0; 9; 1]) (Wire 0) [Wire 1] (fresh_system 2) prime_13).
  cbn. lia.
Defined.

Lemma bounded_search (p : nat -> Prop) (n : nat) :
  (forall i, {p i} + {~ p i}) ->
  (exists k, (k < n)%nat /\ p k) \/ (forall i, (i < n)%nat -> ~ p i).
Proof.
  intros Hdec. induction n as [|n IH].
  - right. intros i Hi. lia.
  - destruct IH as [(k & Hk & Hp)|Hnone].
    + left. exists k. split; [lia | exact Hp].
    + destruct (Hdec n) as [Hp|Hnp].
      * left. exists n. split; [lia | exact Hp].
      * right. intros i Hi. destruct (decide (i = n)) as [->|Hne]; [exact Hnp|].
        apply Hnone. lia.
Qed.

(** X18: Map is sound for pairwise distinct keys: an assignment that
    satisfies its constraints has queryKey equal to some keys[k], the
    indicators equal to the unit vector at k, and the output equal to the
    entry Map reads at index k after append(keys, queryKey): values[k],
    or queryKey when values[k] is the slot the append overwrote. *)
Theorem Map_sound (P : Z) (w : witness) (queryKey : csv) (keys values : slice)
  (s : constraint_system) :
  Z.prime P ->
  length (elems keys) = length (elems values) ->
  (forall i j keys_i keys_j,
      elems keys !! i = Some keys_i -> elems keys !! j = Some keys_j -> i <> j ->
      eval P w keys_i <> eval P w keys_j) ->
  exists out indicators s',
    Map queryKey keys values s = Returned (out, indicators) s' /\
    (solutions P s s' w ->
     exists k keys_k values_k,
       elems keys !! k = Some keys_k /\ eval P w keys_k = eval P w queryKey /\
       elems values !! k = Some values_k /\
       (~ overwrites keys values k -> eval P w out = eval P w values_k) /\
       (overwrites keys values k -> eval P w out = eval P w queryKey) /\
       forall j ind, indicators !! j = Some ind ->
                     eval P w ind = if decide (j = k) then 1 else 0).
Proof.
  intros HP Hlen Hdistinct. unfold solutions.
  assert (HP1 : 1 < P) by (destruct HP; assumption).
  rewrite Map_eq by exact Hlen.
  do 3 eexists. split; [reflexivity|].
  erewrite emitted_app by (cbn [constraints]; rewrite app_comm_cons; reflexivity).
  intros Hsat.
  destruct (bounded_search
              (fun i => eval P w (nth_csv (elems keys) i) = eval P w queryKey)
              (length (elems keys)))
    as [(k & Hk & Hmatch)|Hnone].
  { intros i. apply Z.eq_dec. }
  - apply (selector_one_hot P w ltac:(lia) HP false queryKey _ (elems keys)
             (values_read queryKey keys values) (length (elems keys)) k Hk) in Hsat.
    + destruct Hsat as (Hone & Hzero & Hvalue).
      exists k, (nth_csv (elems keys) k), (nth_csv (elems values) k).
      split; [apply nth_csv_lookup, Hk|]. split; [exact Hmatch|].
      split; [apply nth_csv_lookup; lia|].
      split; [|split].
      * intros Hnot. rewrite Hvalue, nth_csv_values_read_kept by exact Hnot. reflexivity.
      * intros Hov. rewrite Hvalue, nth_csv_values_read_overwritten by exact Hov.
        reflexivity.
      * intros j ind Hj. destruct (lookup_nth_csv _ _ _ Hj) as [-> Hjn].
        rewrite length_fmap, length_seq in Hjn.
        destruct (decide (j = k)) as [->|Hne]; [exact Hone | apply Hzero; assumption].
    + intros i Hi Hik. cbn [selector_key]. rewrite <- Hmatch.
      apply (Hdistinct i k); [apply nth_csv_lookup; lia | apply nth_csv_lookup; lia | exact Hik].
  - exfalso. revert Hsat. apply selector_without_match_unsatisfiable; [exact HP|].
    intros i Hi. cbn [selector_key]. apply Hnone. exact Hi.
Qed.

(** The keys and the values are the two halves of one array and the
    append overwrites values[0]; the assignment is a solution with
    queryKey = keys[0], so the output is queryKey. *)
Lemma Map_sound_witness :
  let w := inputs_witness [3; 3; 7; 9; 4; 5; 6; 1; 0; 0] in
  let all := Slice 0 [Wire 1; Wire 2; Wire 3; Wire 4; Wire 5; Wire 6] 6 in
  let keys := subslice all 0 3 in
  let values := subslice all 3 6 in
  Z.prime 13 /\
  exists out indicators s',
    Map (Wire 0) keys values (fresh_system 7) = Returned (out, indicators) s' /\
    solutions 13 (fresh_system 7) s' w /\
    exists k keys_k values_k,
      elems keys !! k = Some keys_k /\ eval 13 w keys_k = eval 13 w (Wire 0) /\
      elems values !! k = Some values_k /\
      (~ overwrites keys values k -> eval 13 w out = eval 13 w values_k) /\
      (overwrites keys values k -> eval 13 w out = eval 13 w (Wire 0)) /\
      forall j ind, indicators !! j = Some ind ->
                    eval 13 w ind = if decide (j = k) then 1 else 0.
Proof.
  intros w all keys values. split; [exact prime_13|].
  destruct (Map_sound 13 w (Wire 0) keys values (fresh_system 7) prime_13 eq_refl)
    as (out & indicators & s' & Hrun & Hsound).
  { intros i j keys_i keys_j Hi Hj Hij.
    destruct i as [|[|[|i]]]; destruct j as [|[|[|j]]];
      cbn in Hi, Hj; try discriminate; try congruence;
      injection Hi as <-; injection Hj as <-; vm_compute; discriminate. }
  assert (Hsat : solutions 13 (fresh_system 7) s' w).
  { vm_compute in Hrun. injection Hrun as _ _ <-.
    apply satisfies_forallb. reflexivity. }
  exists out, indicators, s'.
  split; [exact Hrun|]. split; [exact Hsat|]. exact (Hsound Hsat).
Defined.

(** ** generateSelector in mux mode *)

